(** * Scrypt: the arithmetic lexer and the infix precedence parser

    A shallow embedding of [src/lib/infixParser.cpp] (class [InfixParser])
    and of the lexer that shares its file (class [Lexer]), with the
    properties of the tokenizer, of the precedence cascade and of the
    teardown discipline of the parser.

    The lexer is a function on the text that is left and the two position
    counters.  The parser runs in a state monad over the members of
    [InfixParser] and the free store: nodes live at addresses, [new] and
    [delete] change the store, [throw] and the [catch] blocks are the
    exception part of the monad, and what C++ leaves undefined (an index
    past the token vector, a pointer to a node that is gone) is an answer
    of its own.  Recursion is bounded by a fuel the entry points compute
    from the number of tokens left; [TerminationFacts] and [ParseFacts]
    show it is never used up.

    [TokenStreamFacts] relates the token vector to the text it was made
    of, [ProgressFacts] says where a run of the parser stops and what it
    reports, and [FringeFacts] that the trees read as the tokens.

    In [InfixParser] the free store never runs out.  [Exhaustion] reads
    the cascade once more with [new] and [push_back] able to throw
    [std::bad_alloc], and [ExhaustionFacts] follows the handlers of the
    levels there. *)

From Stdlib Require Import ZArith String Ascii DecimalString Lia.
From stdpp Require Import gmap strings list fin_maps.

Open Scope Z_scope.
Open Scope string_scope.

(** ** Tokens *)

(** Modelled from the spec: the enumeration [TokenType] is declared in a
    header that is not part of the sources at hand; the constructors are
    the token kinds of the data model, which are also the ones the parser
    names. *)
Module TokenType.
Inductive t :=
| NUMBER | IDENTIFIER | BOOLEAN_TRUE | BOOLEAN_FALSE | ASSIGN
| LOGICAL_OR | LOGICAL_XOR | LOGICAL_AND | EQUAL | NOT_EQUAL
| LESS | LESS_EQUAL | GREATER | GREATER_EQUAL
| ADD | SUBTRACT | MULTIPLY | DIVIDE | MODULO
| LEFT_PAREN | RIGHT_PAREN | UNKNOWN.

Definition eqb (a b : t) : bool :=
  match a, b with
  | NUMBER, NUMBER | IDENTIFIER, IDENTIFIER | BOOLEAN_TRUE, BOOLEAN_TRUE
  | BOOLEAN_FALSE, BOOLEAN_FALSE | ASSIGN, ASSIGN | LOGICAL_OR, LOGICAL_OR
  | LOGICAL_XOR, LOGICAL_XOR | LOGICAL_AND, LOGICAL_AND | EQUAL, EQUAL
  | NOT_EQUAL, NOT_EQUAL | LESS, LESS | LESS_EQUAL, LESS_EQUAL
  | GREATER, GREATER | GREATER_EQUAL, GREATER_EQUAL | ADD, ADD
  | SUBTRACT, SUBTRACT | MULTIPLY, MULTIPLY | DIVIDE, DIVIDE
  | MODULO, MODULO | LEFT_PAREN, LEFT_PAREN | RIGHT_PAREN, RIGHT_PAREN
  | UNKNOWN, UNKNOWN => true
  | _, _ => false
  end.
End TokenType.

(** Modelled from the spec: the structure [Token] is declared in the same
    absent header; the fields are the ones the code reads ([type],
    [value], [line], [column]) and builds with
    [{type, text, line, column}]. *)
Module Token.
Record t := mk { type : TokenType.t; value : string; line : Z; column : Z }.
End Token.

(** ** The lexer *)

Module Lexer.

(** The members of [Lexer]: the input stream (what is left to read) and
    the position counters.  [int] is taken as [Z]: the counters only
    grow by one per character read. *)
Record t := mk { inputStream : string; line : Z; col : Z }.

(** [Lexer::Lexer(input)] *)
Definition init (input : string) : t := mk input 1 1.

(** [inputStream.peek()]; [None] is [EOF]. *)
Definition peek (lx : t) : option ascii :=
  match inputStream lx with
  | EmptyString => None
  | String c _ => Some c
  end.

Definition newline : ascii := "010"%char.

(** The position after [consume] has read the character [c]. *)
Definition advance (c : ascii) (ln cl : Z) : Z * Z :=
  if Ascii.eqb c newline then (ln + 1, 1) else (ln, cl + 1).

(** [Lexer::consume].  At end of input [get()] answers [EOF], which the
    conversion to [char] turns into the character 255. *)
Definition consume (lx : t) : ascii * t :=
  match inputStream lx with
  | EmptyString =>
      let c := "255"%char in
      let '(ln, cl) := advance c (line lx) (col lx) in
      (c, mk EmptyString ln cl)
  | String c rest =>
      let '(ln, cl) := advance c (line lx) (col lx) in
      (c, mk rest ln cl)
  end.

(** [std::isdigit] and [std::isspace] in the default locale. *)
Definition isdigit (c : ascii) : bool :=
  let n := nat_of_ascii c in ((48 <=? n) && (n <=? 57))%nat.

Definition isspace (c : ascii) : bool :=
  let n := nat_of_ascii c in
  ((n =? 32) || ((9 <=? n) && (n <=? 13)))%nat.

(** [Lexer::isDigit] *)
Definition isDigit (c : ascii) : bool := isdigit c || Ascii.eqb c ".".

(** [Lexer::isOperator] *)
Definition isOperator (c : ascii) : bool :=
  Ascii.eqb c "+" || Ascii.eqb c "-" || Ascii.eqb c "*" || Ascii.eqb c "/".

(** [num + c], [num.front()], [num.back()] *)
Definition push_char (s : string) (c : ascii) : string := s ++ String c "".

Definition front (s : string) : option ascii :=
  match s with EmptyString => None | String c _ => Some c end.

Fixpoint back (s : string) : option ascii :=
  match s with
  | EmptyString => None
  | String c EmptyString => Some c
  | String _ r => back r
  end.

Definition is_dot (o : option ascii) : bool :=
  match o with Some c => Ascii.eqb c "." | None => false end.

(** The end of [Lexer::number], after the scanning loop.  [tokenize]
    calls [number] on a digit or a dot only, so [num] is not empty here;
    on an empty [num], where [front()] and [back()] are undefined, the
    model answers NUMBER. *)
Definition number_finish (num : string) (ln cl startCol : Z) (rest : string)
  : Token.t * t :=
  if is_dot (front num) || is_dot (back num)
  then (Token.mk TokenType.UNKNOWN num ln startCol, mk rest ln cl)
  else (Token.mk TokenType.NUMBER num ln startCol, mk rest ln cl).

(** The [while (isDigit(inputStream.peek()))] loop of [Lexer::number],
    by recursion on the stream: every turn reads its head character. *)
Fixpoint number_loop (stream : string) (ln cl startCol : Z)
         (num : string) (hasDecimal : bool) : Token.t * t :=
  match stream with
  | EmptyString => number_finish num ln cl startCol stream
  | String c rest =>
      if isDigit c then
        let '(ln', cl') := advance c ln cl in
        if Ascii.eqb c "." then
          if hasDecimal
          then (Token.mk TokenType.UNKNOWN (push_char num c) ln' startCol,
                mk rest ln' cl')
          else number_loop rest ln' cl' startCol (push_char num c) true
        else number_loop rest ln' cl' startCol (push_char num c) hasDecimal
      else number_finish num ln cl startCol stream
  end.

(** [Lexer::number] *)
Definition number (lx : t) : Token.t * t :=
  number_loop (inputStream lx) (line lx) (col lx) (col lx) "" false.

(** [Lexer::op] *)
Definition op (lx : t) : Token.t * t :=
  let startCol := col lx in
  let '(c, lx') := consume lx in
  let ty :=
    if Ascii.eqb c "+" then TokenType.ADD
    else if Ascii.eqb c "-" then TokenType.SUBTRACT
    else if Ascii.eqb c "*" then TokenType.MULTIPLY
    else if Ascii.eqb c "/" then TokenType.DIVIDE
    else TokenType.UNKNOWN in
  (Token.mk ty (String c "") (line lx') startCol, lx').

(** One turn of the loop of [Lexer::tokenize]: either the loop goes on
    with the new lexer and token vector, or the function returns. *)
Inductive turn :=
| Continue (lx : t) (tokens : list Token.t)
| Return (lx : t) (tokens : list Token.t).

Definition END (lx : t) : Token.t :=
  Token.mk TokenType.UNKNOWN "END" (line lx) (col lx).

Definition tokenize_turn (lx : t) (tokens : list Token.t) : turn :=
  match peek lx with
  | None => Return lx (tokens ++ [END lx])
  | Some c =>
      if isspace c then Continue (snd (consume lx)) tokens
      else if Ascii.eqb c "(" then
        Continue (snd (consume lx))
                 (tokens ++ [Token.mk TokenType.LEFT_PAREN "(" (line lx) (col lx)])
      else if Ascii.eqb c ")" then
        Continue (snd (consume lx))
                 (tokens ++ [Token.mk TokenType.RIGHT_PAREN ")" (line lx) (col lx)])
      else if isDigit c then
        let '(tok, lx') := number lx in Continue lx' (tokens ++ [tok])
      else if isOperator c then
        let '(tok, lx') := op lx in Continue lx' (tokens ++ [tok])
      else
        (* the braces of the initialiser are evaluated left to right:
           consume() runs before line and col are read *)
        let '(c', lx') := consume lx in
        Return lx' (tokens ++ [Token.mk TokenType.UNKNOWN (String c' "")
                                        (line lx') (col lx')])
  end.

Fixpoint tokenize_loop (fuel : nat) (lx : t) (tokens : list Token.t)
  : option (list Token.t * t) :=
  match fuel with
  | O => None
  | S fuel' =>
      match tokenize_turn lx tokens with
      | Continue lx' tokens' => tokenize_loop fuel' lx' tokens'
      | Return lx' tokens' => Some (tokens', lx')
      end
  end.

(** [Lexer::tokenize], with the lexer it leaves behind.  Every turn that
    goes on has read a character, so the length of the text bounds the
    number of turns. *)
Definition run (lx : t) (tokens : list Token.t) : option (list Token.t * t) :=
  tokenize_loop (S (String.length (inputStream lx))) lx tokens.

Definition tokenize (input : string) : option (list Token.t * t) :=
  run (init input) [].

(** The states in which the loop of [tokenize] stands at its head while
    it reads [input]. *)
Inductive loop_head (input : string) : t -> list Token.t -> Prop :=
| head_first : loop_head input (init input) []
| head_next lx tokens lx' tokens' :
    loop_head input lx tokens ->
    tokenize_turn lx tokens = Continue lx' tokens' ->
    loop_head input lx' tokens'.

(** The characters [tokenize] has no branch for. *)
Definition unrecognized (c : ascii) : bool :=
  negb (isspace c) && negb (Ascii.eqb c "(") && negb (Ascii.eqb c ")")
  && negb (isDigit c) && negb (isOperator c).

(** The position of the character that follows the text [pre], counted
    on the text itself: the line is one more than the number of line
    feeds of [pre], the column one more than the number of characters
    of [pre] after its last line feed. *)
Fixpoint count_newlines (pre : string) : Z :=
  match pre with
  | EmptyString => 0
  | String c r => (if Ascii.eqb c newline then 1 else 0) + count_newlines r
  end.

Fixpoint last_line (pre acc : string) : string :=
  match pre with
  | EmptyString => acc
  | String c r =>
      if Ascii.eqb c newline then last_line r "" else last_line r (push_char acc c)
  end.

Definition text_line (pre : string) : Z := 1 + count_newlines pre.

Definition text_column (pre : string) : Z :=
  1 + Z.of_nat (String.length (last_line pre "")).

(** The counters after the characters of [mid] have been consumed. *)
Fixpoint position_from (mid : string) (ln cl : Z) : Z * Z :=
  match mid with
  | EmptyString => (ln, cl)
  | String c r => let '(ln', cl') := advance c ln cl in position_from r ln' cl'
  end.

(** The counters of the lexer stand at line [ln], column [cl] when the
    text read so far is [pre]. *)
Definition at_pos (pre : string) (ln cl : Z) : Prop :=
  ln = text_line pre /\ cl = text_column pre.

End Lexer.

(** ** Syntax trees in memory *)

(** Modelled from the spec: the enumeration [NodeType] is declared in the
    absent header of the parser; the constructors are the node kinds of
    the data model, which are the ones the parser names. *)
Module NodeType.
Inductive t :=
| NUMBER | BOOLEAN_LITERAL | IDENTIFIER | ASSIGN
| LOGICAL_OR | LOGICAL_XOR | LOGICAL_AND | EQUAL | NOT_EQUAL
| LESS_THAN | LESS_EQUAL | GREATER_THAN | GREATER_EQUAL
| ADD | SUBTRACT | MULTIPLY | DIVIDE | MODULO.

Definition eqb (a b : t) : bool :=
  match a, b with
  | NUMBER, NUMBER | BOOLEAN_LITERAL, BOOLEAN_LITERAL
  | IDENTIFIER, IDENTIFIER | ASSIGN, ASSIGN | LOGICAL_OR, LOGICAL_OR
  | LOGICAL_XOR, LOGICAL_XOR | LOGICAL_AND, LOGICAL_AND | EQUAL, EQUAL
  | NOT_EQUAL, NOT_EQUAL | LESS_THAN, LESS_THAN | LESS_EQUAL, LESS_EQUAL
  | GREATER_THAN, GREATER_THAN | GREATER_EQUAL, GREATER_EQUAL | ADD, ADD
  | SUBTRACT, SUBTRACT | MULTIPLY, MULTIPLY | DIVIDE, DIVIDE
  | MODULO, MODULO => true
  | _, _ => false
  end.
End NodeType.

(** What the parser takes from the language: the type [double] and the
    conversion of the integer literals 0 and 1 to it. *)
Class Numeric := {
  double : Type;
  double_of_int : Z -> double
}.

(** What it takes from the library: [std::stod] on the text of a NUMBER
    token; [None] when it throws ([std::invalid_argument] or
    [std::out_of_range]). *)
Class Stod `{Numeric} := stod : string -> option double.

(** Addresses of the free store; [None] is [nullptr]. *)
Definition addr := nat.
Definition ptr := option addr.
Definition nullptr : ptr := None.

(** Modelled from the spec: the structure [Node] is declared in the absent
    header: a kind, a numeric payload, a name payload and the vector of
    the children.  Its constructor is called with one, two or three
    arguments; the payloads left out are taken as 0 and the empty
    string. *)
Module Node.
Section WithNumeric.
Context `{Numeric}.
Record t := mk {
  type : NodeType.t;
  value : double;
  name : string;
  children : list ptr
}.

Definition new1 (ty : NodeType.t) : t := mk ty (double_of_int 0) "" [].
Definition new2 (ty : NodeType.t) (v : double) : t := mk ty v "" [].
Definition new3 (ty : NodeType.t) (v : double) (nm : string) : t := mk ty v nm [].
End WithNumeric.
Arguments t {_}.
End Node.

(** What [throw] carries: a [std::runtime_error] with its message, or the
    exception of [std::stod]. *)
Inductive exn :=
| runtime_error (what : string)
| stod_exception.

(** Behaviour the language leaves undefined. *)
Inductive undefined :=
| OutOfRange        (* tokens[currentTokenIndex] past the end of the vector *)
| NullDereference   (* node->... on nullptr *)
| DanglingPointer.  (* a node that is not (or no longer) allocated *)

(** The history of the free store: every [new Node] and every [delete]. *)
Inductive event :=
| EvNew (a : addr) (ty : NodeType.t)
| EvDelete (a : addr).

Definition is_new (e : event) : bool :=
  match e with EvNew _ _ => true | EvDelete _ => false end.

Definition allocations (tr : list event) : list event := List.filter is_new tr.

Module InfixParser.
Section WithNumeric.
Context {num : Numeric} {rd : Stod}.

(** The members of [InfixParser], together with the free store the
    nodes live in and its history. *)
Record state := mkState {
  tokens : list Token.t;
  currentTokenIndex : nat;
  root : ptr;
  unmatchedParentheses : Z;
  heap : gmap addr Node.t;
  trace : list event
}.

(** [InfixParser::InfixParser(tokens)], in a free store [h]. *)
Definition init (toks : list Token.t) (h : gmap addr Node.t) : state :=
  mkState toks 0 nullptr 0 h [].

Definition set_index (i : nat) (s : state) : state :=
  mkState (tokens s) i (root s) (unmatchedParentheses s) (heap s) (trace s).
Definition set_root (r : ptr) (s : state) : state :=
  mkState (tokens s) (currentTokenIndex s) r (unmatchedParentheses s) (heap s) (trace s).
Definition set_parens (n : Z) (s : state) : state :=
  mkState (tokens s) (currentTokenIndex s) (root s) n (heap s) (trace s).
Definition set_store (h : gmap addr Node.t) (tr : list event) (s : state) : state :=
  mkState (tokens s) (currentTokenIndex s) (root s) (unmatchedParentheses s) h tr.

(** How a call ends: it returns, it throws, it runs into undefined
    behaviour, or the recursion bound of the model is used up. *)
Inductive result (A : Type) :=
| Ok (a : A) (s : state)
| Throw (e : exn) (s : state)
| Undefined (u : undefined)
| OutOfFuel.
Arguments Ok {A}.
Arguments Throw {A}.
Arguments Undefined {A}.
Arguments OutOfFuel {A}.

Definition M (A : Type) : Type := state -> result A.

Definition ret {A} (a : A) : M A := fun s => Ok a s.
Definition bind {A B} (m : M A) (k : A -> M B) : M B :=
  fun s => match m s with
           | Ok a s' => k a s'
           | Throw e s' => Throw e s'
           | Undefined u => Undefined u
           | OutOfFuel => OutOfFuel
           end.
Definition throw {A} (e : exn) : M A := fun s => Throw e s.
Definition undefined_behaviour {A} (u : undefined) : M A := fun _ => Undefined u.
Definition out_of_fuel {A} : M A := fun _ => OutOfFuel.

(** [try { body } catch (...) { handler }] *)
Definition try_catch {A} (body : M A) (handler : exn -> M A) : M A :=
  fun s => match body s with
           | Throw e s' => handler e s'
           | r => r
           end.

Notation "'let*' x ':=' m 'in' k" := (bind m (fun x => k))
  (at level 10, x name, m at level 100, k at level 200).

(** [InfixParser::currentToken] *)
Definition currentToken : M Token.t :=
  fun s => match tokens s !! currentTokenIndex s with
           | Some t => Ok t s
           | None => Undefined OutOfRange
           end.

(** [currentTokenIndex++] *)
Definition next_token : M unit :=
  fun s => Ok tt (set_index (S (currentTokenIndex s)) s).

(** [unmatchedParentheses++] and [unmatchedParentheses--] *)
Definition add_parens (d : Z) : M unit :=
  fun s => Ok tt (set_parens (unmatchedParentheses s + d) s).

(** [new Node(...)]: the node is placed at an address that is not in
    use. *)
Definition new_Node (n : Node.t) : M ptr :=
  fun s => let a := fresh (dom (heap s)) in
           Ok (Some a) (set_store (<[a := n]> (heap s))
                                  (trace s ++ [EvNew a (Node.type n)]) s).

(** [*node] *)
Definition load (node : ptr) : M Node.t :=
  fun s => match node with
           | None => Undefined NullDereference
           | Some a => match heap s !! a with
                       | Some n => Ok n s
                       | None => Undefined DanglingPointer
                       end
           end.

Definition store (a : addr) (n : Node.t) : M unit :=
  fun s => Ok tt (set_store (<[a := n]> (heap s)) (trace s) s).

(** [node->children.push_back(child)] *)
Definition push_back (node child : ptr) : M unit :=
  let* n := load node in
  match node with
  | Some a => store a (Node.mk (Node.type n) (Node.value n) (Node.name n)
                               (Node.children n ++ [child]))
  | None => undefined_behaviour NullDereference
  end.

(** [delete node] *)
Definition delete_Node (a : addr) : M unit :=
  fun s => match heap s !! a with
           | Some _ => Ok tt (set_store (delete a (heap s)) (trace s ++ [EvDelete a]) s)
           | None => Undefined DanglingPointer
           end.

(** The loop [for (Node*& child : node->children) clearTree(child);] of
    [clearTree], from the child of index [i], with [n] children to go:
    the child is read from the node, torn down, and the slot of the
    vector it was read from is set to [nullptr]. *)
Fixpoint clear_children (clear : ptr -> M unit) (a : addr) (i n : nat) : M unit :=
  match n with
  | O => ret tt
  | S n' =>
      let* nd := load (Some a) in
      match Node.children nd !! i with
      | None => undefined_behaviour OutOfRange
      | Some child =>
          let* _ := clear child in
          let* nd' := load (Some a) in
          let* _ := store a (Node.mk (Node.type nd') (Node.value nd') (Node.name nd')
                                     (<[i := nullptr]> (Node.children nd'))) in
          clear_children clear a (S i) n'
      end
  end.

(** The recursion of [InfixParser::clearTree], [fuel] levels deep. *)
Fixpoint clearTree_rec (fuel : nat) (node : ptr) : M unit :=
  match node with
  | None => ret tt
  | Some a =>
      match fuel with
      | O => out_of_fuel
      | S fuel' =>
          let* nd := load node in
          let* _ := clear_children (clearTree_rec fuel') a 0 (length (Node.children nd)) in
          delete_Node a
      end
  end.

(** [InfixParser::clearTree(Node*& node)].  The answer is the value the
    referenced pointer has afterwards, [nullptr].  A tree cannot be
    deeper than the number of nodes of the store, which bounds the
    recursion. *)
Definition clearTree (node : ptr) : M ptr :=
  fun s => bind (clearTree_rec (S (size (heap s))) node) (fun _ => ret nullptr) s.

(** [std::to_string(int)], also what [operator<<] prints for an [int]. *)
Definition to_string (z : Z) : string := NilZero.string_of_int (Z.to_int z).

(** The message of every error of the parser. *)
Definition unexpected_token (tok : Token.t) : string :=
  "Unexpected token at line " ++ to_string (Token.line tok)
  ++ " column " ++ to_string (Token.column tok)
  ++ ": " ++ Token.value tok ++ String Lexer.newline "".

(** The handler [catch (...) { clearTree(right); clearTree(node); throw; }]
    of the levels of the cascade, run with the values [right] and [node]
    have when the exception arrives. *)
Definition teardown {A} (right node : ptr) (e : exn) : M A :=
  let* _ := clearTree right in
  let* _ := clearTree node in
  throw e.

(** The [while] loop of a left-associative level: [is_op] is the
    condition of the loop on the type of the current token, [node_type]
    the choice of the type of the new node, [operand] the next level of
    the cascade.  [new Node] and [push_back] always succeed here, so
    inside the [try] block only [operand] can throw, and the handler then
    runs with [right == nullptr]; [Exhaustion] reads the loop without
    this assumption. *)
Fixpoint left_assoc_loop (is_op : TokenType.t -> bool)
         (node_type : TokenType.t -> NodeType.t) (operand : M ptr)
         (fuel : nat) (node : ptr) : M ptr :=
  match fuel with
  | O => out_of_fuel
  | S fuel' =>
      let* op := currentToken in
      if is_op (Token.type op) then
        let* _ := next_token in
        let* right := try_catch operand (teardown nullptr node) in
        let* newNode := new_Node (Node.new1 (node_type (Token.type op))) in
        let* _ := push_back newNode node in
        let* _ := push_back newNode right in
        left_assoc_loop is_op node_type operand fuel' newNode
      else ret node
  end.

Definition is_type (ty : TokenType.t) (x : TokenType.t) : bool := TokenType.eqb x ty.

(** The ten functions of the cascade.  Every call takes one unit of
    [fuel]; the loops run on the fuel of their function. *)
Fixpoint expression (fuel : nat) : M ptr :=
  match fuel with
  | O => out_of_fuel
  | S f =>
      (* node is still nullptr when the handler runs *)
      try_catch (assignmentExpression f)
                (fun e => let* _ := clearTree nullptr in throw e)
  end

with assignmentExpression (fuel : nat) : M ptr :=
  match fuel with
  | O => out_of_fuel
  | S f =>
      let* node := logicalOrExpression f in
      let valueNode := nullptr in
      let* op := currentToken in
      if is_type TokenType.ASSIGN (Token.type op) then
        let* nd := load node in
        if negb (NodeType.eqb (Node.type nd) NodeType.IDENTIFIER) then
          let* node := clearTree node in
          teardown valueNode node (runtime_error (unexpected_token op))
        else
          let* _ := next_token in
          let* valueNode := try_catch (assignmentExpression f) (teardown valueNode node) in
          let* assignNode := new_Node (Node.new1 NodeType.ASSIGN) in
          let* _ := push_back assignNode node in
          let* _ := push_back assignNode valueNode in
          ret assignNode
      else ret node
  end

with logicalOrExpression (fuel : nat) : M ptr :=
  match fuel with
  | O => out_of_fuel
  | S f =>
      let* node := logicalXorExpression f in
      left_assoc_loop (is_type TokenType.LOGICAL_OR)
                      (fun _ => NodeType.LOGICAL_OR)
                      (logicalXorExpression f) f node
  end

with logicalXorExpression (fuel : nat) : M ptr :=
  match fuel with
  | O => out_of_fuel
  | S f =>
      let* node := logicalAndExpression f in
      left_assoc_loop (is_type TokenType.LOGICAL_XOR)
                      (fun _ => NodeType.LOGICAL_XOR)
                      (logicalAndExpression f) f node
  end

with logicalAndExpression (fuel : nat) : M ptr :=
  match fuel with
  | O => out_of_fuel
  | S f =>
      let* node := equalityExpression f in
      left_assoc_loop (is_type TokenType.LOGICAL_AND)
                      (fun _ => NodeType.LOGICAL_AND)
                      (equalityExpression f) f node
  end

with equalityExpression (fuel : nat) : M ptr :=
  match fuel with
  | O => out_of_fuel
  | S f =>
      let* node := relationalExpression f in
      left_assoc_loop
        (fun ty => is_type TokenType.EQUAL ty || is_type TokenType.NOT_EQUAL ty)
        (fun ty => if is_type TokenType.EQUAL ty
                   then NodeType.EQUAL else NodeType.NOT_EQUAL)
        (relationalExpression f) f node
  end

with relationalExpression (fuel : nat) : M ptr :=
  match fuel with
  | O => out_of_fuel
  | S f =>
      let* node := additiveExpression f in
      left_assoc_loop
        (fun ty => is_type TokenType.LESS ty || is_type TokenType.LESS_EQUAL ty
                   || is_type TokenType.GREATER ty
                   || is_type TokenType.GREATER_EQUAL ty)
        (fun ty => if is_type TokenType.LESS ty then NodeType.LESS_THAN
                   else if is_type TokenType.LESS_EQUAL ty then NodeType.LESS_EQUAL
                   else if is_type TokenType.GREATER ty then NodeType.GREATER_THAN
                   else NodeType.GREATER_EQUAL)
        (additiveExpression f) f node
  end

with additiveExpression (fuel : nat) : M ptr :=
  match fuel with
  | O => out_of_fuel
  | S f =>
      let* node := multiplicativeExpression f in
      left_assoc_loop
        (fun ty => is_type TokenType.ADD ty || is_type TokenType.SUBTRACT ty)
        (fun ty => if is_type TokenType.ADD ty
                   then NodeType.ADD else NodeType.SUBTRACT)
        (multiplicativeExpression f) f node
  end

with multiplicativeExpression (fuel : nat) : M ptr :=
  match fuel with
  | O => out_of_fuel
  | S f =>
      let* node := factor f in
      left_assoc_loop
        (fun ty => is_type TokenType.MULTIPLY ty || is_type TokenType.DIVIDE ty
                   || is_type TokenType.MODULO ty)
        (fun ty => if is_type TokenType.MULTIPLY ty then NodeType.MULTIPLY
                   else if is_type TokenType.DIVIDE ty then NodeType.DIVIDE
                   else NodeType.MODULO)
        (factor f) f node
  end

with factor (fuel : nat) : M ptr :=
  match fuel with
  | O => out_of_fuel
  | S f =>
      let* token := currentToken in
      let node := nullptr in
      (* catch (...) { clearTree(node); throw; } *)
      let handler (node : ptr) (e : exn) : M ptr :=
        let* _ := clearTree node in throw e in
      match Token.type token with
      | TokenType.NUMBER =>
          match stod (Token.value token) with
          | None => handler node stod_exception
          | Some v =>
              let* node := new_Node (Node.new2 NodeType.NUMBER v) in
              let* _ := next_token in
              ret node
          end
      | TokenType.IDENTIFIER =>
          let* node := new_Node (Node.new3 NodeType.IDENTIFIER (double_of_int 0)
                                           (Token.value token)) in
          let* _ := next_token in
          ret node
      | TokenType.LEFT_PAREN =>
          let* _ := add_parens 1 in
          let* _ := next_token in
          let* node := try_catch (expression f) (handler node) in
          let* cur := currentToken in
          if negb (is_type TokenType.RIGHT_PAREN (Token.type cur)) then
            let* node := clearTree node in
            handler node (runtime_error (unexpected_token cur))
          else
            let* _ := add_parens (-1) in
            let* _ := next_token in
            ret node
      | TokenType.BOOLEAN_TRUE =>
          let* node := new_Node (Node.new2 NodeType.BOOLEAN_LITERAL (double_of_int 1)) in
          let* _ := next_token in
          ret node
      | TokenType.BOOLEAN_FALSE =>
          let* node := new_Node (Node.new2 NodeType.BOOLEAN_LITERAL (double_of_int 0)) in
          let* _ := next_token in
          ret node
      | _ => handler node (runtime_error (unexpected_token token))
      end
  end.

(** The recursion bound the entry points give the cascade: ten calls
    for every token that is left, and ten more. *)
Definition cascade_fuel (s : state) : nat :=
  10 * S (length (tokens s) - currentTokenIndex s).

Definition parse_expression : M ptr := fun s => expression (cascade_fuel s) s.

(** [for (auto& stmt : statements) clearTree(stmt);] the vector keeps
    the pointers as [clearTree] leaves them. *)
Fixpoint clear_statements (statements : list ptr) : M (list ptr) :=
  match statements with
  | [] => ret []
  | stmt :: rest =>
      let* stmt' := clearTree stmt in
      let* rest' := clear_statements rest in
      ret (stmt' :: rest')
  end.

(** [clearTree(root)] on the member [root]. *)
Definition clear_root : M unit :=
  fun s => bind (clearTree (root s)) (fun r s' => Ok tt (set_root r s')) s.

(** [for (auto& stmt : statements) { clearTree(stmt); clearTree(root); }]
    of the error branch of [parse]. *)
Fixpoint clear_statements_and_root (statements : list ptr) : M (list ptr) :=
  match statements with
  | [] => ret []
  | stmt :: rest =>
      let* stmt' := clearTree stmt in
      let* _ := clear_root in
      let* rest' := clear_statements_and_root rest in
      ret (stmt' :: rest')
  end.

(** The handler of [parse]. *)
Definition parse_handler {A} (statements : list ptr) (e : exn) : M A :=
  let* _ := clear_statements statements in
  let* _ := clear_root in
  throw e.

(** The [while] loop of [InfixParser::parse]. *)
Fixpoint parse_loop (fuel : nat) (statements : list ptr) (statementLine : Z)
  : M (list ptr) :=
  match fuel with
  | O => out_of_fuel
  | S fuel' =>
      let* tok := currentToken in
      if negb (is_type TokenType.UNKNOWN (Token.type tok)) then
        let* stmt := try_catch parse_expression (parse_handler statements) in
        let* cur := currentToken in
        if is_type TokenType.UNKNOWN (Token.type cur)
           || (Token.line cur >? statementLine)%Z then
          let statements := (statements ++ [stmt])%list in
          let statementLine :=
            if negb (is_type TokenType.UNKNOWN (Token.type cur))
            then Token.line cur else statementLine in
          parse_loop fuel' statements statementLine
        else
          let errMsg := unexpected_token cur in
          let* statements := clear_statements_and_root statements in
          parse_handler statements (runtime_error errMsg)
      else ret statements
  end.

(** [InfixParser::parse]: every statement takes at least one token. *)
Definition parse : M (list ptr) :=
  let* first := currentToken in
  let statementLine := Token.line first in
  fun s => parse_loop (S (length (tokens s))) [] statementLine s.

(** The tree that hangs from a pointer of the store. *)
#[local] Unset Elimination Schemes.
Inductive tree :=
| Tree (ty : NodeType.t) (v : double) (nm : string) (kids : list tree).

#[local] Set Elimination Schemes.

Fixpoint read_tree (fuel : nat) (h : gmap addr Node.t) (p : ptr) : option tree :=
  match fuel, p with
  | S f, Some a =>
      match h !! a with
      | Some n =>
          match mapM (read_tree f h) (Node.children n) with
          | Some kids => Some (Tree (Node.type n) (Node.value n) (Node.name n) kids)
          | None => None
          end
      | None => None
      end
  | _, _ => None
  end.

Definition tree_at (h : gmap addr Node.t) (p : ptr) : option tree :=
  read_tree (S (size h)) h p.

End WithNumeric.
Arguments Ok {_ _} _ _.
Arguments Throw {_ _} _ _.
Arguments Undefined {_ _} _.
Arguments OutOfFuel {_ _}.
End InfixParser.

(** ** What the parser owns

    The nodes of a tree the parser has built, as a piece of the free
    store: a leaf is one node without children, an operator node owns the
    two disjoint pieces of its children. *)
Module Ownership.
Section WithNumeric.
Context {num : Numeric} {rd : Stod}.
Import InfixParser.

Inductive owns : gmap addr Node.t -> addr -> Prop :=
| owns_leaf a n :
    Node.children n = [] -> owns {[a := n]} a
| owns_binary a n al ar hl hr :
    Node.children n = [Some al; Some ar] ->
    owns hl al -> owns hr ar ->
    hl ##ₘ hr -> hl !! a = None -> hr !! a = None ->
    owns (<[a := n]> (hl ∪ hr)) a.

(** A piece of history without any allocation. *)
Definition deletes_only (tr : list event) : Prop := allocations tr = [].

(** What a level of the cascade leaves behind when it returns, in a
    store that was [h0] before its first node was allocated: a tree of
    its own on top of [h0]. *)
Definition built (h0 : gmap addr Node.t) (s : state) (p : ptr) (s' : state) : Prop :=
  exists a hf,
    p = Some a /\ owns hf a /\ hf ##ₘ h0 /\ heap s' = hf ∪ h0
    /\ tokens s' = tokens s /\ root s' = root s
    /\ (currentTokenIndex s <= currentTokenIndex s' <= length (tokens s))%nat.

(** What it leaves behind when it throws: the store [h0]. *)
Definition torn_down (h0 : gmap addr Node.t) (s s' : state) : Prop :=
  heap s' = h0 /\ tokens s' = tokens s /\ root s' = root s
  /\ (currentTokenIndex s <= currentTokenIndex s')%nat.

Definition level_spec (h0 : gmap addr Node.t) (s : state) (r : result ptr) : Prop :=
  match r with
  | Ok p s' => built h0 s p s'
  | Throw e s' => torn_down h0 s s'
  | _ => True
  end.

Definition builds (m : M ptr) : Prop :=
  forall s, level_spec (heap s) s (m s)
            /\ forall p s', m s = Ok p s' ->
                            (currentTokenIndex s < currentTokenIndex s')%nat.

(** Every level of the cascade, at one recursion bound. *)
Record cascade_builds (f : nat) : Prop := {
  cb_expression : builds (expression f);
  cb_assignment : builds (assignmentExpression f);
  cb_logicalOr : builds (logicalOrExpression f);
  cb_logicalXor : builds (logicalXorExpression f);
  cb_logicalAnd : builds (logicalAndExpression f);
  cb_equality : builds (equalityExpression f);
  cb_relational : builds (relationalExpression f);
  cb_additive : builds (additiveExpression f);
  cb_multiplicative : builds (multiplicativeExpression f);
  cb_factor : builds (factor f)
}.

(** The nine parsing levels of the cascade. *)
Definition cascade (fuel : nat) : list (M ptr) :=
  [assignmentExpression fuel; logicalOrExpression fuel; logicalXorExpression fuel;
   logicalAndExpression fuel; equalityExpression fuel; relationalExpression fuel;
   additiveExpression fuel; multiplicativeExpression fuel; factor fuel].
(** The statements [parse] holds: trees of their own, in disjoint pieces
    of the store. *)
Inductive owns_all : list ptr -> gmap addr Node.t -> Prop :=
| owns_none : owns_all [] ∅
| owns_more a ps h hs :
    owns h a -> owns_all ps hs -> h ##ₘ hs -> owns_all (Some a :: ps) (h ∪ hs).

(** A vector of statements after [clearTree] has been called on each. *)
Definition nulls (ps : list ptr) : list ptr := map (fun _ => nullptr) ps.

(** The tokens that are left. *)
Definition remaining (s : state) : nat := length (tokens s) - currentTokenIndex s.

(** A level of rank [k] returns, throws or runs into undefined behaviour
    when it is given ten units of fuel for every token left and [k]
    more. *)
Definition enough (k f : nat) (m : M ptr) : Prop :=
  forall s, (10 * remaining s + k <= f)%nat -> m s <> OutOfFuel.

Record cascade_total (f : nat) : Prop := {
  ct_expression : enough 10 f (expression f);
  ct_assignment : enough 9 f (assignmentExpression f);
  ct_logicalOr : enough 8 f (logicalOrExpression f);
  ct_logicalXor : enough 7 f (logicalXorExpression f);
  ct_logicalAnd : enough 6 f (logicalAndExpression f);
  ct_equality : enough 5 f (equalityExpression f);
  ct_relational : enough 4 f (relationalExpression f);
  ct_additive : enough 3 f (additiveExpression f);
  ct_multiplicative : enough 2 f (multiplicativeExpression f);
  ct_factor : enough 1 f (factor f)
}.

(** What [parse] answers: the statements it returns are trees of their
    own on top of the store [h0] it started in; when it throws, the store
    is [h0], or [h0] and the tree of one statement; and its recursion
    bounds never run out. *)
Definition parse_spec (h0 : gmap addr Node.t) (s : state) (r : result (list ptr)) : Prop :=
  match r with
  | Ok ps s' =>
      exists hs, owns_all ps hs /\ hs ##ₘ h0 /\ heap s' = hs ∪ h0 /\ tokens s' = tokens s
  | Throw e s' =>
      heap s' = h0 \/ exists a hf, owns hf a /\ hf ##ₘ h0 /\ heap s' = hf ∪ h0
  | Undefined _ => True
  | OutOfFuel => False
  end.
End WithNumeric.
End Ownership.

(** ** Running the parser on a text *)

Module Reading.
Section WithNumeric.
Context {num : Numeric}.
Import InfixParser.

(** A reader of literals given by a table: the texts it knows and, for
    each, the value or the failure ([None]) it answers. *)
Fixpoint table_stod (table : list (string * option double)) : Stod :=
  fun text =>
    match table with
    | [] => None
    | (t, r) :: rest => if String.eqb t text then r else table_stod rest text
    end.

(** Every NUMBER token of a vector has its text in the table. *)
Definition covers (table : list (string * option double)) (toks : list Token.t) : bool :=
  forallb (fun tok => negb (TokenType.eqb (Token.type tok) TokenType.NUMBER)
                      || existsb (fun p => String.eqb (fst p) (Token.value tok)) table)
          toks.

(** Two readers of literals agree on the NUMBER tokens of a vector. *)
Definition agree (rd rd' : Stod) (toks : list Token.t) : Prop :=
  forall tok, In tok toks -> Token.type tok = TokenType.NUMBER ->
              @stod _ rd (Token.value tok) = @stod _ rd' (Token.value tok).

Definition same_run (rd rd' : Stod) (m m' : M ptr) : Prop :=
  forall s, agree rd rd' (tokens s) -> m s = m' s.

(** The cascade under two readers of literals, at one recursion bound. *)
Record cascade_same (rd rd' : Stod) (f : nat) : Prop := {
  cs_expression : same_run rd rd' (@expression _ rd f) (@expression _ rd' f);
  cs_assignment :
    same_run rd rd' (@assignmentExpression _ rd f) (@assignmentExpression _ rd' f);
  cs_logicalOr :
    same_run rd rd' (@logicalOrExpression _ rd f) (@logicalOrExpression _ rd' f);
  cs_logicalXor :
    same_run rd rd' (@logicalXorExpression _ rd f) (@logicalXorExpression _ rd' f);
  cs_logicalAnd :
    same_run rd rd' (@logicalAndExpression _ rd f) (@logicalAndExpression _ rd' f);
  cs_equality :
    same_run rd rd' (@equalityExpression _ rd f) (@equalityExpression _ rd' f);
  cs_relational :
    same_run rd rd' (@relationalExpression _ rd f) (@relationalExpression _ rd' f);
  cs_additive :
    same_run rd rd' (@additiveExpression _ rd f) (@additiveExpression _ rd' f);
  cs_multiplicative :
    same_run rd rd' (@multiplicativeExpression _ rd f) (@multiplicativeExpression _ rd' f);
  cs_factor : same_run rd rd' (@factor _ rd f) (@factor _ rd' f)
}.

(** Trees, as the claims write them. *)
Definition leaf (ty : NodeType.t) (v : double) (nm : string) : tree := Tree ty v nm [].
Definition binary (ty : NodeType.t) (l r : tree) : tree :=
  Tree ty (double_of_int 0) "" [l; r].

(** The trees of the statements [parse] has returned. *)
Definition statements_of (r : result (list ptr)) : option (list tree) :=
  match r with
  | Ok ps s => mapM (tree_at (heap s)) ps
  | _ => None
  end.

(** The token vector of a text. *)
Definition tokens_of (input : string) : list Token.t :=
  match Lexer.tokenize input with Some (toks, _) => toks | None => [] end.

(** A message of the parser: its text and the line feed that ends it. *)
Definition message (text : string) : string := text ++ String Lexer.newline "".

(** A token at line 1. *)
Definition tok (ty : TokenType.t) (text : string) (column : Z) : Token.t :=
  Token.mk ty text 1 column.

(** The token vector for [a = b = 5]; the lexer at hand has no branch for
    letters or for [=], so the vector is written out, with the END token
    [tokenize] appends. *)
Definition tokens_a_b_5 : list Token.t :=
  [tok TokenType.IDENTIFIER "a" 1; tok TokenType.ASSIGN "=" 3;
   tok TokenType.IDENTIFIER "b" 5; tok TokenType.ASSIGN "=" 7;
   tok TokenType.NUMBER "5" 9; tok TokenType.UNKNOWN "END" 10].

(** The token vector for [5 = 3]. *)
Definition tokens_5_3 : list Token.t :=
  [tok TokenType.NUMBER "5" 1; tok TokenType.ASSIGN "=" 3;
   tok TokenType.NUMBER "3" 5; tok TokenType.UNKNOWN "END" 6].
(** The state a call leaves behind. *)
Definition after {A} (r : result A) (otherwise : state) : state :=
  match r with
  | Ok _ s => s
  | Throw _ s => s
  | _ => otherwise
  end.

(** The condition and the choice of node of the loop of
    [additiveExpression]. *)
Definition additive_op (ty : TokenType.t) : bool :=
  is_type TokenType.ADD ty || is_type TokenType.SUBTRACT ty.
Definition additive_node (ty : TokenType.t) : NodeType.t :=
  if is_type TokenType.ADD ty then NodeType.ADD else NodeType.SUBTRACT.
(** Modelled from the spec: the table of the levels of the grammar.  The
    rank of the left-associative level an operator token belongs to, from
    logical or (1) to the multiplicative level (7). *)
Definition level_of (ty : TokenType.t) : option nat :=
  match ty with
  | TokenType.LOGICAL_OR => Some 1%nat
  | TokenType.LOGICAL_XOR => Some 2%nat
  | TokenType.LOGICAL_AND => Some 3%nat
  | TokenType.EQUAL | TokenType.NOT_EQUAL => Some 4%nat
  | TokenType.LESS | TokenType.LESS_EQUAL
  | TokenType.GREATER | TokenType.GREATER_EQUAL => Some 5%nat
  | TokenType.ADD | TokenType.SUBTRACT => Some 6%nat
  | TokenType.MULTIPLY | TokenType.DIVIDE | TokenType.MODULO => Some 7%nat
  | _ => None
  end.

(** Modelled from the spec: the node type the same table gives for an
    operator token. *)
Definition node_of (ty : TokenType.t) : option NodeType.t :=
  match ty with
  | TokenType.LOGICAL_OR => Some NodeType.LOGICAL_OR
  | TokenType.LOGICAL_XOR => Some NodeType.LOGICAL_XOR
  | TokenType.LOGICAL_AND => Some NodeType.LOGICAL_AND
  | TokenType.EQUAL => Some NodeType.EQUAL
  | TokenType.NOT_EQUAL => Some NodeType.NOT_EQUAL
  | TokenType.LESS => Some NodeType.LESS_THAN
  | TokenType.LESS_EQUAL => Some NodeType.LESS_EQUAL
  | TokenType.GREATER => Some NodeType.GREATER_THAN
  | TokenType.GREATER_EQUAL => Some NodeType.GREATER_EQUAL
  | TokenType.ADD => Some NodeType.ADD
  | TokenType.SUBTRACT => Some NodeType.SUBTRACT
  | TokenType.MULTIPLY => Some NodeType.MULTIPLY
  | TokenType.DIVIDE => Some NodeType.DIVIDE
  | TokenType.MODULO => Some NodeType.MODULO
  | _ => None
  end.

(** An IDENTIFIER token. *)
Definition identifier (name : string) (ln cl : Z) : Token.t :=
  Token.mk TokenType.IDENTIFIER name ln cl.

(** The tree [expression] builds on a token vector, in an empty store. *)
Definition expression_tree {rd : Stod} (toks : list Token.t) : option tree :=
  match parse_expression (init toks ∅) with
  | Ok p s => tree_at (heap s) p
  | _ => None
  end.
End WithNumeric.
End Reading.

(** Equality of stores, by their lookups. *)
Ltac heap_eq :=
  apply map_eq;
  let k := fresh "k" in
  intros k;
  repeat (rewrite lookup_union || rewrite lookup_insert || rewrite lookup_delete
          || rewrite lookup_singleton || rewrite lookup_empty);
  repeat match goal with
         | Hd : ?m1 ##ₘ ?m2 |- _ =>
             pose proof (proj1 (map_disjoint_alt m1 m2) Hd k); clear Hd
         end;
  repeat case_decide; simplify_eq;
  repeat match goal with
         | Hn : ?m !! ?a = None |- context [?m !! ?a] => rewrite Hn
         end;
  repeat match goal with
         | |- context [?m !! k] =>
             let E := fresh "E" in destruct (m !! k) eqn:E
         end;
  try reflexivity; try congruence; try (exfalso; intuition congruence).

Ltac frame := repeat split; cbn in *; auto; try congruence; try lia.


(** ** A reading of decimal literals

    An instance of [Numeric] to run the parser on: the value of a literal
    made of digits with at most one dot inside, as its digits without the
    dot and the number of digits after the dot. *)
Module Decimal.
Record t := mk { digits : Z; scale : nat }.

Definition digit_of (c : ascii) : option Z :=
  if Lexer.isdigit c then Some (Z.of_nat (nat_of_ascii c) - 48) else None.

Fixpoint read (s : string) (acc : Z) (after_dot : option nat) : option t :=
  match s with
  | EmptyString =>
      Some (mk acc (match after_dot with Some k => k | None => O end))
  | String c r =>
      match digit_of c with
      | Some d => read r (10 * acc + d) (option_map S after_dot)
      | None =>
          match after_dot with
          | None => if Ascii.eqb c "." then read r acc (Some O) else None
          | Some _ => None
          end
      end
  end.

Definition stod (s : string) : option t :=
  match s with
  | EmptyString => None
  | String c _ => if Lexer.isdigit c then read s 0 None else None
  end.

Definition of_int (z : Z) : t := mk z 0.

#[export] Instance numeric : Numeric := Build_Numeric t of_int.
#[export] Instance reader : Stod := stod.
End Decimal.

(** ** What a token vector says about its text *)

Module TokenStream.
Import Lexer.

(** The text without its white space. *)
Fixpoint strip_spaces (s : string) : string :=
  match s with
  | EmptyString => EmptyString
  | String c r => if isspace c then strip_spaces r else String c (strip_spaces r)
  end.

(** The texts of the tokens, one after the other. *)
Fixpoint texts (toks : list Token.t) : string :=
  match toks with
  | [] => EmptyString
  | tok :: rest => Token.value tok ++ texts rest
  end.

(** The token kinds [tokenize] has a branch for. *)
Definition lexical (ty : TokenType.t) : bool :=
  match ty with
  | TokenType.NUMBER | TokenType.ADD | TokenType.SUBTRACT | TokenType.MULTIPLY
  | TokenType.DIVIDE | TokenType.LEFT_PAREN | TokenType.RIGHT_PAREN
  | TokenType.UNKNOWN => true
  | _ => false
  end.

Fixpoint count_dots (s : string) : nat :=
  match s with
  | EmptyString => O
  | String c r => ((if Ascii.eqb c "." then 1 else 0) + count_dots r)%nat
  end.

Fixpoint all_digits_or_dots (s : string) : bool :=
  match s with
  | EmptyString => true
  | String c r => isDigit c && all_digits_or_dots r
  end.

(** A numeric literal: digits with at most one dot, which is neither the
    first nor the last character. *)
Definition numeric_literal (s : string) : Prop :=
  s <> "" /\ all_digits_or_dots s = true /\ (count_dots s <= 1)%nat
  /\ is_dot (front s) = false /\ is_dot (back s) = false.

(** What [number] refuses: digits and dots that begin or end with a dot. *)
Definition malformed_number (s : string) : Prop :=
  all_digits_or_dots s = true
  /\ (is_dot (front s) = true \/ is_dot (back s) = true).

(** The token stands in [input] with its text, and carries the line and
    the column of the first character of that text. *)
Definition located (input : string) (tok : Token.t) : Prop :=
  exists pre post,
    input = pre ++ Token.value tok ++ post
    /\ Token.line tok = text_line pre
    /\ Token.column tok = text_column pre.

(** What one turn of the loop of [tokenize] that goes on has done with the
    piece [mid] of the stream it has read: skipped one white space, or
    made one token of it. *)
Definition skipped (mid : string) (toks toks' : list Token.t) : Prop :=
  toks' = toks /\ strip_spaces mid = "".

Definition emitted (lx : t) (mid : string) (toks toks' : list Token.t) : Prop :=
  exists tok,
    toks' = (toks ++ [tok])%list
    /\ Token.value tok = mid /\ strip_spaces mid = mid
    /\ Token.line tok = line lx /\ Token.column tok = col lx
    /\ lexical (Token.type tok) = true
    /\ (Token.type tok = TokenType.NUMBER -> numeric_literal mid)
    /\ (Token.type tok = TokenType.UNKNOWN -> malformed_number mid).


(** The texts of characters below 128: on a [char] of such a value
    [std::isspace] and [std::isdigit] are defined, whether [char] is
    signed or not. *)
Fixpoint ascii_text (s : string) : bool :=
  match s with
  | EmptyString => true
  | String c rest => (nat_of_ascii c <? 128)%nat && ascii_text rest
  end.

(** A member of a list that is written out. *)
Ltac pick := first [left; reflexivity | right; pick].
End TokenStream.

(** ** What a run of the parser reads and reports *)

Module Progress.
Section WithNumeric.
Context {num : Numeric} {rd : Stod}.
Import InfixParser Ownership.

(** A token of type UNKNOWN stands [k] tokens ahead of the current one:
    the vector [tokenize] returns always ends with such a token. *)
Definition sentinel_ahead (s : state) (k : nat) : Prop :=
  exists t, tokens s !! (currentTokenIndex s + k)%nat = Some t
            /\ Token.type t = TokenType.UNKNOWN.

(** A call that has stayed inside the token vector and the live nodes,
    and on return has not read past the token [k] places ahead. *)
Definition within {A} (s : state) (k : nat) (r : result A) : Prop :=
  match r with
  | Ok _ s' => (currentTokenIndex s' <= currentTokenIndex s + k)%nat
  | Undefined _ => False
  | Throw _ _ | OutOfFuel => True
  end.

Definition guarded (m : M ptr) : Prop :=
  forall s k, sentinel_ahead s k -> within s k (m s).

Record cascade_guarded (f : nat) : Prop := {
  cg_expression : guarded (expression f);
  cg_assignment : guarded (assignmentExpression f);
  cg_logicalOr : guarded (logicalOrExpression f);
  cg_logicalXor : guarded (logicalXorExpression f);
  cg_logicalAnd : guarded (logicalAndExpression f);
  cg_equality : guarded (equalityExpression f);
  cg_relational : guarded (relationalExpression f);
  cg_additive : guarded (additiveExpression f);
  cg_multiplicative : guarded (multiplicativeExpression f);
  cg_factor : guarded (factor f)
}.

(** A call that has run to its end. *)
Definition finished {A} (r : result A) : Prop :=
  match r with
  | Ok _ _ | Throw _ _ => True
  | Undefined _ | OutOfFuel => False
  end.

(** The same state of the parser, whatever the store. *)
Definition same_parser (s s' : state) : Prop :=
  tokens s' = tokens s /\ root s' = root s
  /\ currentTokenIndex s' = currentTokenIndex s
  /\ unmatchedParentheses s' = unmatchedParentheses s.

(** The exception names the token the parser stands at: the message of a
    [runtime_error] is made of that token, and the exception of
    [std::stod] comes from the NUMBER token it could not read. *)
Definition names_current (e : exn) (s' : state) : Prop :=
  exists tok,
    tokens s' !! currentTokenIndex s' = Some tok
    /\ (e = runtime_error (unexpected_token tok)
        \/ (e = stod_exception /\ Token.type tok = TokenType.NUMBER
            /\ stod (Token.value tok) = None)).

(** What a level of the cascade does with the counter of the open
    parentheses, and which exception it throws. *)
Definition reports (m : M ptr) : Prop :=
  forall s,
    match m s with
    | Ok _ s' => unmatchedParentheses s' = unmatchedParentheses s
    | Throw e s' =>
        names_current e s' /\ (unmatchedParentheses s <= unmatchedParentheses s')%Z
    | _ => True
    end.

Record cascade_reports (f : nat) : Prop := {
  cr_expression : reports (expression f);
  cr_assignment : reports (assignmentExpression f);
  cr_logicalOr : reports (logicalOrExpression f);
  cr_logicalXor : reports (logicalXorExpression f);
  cr_logicalAnd : reports (logicalAndExpression f);
  cr_equality : reports (equalityExpression f);
  cr_relational : reports (relationalExpression f);
  cr_additive : reports (additiveExpression f);
  cr_multiplicative : reports (multiplicativeExpression f);
  cr_factor : reports (factor f)
}.

(** Where the loop of [parse] stops, from the state [s] with the
    statements [ps]: on return at a token of type UNKNOWN, with one more
    statement for at least one token read; on a throw at the token the
    exception names. *)
Definition parse_report (ps : list ptr) (s : state) (r : result (list ptr)) : Prop :=
  match r with
  | Ok ps' s' =>
      tokens s' = tokens s /\ root s' = root s
      /\ (exists t, tokens s !! currentTokenIndex s' = Some t
                    /\ Token.type t = TokenType.UNKNOWN)
      /\ unmatchedParentheses s' = unmatchedParentheses s
      /\ exists more, ps' = (ps ++ more)%list
                      /\ (currentTokenIndex s + length more <= currentTokenIndex s')%nat
  | Throw e s' =>
      tokens s' = tokens s /\ root s' = root s /\ names_current e s'
      /\ (unmatchedParentheses s <= unmatchedParentheses s')%Z
  | _ => True
  end.

(** From the current token on, the vector begins with [n] left
    parentheses. *)
Definition opens (s : state) (n : nat) : Prop :=
  forall i, (i < n)%nat ->
    exists t, tokens s !! (currentTokenIndex s + i)%nat = Some t
              /\ Token.type t = TokenType.LEFT_PAREN.

(** [InfixParser::~InfixParser] *)
Definition destructor : M unit := clear_root.
End WithNumeric.
End Progress.

(** ** What the tokens leave in the tree *)

Module Fringe.
Section WithNumeric.
Context {num : Numeric} {rd : Stod}.
Import InfixParser Ownership Reading.

(** The nodes of a tree from left to right: a node without children as it
    is, a node with two children by its type, between its children. *)
Inductive item :=
| Leaf (ty : NodeType.t) (v : double) (nm : string)
| Operator (ty : NodeType.t).

Fixpoint fringe (t : tree) : list item :=
  match t with
  | Tree ty v nm kids =>
      match kids with
      | [l; r] => (fringe l ++ Operator ty :: fringe r)%list
      | _ => [Leaf ty v nm]
      end
  end.

(** The type of the node the cascade makes for an operator token. *)
Definition operator_node (ty : TokenType.t) : option NodeType.t :=
  match ty with
  | TokenType.ASSIGN => Some NodeType.ASSIGN
  | _ => node_of ty
  end.

(** What [factor] and the loops make of one token: a leaf for a literal
    or an identifier, the node of an operator, nothing for a
    parenthesis. *)
Definition item_of (tok : Token.t) : list item :=
  match Token.type tok with
  | TokenType.NUMBER =>
      match stod (Token.value tok) with
      | Some v => [Leaf NodeType.NUMBER v ""]
      | None => []
      end
  | TokenType.IDENTIFIER =>
      [Leaf NodeType.IDENTIFIER (double_of_int 0) (Token.value tok)]
  | TokenType.BOOLEAN_TRUE => [Leaf NodeType.BOOLEAN_LITERAL (double_of_int 1) ""]
  | TokenType.BOOLEAN_FALSE => [Leaf NodeType.BOOLEAN_LITERAL (double_of_int 0) ""]
  | ty =>
      match operator_node ty with
      | Some n => [Operator n]
      | None => []
      end
  end.

Definition items (toks : list Token.t) : list item := flat_map item_of toks.

(** The tokens from index [i] up to index [j], [j] left out. *)
Definition slice (toks : list Token.t) (i j : nat) : list Token.t :=
  take (j - i) (drop i toks).

(** The tree a call returns reads, from left to right, as the tokens the
    call has read. *)
Definition spells (m : M ptr) : Prop :=
  forall s p s',
    m s = Ok p s' ->
    exists t, tree_at (heap s') p = Some t
              /\ fringe t = items (slice (tokens s) (currentTokenIndex s)
                                         (currentTokenIndex s')).

Record cascade_spells (f : nat) : Prop := {
  sp_expression : spells (expression f);
  sp_assignment : spells (assignmentExpression f);
  sp_logicalOr : spells (logicalOrExpression f);
  sp_logicalXor : spells (logicalXorExpression f);
  sp_logicalAnd : spells (logicalAndExpression f);
  sp_equality : spells (equalityExpression f);
  sp_relational : spells (relationalExpression f);
  sp_additive : spells (additiveExpression f);
  sp_multiplicative : spells (multiplicativeExpression f);
  sp_factor : spells (factor f)
}.
(** The nodes of arithmetic: the leaf of a number and the nodes of the
    four operators [tokenize] knows. *)
Definition arithmetic (i : item) : bool :=
  match i with
  | Leaf NodeType.NUMBER _ _ => true
  | Operator (NodeType.ADD | NodeType.SUBTRACT | NodeType.MULTIPLY | NodeType.DIVIDE) =>
      true
  | _ => false
  end.
End WithNumeric.
End Fringe.

(** ** The cascade when the free store can run out

    In [InfixParser] above [new Node] and [children.push_back] always
    succeed, and then the handler of a level is only ever entered from a
    throwing operand, with [right == nullptr].  The handlers are written
    for more: [right] holds a tree from the return of the operand until
    the end of the turn, and the statements in between that can throw are
    [new Node] and the two [push_back], which throw [std::bad_alloc] when
    the free store is used up.  Here the cascade is read once more with
    these three statements able to fail, every [catch (...)] entered with
    the values [right] and [node] have at the statement that throws.

    A [push_back] that throws leaves its vector as it was.  A
    [new Node(...)] that throws, from the allocation or from the
    evaluation of an argument of the constructor, leaves no node behind.
    The copies of tokens and the texts of the error messages are taken not
    to run out of memory; where they stand, the pointers have the values
    they have at the parser's own [throw]. *)
Module Exhaustion.
Section WithNumeric.
Context {num : Numeric} {rd : Stod}.
Import InfixParser.
Local Open Scope list_scope.

(** The statements of the cascade that ask for memory. *)
Inductive request :=
| Request_new          (* new Node(...) *)
| Request_push_back.   (* children.push_back(...) *)

(** What a [catch (...)] of the cascade can be entered with: an exception
    of the parser, or the [std::bad_alloc] of a request. *)
Inductive thrown :=
| parser_error (e : exn)
| bad_alloc (r : request).

(** The parser and the answers the free store gives to the coming
    requests, in order: [true] grants one, [false] refuses it.  When the
    list is used up every request is granted. *)
Record machine := mkMachine { parser : state; grants : list bool }.

Inductive outcome (A : Type) :=
| Done (a : A) (m : machine)
| Thrown (t : thrown) (m : machine)
| Undef (u : undefined)
| Deep.
Arguments Done {A}.
Arguments Thrown {A}.
Arguments Undef {A}.
Arguments Deep {A}.

Definition MM (A : Type) : Type := machine -> outcome A.

Definition unit' {A} (a : A) : MM A := fun m => Done a m.
Definition then' {A B} (c : MM A) (k : A -> MM B) : MM B :=
  fun m => match c m with
           | Done a m' => k a m'
           | Thrown t m' => Thrown t m'
           | Undef u => Undef u
           | Deep => Deep
           end.
Definition throw' {A} (t : thrown) : MM A := fun m => Thrown t m.
Definition deep {A} : MM A := fun _ => Deep.

(** [try { body } catch (...) { handler }] *)
Definition try_catch' {A} (body : MM A) (handler : thrown -> MM A) : MM A :=
  fun m => match body m with
           | Thrown t m' => handler t m'
           | r => r
           end.

Notation "'let+' x ':=' c 'in' k" := (then' c (fun x => k))
  (at level 10, x name, c at level 100, k at level 200).

(** A statement of [InfixParser] that asks for no memory. *)
Definition lift {A} (c : M A) : MM A :=
  fun m => match c (parser m) with
           | Ok a s => Done a (mkMachine s (grants m))
           | Throw e s => Thrown (parser_error e) (mkMachine s (grants m))
           | Undefined u => Undef u
           | OutOfFuel => Deep
           end.

(** A request: the next answer of the free store is taken. *)
Definition ask (r : request) : MM unit :=
  fun m => match grants m with
           | [] => Done tt m
           | true :: rest => Done tt (mkMachine (parser m) rest)
           | false :: rest => Thrown (bad_alloc r) (mkMachine (parser m) rest)
           end.

(** [new Node(...)] *)
Definition new_Node' (n : Node.t) : MM ptr :=
  let+ _ := ask Request_new in lift (new_Node n).

(** [node->children.push_back(child)] *)
Definition push_back' (node child : ptr) : MM unit :=
  let+ _ := ask Request_push_back in lift (push_back node child).

(** [catch (...) { clearTree(right); clearTree(node); throw; }] *)
Definition teardown' {A} (right node : ptr) (t : thrown) : MM A :=
  let+ _ := lift (clearTree right) in
  let+ _ := lift (clearTree node) in
  throw' t.

(** The [while] loop of a left-associative level.  [right] is [nullptr]
    while the operand runs, and the tree the operand returned from then
    to the end of the turn. *)
Fixpoint left_assoc_loop' (is_op : TokenType.t -> bool)
         (node_type : TokenType.t -> NodeType.t) (operand : MM ptr)
         (fuel : nat) (node : ptr) : MM ptr :=
  match fuel with
  | O => deep
  | S fuel' =>
      let+ op := lift currentToken in
      if is_op (Token.type op) then
        let+ _ := lift next_token in
        let+ right := try_catch' operand (teardown' nullptr node) in
        let+ newNode := try_catch' (new_Node' (Node.new1 (node_type (Token.type op))))
                                   (teardown' right node) in
        let+ _ := try_catch' (push_back' newNode node) (teardown' right node) in
        let+ _ := try_catch' (push_back' newNode right) (teardown' right node) in
        left_assoc_loop' is_op node_type operand fuel' newNode
      else unit' node
  end.

(** The ten functions of the cascade. *)
Fixpoint expression' (fuel : nat) : MM ptr :=
  match fuel with
  | O => deep
  | S f =>
      try_catch' (assignmentExpression' f)
                 (fun t => let+ _ := lift (clearTree nullptr) in throw' t)
  end

with assignmentExpression' (fuel : nat) : MM ptr :=
  match fuel with
  | O => deep
  | S f =>
      let+ node := logicalOrExpression' f in
      let valueNode := nullptr in
      let+ op := lift currentToken in
      if is_type TokenType.ASSIGN (Token.type op) then
        let+ nd := lift (load node) in
        if negb (NodeType.eqb (Node.type nd) NodeType.IDENTIFIER) then
          let+ node := lift (clearTree node) in
          teardown' valueNode node (parser_error (runtime_error (unexpected_token op)))
        else
          let+ _ := lift next_token in
          let+ valueNode := try_catch' (assignmentExpression' f)
                                       (teardown' valueNode node) in
          let+ assignNode := try_catch' (new_Node' (Node.new1 NodeType.ASSIGN))
                                        (teardown' valueNode node) in
          let+ _ := try_catch' (push_back' assignNode node) (teardown' valueNode node) in
          let+ _ := try_catch' (push_back' assignNode valueNode)
                               (teardown' valueNode node) in
          unit' assignNode
      else unit' node
  end

with logicalOrExpression' (fuel : nat) : MM ptr :=
  match fuel with
  | O => deep
  | S f =>
      let+ node := logicalXorExpression' f in
      left_assoc_loop' (is_type TokenType.LOGICAL_OR)
                       (fun _ => NodeType.LOGICAL_OR)
                       (logicalXorExpression' f) f node
  end

with logicalXorExpression' (fuel : nat) : MM ptr :=
  match fuel with
  | O => deep
  | S f =>
      let+ node := logicalAndExpression' f in
      left_assoc_loop' (is_type TokenType.LOGICAL_XOR)
                       (fun _ => NodeType.LOGICAL_XOR)
                       (logicalAndExpression' f) f node
  end

with logicalAndExpression' (fuel : nat) : MM ptr :=
  match fuel with
  | O => deep
  | S f =>
      let+ node := equalityExpression' f in
      left_assoc_loop' (is_type TokenType.LOGICAL_AND)
                       (fun _ => NodeType.LOGICAL_AND)
                       (equalityExpression' f) f node
  end

with equalityExpression' (fuel : nat) : MM ptr :=
  match fuel with
  | O => deep
  | S f =>
      let+ node := relationalExpression' f in
      left_assoc_loop'
        (fun ty => is_type TokenType.EQUAL ty || is_type TokenType.NOT_EQUAL ty)
        (fun ty => if is_type TokenType.EQUAL ty
                   then NodeType.EQUAL else NodeType.NOT_EQUAL)
        (relationalExpression' f) f node
  end

with relationalExpression' (fuel : nat) : MM ptr :=
  match fuel with
  | O => deep
  | S f =>
      let+ node := additiveExpression' f in
      left_assoc_loop'
        (fun ty => is_type TokenType.LESS ty || is_type TokenType.LESS_EQUAL ty
                   || is_type TokenType.GREATER ty
                   || is_type TokenType.GREATER_EQUAL ty)
        (fun ty => if is_type TokenType.LESS ty then NodeType.LESS_THAN
                   else if is_type TokenType.LESS_EQUAL ty then NodeType.LESS_EQUAL
                   else if is_type TokenType.GREATER ty then NodeType.GREATER_THAN
                   else NodeType.GREATER_EQUAL)
        (additiveExpression' f) f node
  end

with additiveExpression' (fuel : nat) : MM ptr :=
  match fuel with
  | O => deep
  | S f =>
      let+ node := multiplicativeExpression' f in
      left_assoc_loop'
        (fun ty => is_type TokenType.ADD ty || is_type TokenType.SUBTRACT ty)
        (fun ty => if is_type TokenType.ADD ty
                   then NodeType.ADD else NodeType.SUBTRACT)
        (multiplicativeExpression' f) f node
  end

with multiplicativeExpression' (fuel : nat) : MM ptr :=
  match fuel with
  | O => deep
  | S f =>
      let+ node := factor' f in
      left_assoc_loop'
        (fun ty => is_type TokenType.MULTIPLY ty || is_type TokenType.DIVIDE ty
                   || is_type TokenType.MODULO ty)
        (fun ty => if is_type TokenType.MULTIPLY ty then NodeType.MULTIPLY
                   else if is_type TokenType.DIVIDE ty then NodeType.DIVIDE
                   else NodeType.MODULO)
        (factor' f) f node
  end

with factor' (fuel : nat) : MM ptr :=
  match fuel with
  | O => deep
  | S f =>
      let+ token := lift currentToken in
      let node := nullptr in
      (* catch (...) { clearTree(node); throw; } *)
      let handler (node : ptr) (t : thrown) : MM ptr :=
        let+ _ := lift (clearTree node) in throw' t in
      match Token.type token with
      | TokenType.NUMBER =>
          (* new Node(NodeType::NUMBER, std::stod(token.value)): the memory is
             asked for before the argument is evaluated (C++17); in the other
             order only the exception differs when both fail *)
          let+ node :=
            try_catch' (let+ _ := ask Request_new in
                        match stod (Token.value token) with
                        | None => throw' (parser_error stod_exception)
                        | Some v => lift (new_Node (Node.new2 NodeType.NUMBER v))
                        end)
                       (handler node) in
          let+ _ := lift next_token in
          unit' node
      | TokenType.IDENTIFIER =>
          let+ node :=
            try_catch' (new_Node' (Node.new3 NodeType.IDENTIFIER (double_of_int 0)
                                             (Token.value token)))
                       (handler node) in
          let+ _ := lift next_token in
          unit' node
      | TokenType.LEFT_PAREN =>
          let+ _ := lift (add_parens 1) in
          let+ _ := lift next_token in
          let+ node := try_catch' (expression' f) (handler node) in
          let+ cur := lift currentToken in
          if negb (is_type TokenType.RIGHT_PAREN (Token.type cur)) then
            let+ node := lift (clearTree node) in
            handler node (parser_error (runtime_error (unexpected_token cur)))
          else
            let+ _ := lift (add_parens (-1)) in
            let+ _ := lift next_token in
            unit' node
      | TokenType.BOOLEAN_TRUE =>
          let+ node :=
            try_catch' (new_Node' (Node.new2 NodeType.BOOLEAN_LITERAL (double_of_int 1)))
                       (handler node) in
          let+ _ := lift next_token in
          unit' node
      | TokenType.BOOLEAN_FALSE =>
          let+ node :=
            try_catch' (new_Node' (Node.new2 NodeType.BOOLEAN_LITERAL (double_of_int 0)))
                       (handler node) in
          let+ _ := lift next_token in
          unit' node
      | _ => handler node (parser_error (runtime_error (unexpected_token token)))
      end
  end.

(** The nine parsing levels of the cascade. *)
Definition levels (fuel : nat) : list (MM ptr) :=
  [assignmentExpression' fuel; logicalOrExpression' fuel; logicalXorExpression' fuel;
   logicalAndExpression' fuel; equalityExpression' fuel; relationalExpression' fuel;
   additiveExpression' fuel; multiplicativeExpression' fuel; factor' fuel].

(** The store of a machine. *)
Definition store_of (m : machine) : gmap addr Node.t := heap (parser m).

(** The store [h'] a level throws [t] in, when it was called in [h0]:
    the same store, unless [t] is the [std::bad_alloc] of a [push_back];
    then the node the [push_back] was for is in [h'] besides, without
    children, or with one child that is no longer allocated. *)
Definition left_behind (t : thrown) (h0 h' : gmap addr Node.t) : Prop :=
  match t with
  | bad_alloc Request_push_back =>
      exists a n, h0 !! a = None /\ h' = <[a := n]> h0
                  /\ (Node.children n = []
                      \/ exists l, Node.children n = [Some l] /\ h' !! l = None)
  | _ => h' = h0
  end.

(** What a level leaves behind: a tree of its own on top of the store
    [h0] it was called in when it returns, and [left_behind] when it
    throws. *)
Definition outcome_spec (h0 : gmap addr Node.t) (r : outcome ptr) : Prop :=
  match r with
  | Done p m' =>
      exists a hf, p = Some a /\ Ownership.owns hf a /\ hf ##ₘ h0 /\ store_of m' = hf ∪ h0
  | Thrown t m' => left_behind t h0 (store_of m')
  | Undef _ | Deep => True
  end.

Definition sound (c : MM ptr) : Prop :=
  forall m, outcome_spec (store_of m) (c m).

Record cascade_sound' (f : nat) : Prop := {
  cs_expression : sound (expression' f);
  cs_assignment : sound (assignmentExpression' f);
  cs_logicalOr : sound (logicalOrExpression' f);
  cs_logicalXor : sound (logicalXorExpression' f);
  cs_logicalAnd : sound (logicalAndExpression' f);
  cs_equality : sound (equalityExpression' f);
  cs_relational : sound (relationalExpression' f);
  cs_additive : sound (additiveExpression' f);
  cs_multiplicative : sound (multiplicativeExpression' f);
  cs_factor : sound (factor' f)
}.



End WithNumeric.

Arguments Done {num A}.
Arguments Thrown {num A}.
Arguments Undef {num A}.
Arguments Deep {num A}.
End Exhaustion.

(** ** Properties of the tokens *)

Module TokenTypeFacts.
Import TokenType.

Lemma eqb_eq a b : eqb a b = true <-> a = b.
Proof. destruct a, b; simpl; split; congruence. Qed.

Lemma eqb_neq a b : eqb a b = false <-> a <> b.
Proof. destruct a, b; simpl; split; congruence. Qed.
End TokenTypeFacts.

Example tokenize_sum :
  fst <$> Lexer.tokenize "1 + 2" =
  Some [Token.mk TokenType.NUMBER "1" 1 1; Token.mk TokenType.ADD "+" 1 3;
        Token.mk TokenType.NUMBER "2" 1 5; Token.mk TokenType.UNKNOWN "END" 1 6].
Proof. reflexivity. Qed.

(** ** Properties of the lexer *)

Module LexerFacts.
Import Lexer.

Lemma number_finish_stream num ln cl sc rest :
  inputStream (snd (number_finish num ln cl sc rest)) = rest
  /\ line (snd (number_finish num ln cl sc rest)) = ln
  /\ col (snd (number_finish num ln cl sc rest)) = cl.
Proof. unfold number_finish. destruct (_ || _); simpl; auto. Qed.

Lemma length_app (a b : string) :
  String.length (a ++ b) = (String.length a + String.length b)%nat.
Proof. induction a; simpl; auto. Qed.

Lemma app_cons x (a b : string) : String x a ++ b = String x (a ++ b).
Proof. reflexivity. Qed.

Lemma app_assoc (a b c : string) : (a ++ b) ++ c = a ++ (b ++ c).
Proof. induction a as [|x a IH]; [reflexivity | now rewrite !app_cons, IH]. Qed.

Lemma app_nil_r (a : string) : a ++ "" = a.
Proof. induction a as [|x a IH]; [reflexivity | now rewrite app_cons, IH]. Qed.

Lemma count_newlines_snoc pre c :
  count_newlines (push_char pre c)
  = count_newlines pre + (if Ascii.eqb c newline then 1 else 0).
Proof.
  unfold push_char. induction pre as [|d r IH]; simpl; [lia|]. rewrite IH. lia.
Qed.

Lemma last_line_snoc pre c : forall acc,
  last_line (push_char pre c) acc
  = if Ascii.eqb c newline then "" else push_char (last_line pre acc) c.
Proof.
  unfold push_char. induction pre as [|d r IH]; intros acc; simpl.
  - destruct (Ascii.eqb c newline); reflexivity.
  - destruct (Ascii.eqb d newline); apply IH.
Qed.

Lemma at_pos_advance pre c ln cl :
  at_pos pre ln cl ->
  at_pos (push_char pre c) (fst (advance c ln cl)) (snd (advance c ln cl)).
Proof.
  unfold at_pos, text_line, text_column, advance. intros [-> ->].
  rewrite count_newlines_snoc, last_line_snoc.
  destruct (Ascii.eqb c newline); simpl; [split; lia|].
  unfold push_char. rewrite length_app. simpl. split; lia.
Qed.

Lemma at_pos_start : at_pos "" 1 1.
Proof. split; reflexivity. Qed.

Lemma push_char_app pre c mid : push_char pre c ++ mid = pre ++ String c mid.
Proof. unfold push_char. now rewrite app_assoc. Qed.

Lemma at_pos_from mid : forall pre ln cl,
  at_pos pre ln cl ->
  at_pos (pre ++ mid) (fst (position_from mid ln cl)) (snd (position_from mid ln cl)).
Proof.
  induction mid as [|c r IH]; intros pre ln cl Hp; simpl.
  - now rewrite app_nil_r.
  - pose proof (at_pos_advance pre c ln cl Hp) as Hp'.
    destruct (advance c ln cl) as [ln' cl']. rewrite <- push_char_app.
    now apply IH.
Qed.

(** What [number] leaves in the stream is a suffix of what it found, it
    has read at least one character when it found a digit or a dot, and
    its counters have followed the characters read. *)
Lemma number_loop_suffix stream : forall ln cl sc num dec,
  exists mid,
    let lx' := snd (number_loop stream ln cl sc num dec) in
    stream = mid ++ inputStream lx'
    /\ (line lx', col lx') = position_from mid ln cl
    /\ (forall c r, stream = String c r -> isDigit c = true -> mid <> "").
Proof.
  induction stream as [|c rest IH]; intros ln cl sc num dec.
  - exists "". simpl. destruct (number_finish_stream num ln cl sc "") as (H1 & H2 & H3).
    rewrite H1, H2, H3.
    split; [reflexivity | split; [reflexivity | intros ? ? [=]]].
  - simpl. destruct (isDigit c) eqn:Hd.
    + destruct (advance c ln cl) as [ln' cl'] eqn:Ha.
      assert (Hstep : forall num' dec', exists mid,
                 let lx' := snd (number_loop rest ln' cl' sc num' dec') in
                 String c rest = mid ++ inputStream lx'
                 /\ (line lx', col lx') = position_from mid ln cl
                 /\ (forall c0 r, String c rest = String c0 r ->
                                  isDigit c0 = true -> mid <> "")).
      { intros num' dec'.
        destruct (IH ln' cl' sc num' dec') as (mid & Hm & Hq & _).
        exists (String c mid). cbv zeta in *. simpl. rewrite Ha.
        split; [exact (f_equal (String c) Hm) | split; [exact Hq | intros; discriminate]]. }
      destruct (Ascii.eqb c "."), dec; simpl; try apply Hstep.
      exists (String c ""). simpl. rewrite Ha.
      split; [reflexivity | split; [reflexivity | intros; discriminate]].
    + exists "". destruct (number_finish_stream num ln cl sc (String c rest)) as (H1 & H2 & H3).
      rewrite H1, H2, H3.
      split; [reflexivity | split; [reflexivity |]].
      intros c' r [= <- <-] Hd'. congruence.
Qed.

(** A turn of the loop that goes on has read a piece of the stream, and
    the counters have followed it. *)
Lemma turn_reads lx tokens lx' tokens' :
  tokenize_turn lx tokens = Continue lx' tokens' ->
  exists mid, inputStream lx = mid ++ inputStream lx'
              /\ mid <> ""
              /\ (line lx', col lx') = position_from mid (line lx) (col lx).
Proof.
  intros Ht.
  assert (Hone : forall c rest, inputStream lx = String c rest ->
            lx' = snd (consume lx) ->
            exists mid, inputStream lx = mid ++ inputStream lx'
                        /\ mid <> ""
                        /\ (line lx', col lx') = position_from mid (line lx) (col lx)).
  { intros c rest Hs ->. unfold consume. rewrite Hs.
    exists (String c ""). simpl.
    destruct (advance c (line lx) (col lx)) as [ln' cl']. simpl.
    split; [reflexivity | split; [discriminate | reflexivity]]. }
  unfold tokenize_turn, peek in Ht.
  destruct (inputStream lx) as [|c rest] eqn:Hs; [discriminate|].
  destruct (isspace c).
  { injection Ht as <- _. eapply Hone; eauto. }
  destruct (Ascii.eqb c "(").
  { injection Ht as <- _. eapply Hone; eauto. }
  destruct (Ascii.eqb c ")").
  { injection Ht as <- _. eapply Hone; eauto. }
  destruct (isDigit c) eqn:Hd.
  { unfold number in Ht. rewrite Hs in Ht.
    destruct (number_loop_suffix (String c rest) (line lx) (col lx) (col lx) "" false)
      as (mid & Hm & Hq & Hne).
    destruct (number_loop (String c rest) (line lx) (col lx) (col lx) "" false)
      as [tok l2] eqn:Hn.
    injection Ht as <- _. simpl in *. exists mid.
    split; [exact Hm | split; [now apply (Hne c rest) | exact Hq]]. }
  destruct (isOperator c).
  { unfold op in Ht. destruct (consume lx) as [c' l2] eqn:Hc.
    injection Ht as <- _. eapply Hone; eauto; now rewrite Hc. }
  destruct (consume lx). discriminate.
Qed.

(** A turn that goes on has read at least one character. *)
Lemma turn_shrinks lx tokens lx' tokens' :
  tokenize_turn lx tokens = Continue lx' tokens' ->
  (String.length (inputStream lx') < String.length (inputStream lx))%nat.
Proof.
  intros Ht.
  destruct (turn_reads lx tokens lx' tokens' Ht) as (mid & Hm & Hne & _).
  rewrite Hm, length_app. destruct mid; [congruence|]. simpl. lia.
Qed.

(** Any fuel above the length of the stream gives the same answer. *)
Lemma tokenize_loop_fuel : forall n fuel lx tokens,
  (String.length (inputStream lx) < n)%nat -> (n <= fuel)%nat ->
  tokenize_loop fuel lx tokens = tokenize_loop n lx tokens.
Proof.
  induction n as [|n IH]; intros fuel lx tokens Hlen Hle; [lia|].
  destruct fuel as [|fuel]; [lia|]. simpl.
  destruct (tokenize_turn lx tokens) as [lx' tokens'|lx' tokens'] eqn:Ht; [|reflexivity].
  apply turn_shrinks in Ht. apply IH; lia.
Qed.

Lemma run_continue lx tokens lx' tokens' :
  tokenize_turn lx tokens = Continue lx' tokens' ->
  run lx tokens = run lx' tokens'.
Proof.
  intros Ht. pose proof (turn_shrinks _ _ _ _ Ht) as Hs. unfold run.
  transitivity (tokenize_loop (String.length (inputStream lx)) lx' tokens').
  - cbn [tokenize_loop]. now rewrite Ht.
  - apply tokenize_loop_fuel; lia.
Qed.

Lemma run_return lx tokens lx' tokens' :
  tokenize_turn lx tokens = Return lx' tokens' ->
  run lx tokens = Some (tokens', lx').
Proof. intros Ht. unfold run. simpl. now rewrite Ht. Qed.

(** [tokenize] always returns. *)
Lemma run_total : forall n lx tokens,
  (String.length (inputStream lx) < n)%nat ->
  exists r, tokenize_loop n lx tokens = Some r.
Proof.
  induction n as [|n IH]; intros lx tokens Hlen; [lia|]. simpl.
  destruct (tokenize_turn lx tokens) as [lx' tokens'|lx' tokens'] eqn:Ht; [|eauto].
  apply turn_shrinks in Ht. apply IH; lia.
Qed.

Lemma tokenize_total input : exists r, tokenize input = Some r.
Proof. apply run_total. simpl. lia. Qed.

(** From any head of the loop, the answer of [tokenize] is the answer of
    the rest of the loop. *)
Lemma loop_head_run input lx tokens :
  loop_head input lx tokens -> tokenize input = run lx tokens.
Proof.
  induction 1 as [|lx tokens lx' tokens' _ IH Ht]; [reflexivity|].
  rewrite IH. now apply run_continue.
Qed.

(** The counters of the lexer follow the text: at every head of the loop
    the stream is a suffix of the input and the counters are the position
    of its first character. *)
Lemma loop_head_position input lx tokens :
  loop_head input lx tokens ->
  exists pre, input = pre ++ inputStream lx /\ at_pos pre (line lx) (col lx).
Proof.
  induction 1 as [|lx tokens lx' tokens' _ IH Ht].
  - exists "". split; [reflexivity | apply at_pos_start].
  - destruct IH as (pre & Hin & Hp).
    destruct (turn_reads _ _ _ _ Ht) as (mid & Hm & _ & Hq).
    exists (pre ++ mid). split.
    + now rewrite app_assoc, <- Hm.
    + pose proof (at_pos_from mid pre _ _ Hp) as Hp'.
      rewrite <- Hq in Hp'. exact Hp'.
Qed.

Lemma unrecognized_not_newline c : unrecognized c = true -> Ascii.eqb c newline = false.
Proof.
  unfold unrecognized. destruct (Ascii.eqb c newline) eqn:E; [|reflexivity].
  apply Ascii.eqb_eq in E. subst c. discriminate.
Qed.

(** The turn of the loop on a character [tokenize] has no branch for. *)
Lemma turn_unrecognized lx tokens c rest :
  inputStream lx = String c rest -> unrecognized c = true ->
  tokenize_turn lx tokens
  = Return (mk rest (line lx) (col lx + 1))
           (tokens ++ [Token.mk TokenType.UNKNOWN (String c "") (line lx) (col lx + 1)]).
Proof.
  intros Hs Hu. pose proof (unrecognized_not_newline c Hu) as Hnl.
  unfold unrecognized in Hu.
  repeat (apply andb_prop in Hu as [Hu ?]).
  repeat match goal with
         | Hn : negb _ = true |- _ => apply negb_true_iff in Hn
         end.
  unfold tokenize_turn, peek, consume, advance. rewrite Hs, Hnl.
  repeat match goal with
         | Hn : _ = false |- _ => rewrite Hn; clear Hn
         end.
  reflexivity.
Qed.

(** C4. For every input text: when the loop of [tokenize] stands before a
    character that is not white space, not a parenthesis, not a digit or
    a dot and not one of [+ - * /], the answer of [tokenize] is the tokens
    found so far followed by one UNKNOWN token whose text is that single
    character; that token is the last one (no END token follows it), and
    the stream is left right after the character: nothing behind it has
    been read. *)
Theorem tokenize_stops_at_unrecognized input lx tokens c rest :
  loop_head input lx tokens ->
  inputStream lx = String c rest ->
  unrecognized c = true ->
  exists tok lx',
    tokenize input = Some ((tokens ++ [tok])%list, lx')
    /\ Token.type tok = TokenType.UNKNOWN
    /\ Token.value tok = String c ""
    /\ inputStream lx' = rest.
Proof.
  intros Hh Hs Hu.
  exists (Token.mk TokenType.UNKNOWN (String c "") (line lx) (col lx + 1)),
         (mk rest (line lx) (col lx + 1)).
  rewrite (loop_head_run _ _ _ Hh).
  rewrite (run_return _ _ _ _ (turn_unrecognized lx tokens c rest Hs Hu)).
  repeat split.
Qed.

(** C10. The UNKNOWN token [tokenize] makes for a character it has no
    branch for carries the line of that character and a column one more
    than the column of the character in the text: the character is
    consumed before the counters are read.  The message the parser builds
    from the token names that column. *)
Theorem unrecognized_column_off_by_one input lx tokens c rest :
  loop_head input lx tokens ->
  inputStream lx = String c rest ->
  unrecognized c = true ->
  exists pre tok lx',
    input = pre ++ String c rest
    /\ tokenize input = Some ((tokens ++ [tok])%list, lx')
    /\ Token.type tok = TokenType.UNKNOWN
    /\ Token.line tok = text_line pre
    /\ Token.column tok = text_column pre + 1
    /\ InfixParser.unexpected_token tok
       = "Unexpected token at line " ++ InfixParser.to_string (text_line pre)
         ++ " column " ++ InfixParser.to_string (text_column pre + 1)
         ++ ": " ++ String c "" ++ String newline "".
Proof.
  intros Hh Hs Hu.
  destruct (loop_head_position _ _ _ Hh) as (pre & Hin & Hl & Hc).
  exists pre, (Token.mk TokenType.UNKNOWN (String c "") (line lx) (col lx + 1)),
         (mk rest (line lx) (col lx + 1)).
  rewrite (loop_head_run _ _ _ Hh).
  rewrite (run_return _ _ _ _ (turn_unrecognized lx tokens c rest Hs Hu)).
  unfold InfixParser.unexpected_token. cbn [Token.type Token.line Token.column Token.value].
  rewrite <- Hl, <- Hc, <- Hs. repeat split. exact Hin.
Qed.


End LexerFacts.

(** ** Properties of the parser *)

Module ParserFacts.
Section WithNumeric.
Context {num : Numeric} {rd : Stod}.
Import InfixParser Ownership.
Local Open Scope list_scope.


Lemma owns_root hf a : owns hf a -> exists n, hf !! a = Some n.
Proof. destruct 1; eexists; [apply lookup_singleton_eq | apply lookup_insert_eq]. Qed.

Lemma bind_Ok {A B} (m : M A) (k : A -> M B) s a s' :
  m s = Ok a s' -> bind m k s = k a s'.
Proof. unfold bind. now intros ->. Qed.

Lemma load_Some a n s : heap s !! a = Some n -> load (Some a) s = Ok n s.
Proof. unfold load. now intros ->. Qed.

Lemma clearTree_rec_owns hf a :
  owns hf a ->
  forall fuel h0 s,
    (size hf < fuel)%nat -> hf ##ₘ h0 -> heap s = hf ∪ h0 ->
    exists tr, clearTree_rec fuel (Some a) s = Ok tt (set_store h0 (trace s ++ tr) s)
               /\ deletes_only tr.
Proof.
  induction 1 as [a n Hn | a n al ar hl hr Hn Hl IHl Hr IHr Hd Hla Hra];
    intros fuel h0 s Hfuel Hdisj Hheap.
  - destruct fuel as [|f]; [lia|].
    assert (Hlk : heap s !! a = Some n).
    { rewrite Hheap. apply lookup_union_Some_l, lookup_singleton_eq. }
    exists [EvDelete a]. split; [|reflexivity].
    cbn [clearTree_rec]. unfold bind at 1. unfold load. rewrite Hlk, Hn.
    cbn [length clear_children].
    unfold bind, ret, delete_Node. rewrite Hlk. unfold set_store. cbn.
    f_equal. f_equal. rewrite Hheap.
    rewrite <- insert_empty, <- insert_union_l, map_empty_union.
    apply delete_insert_id.
    apply map_disjoint_singleton_l in Hdisj. exact Hdisj.
  - destruct fuel as [|f]; [lia|].
    assert (Hsize : size (<[a := n]> (hl ∪ hr)) = S (size hl + size hr)).
    { rewrite map_size_insert_None, map_size_disj_union; auto.
      apply lookup_union_None; auto. }
    pose proof Hdisj as Hdisj'.
    apply map_disjoint_insert_l in Hdisj' as [Hh0a Hd'].
    apply map_disjoint_union_l in Hd' as [Hhl0 Hhr0].
    set (n1 := Node.mk (Node.type n) (Node.value n) (Node.name n) [nullptr; Some ar]).
    set (n2 := Node.mk (Node.type n) (Node.value n) (Node.name n) [nullptr; nullptr]).
    (* the left child *)
    destruct (IHl f (<[a := n]> hr ∪ h0) s) as (tr1 & Hc1 & Hd1).
    { lia. }
    { apply map_disjoint_union_r. split; [apply map_disjoint_insert_r; auto | auto]. }
    { rewrite Hheap. heap_eq. }
    set (s1 := set_store (<[a := n]> hr ∪ h0) (trace s ++ tr1) s) in *.
    (* the right child *)
    destruct (IHr f (<[a := n1]> h0) (set_store (<[a := n1]> (heap s1)) (trace s1) s1))
      as (tr2 & Hc2 & Hd2).
    { lia. }
    { apply map_disjoint_insert_r; auto. }
    { cbn. heap_eq. }
    exists (tr1 ++ tr2 ++ [EvDelete a]). split.
    2:{ unfold deletes_only, allocations in *. rewrite !List.filter_app, Hd1, Hd2. reflexivity. }
    assert (Hlk : heap s !! a = Some n).
    { rewrite Hheap. apply lookup_union_Some_l, lookup_insert_eq. }
    assert (Hlk1 : heap s1 !! a = Some n).
    { cbn. apply lookup_union_Some_l, lookup_insert_eq. }
    set (s2 := set_store (<[a := n1]> (heap s1)) (trace s1) s1) in *.
    set (s3 := set_store (<[a := n1]> h0) (trace s2 ++ tr2) s2) in *.
    assert (Hlk3 : heap s3 !! a = Some n1) by apply lookup_insert_eq.
    assert (Hcc : clear_children (clearTree_rec f) a 0 2 s
                  = Ok tt (set_store (<[a := n2]> (heap s3)) (trace s3) s3)).
    { cbn [clear_children].
      rewrite (bind_Ok _ _ _ _ _ (load_Some _ _ _ Hlk)), Hn. cbn [lookup list_lookup].
      rewrite (bind_Ok _ _ _ _ _ Hc1).
      rewrite (bind_Ok _ _ _ _ _ (load_Some _ _ _ Hlk1)).
      rewrite bind_Ok with (a := tt) (s' := s2) by (unfold store; rewrite Hn; reflexivity).
      rewrite (bind_Ok _ _ _ _ _ (load_Some a n1 s2 (lookup_insert_eq _ _ _))).
      cbn [Node.children lookup list_lookup n1].
      rewrite (bind_Ok _ _ _ _ _ Hc2).
      rewrite (bind_Ok _ _ _ _ _ (load_Some _ _ _ Hlk3)).
      reflexivity. }
    cbn [clearTree_rec].
    rewrite (bind_Ok _ _ _ _ _ (load_Some _ _ _ Hlk)), Hn. cbn [length].
    rewrite (bind_Ok _ _ _ _ _ Hcc).
    unfold delete_Node. cbn [heap set_store]. rewrite lookup_insert_eq.
    unfold set_store; cbn. f_equal. f_equal.
    + heap_eq.
    + now rewrite <- !app_assoc.
Qed.

Lemma bind_Throw {A B} (m : M A) (k : A -> M B) s e s' :
  m s = Throw e s' -> bind m k s = Throw e s'.
Proof. unfold bind. now intros ->. Qed.

Lemma bind_Undefined {A B} (m : M A) (k : A -> M B) s u :
  m s = Undefined u -> bind m k s = Undefined u.
Proof. unfold bind. now intros ->. Qed.

Lemma bind_OutOfFuel {A B} (m : M A) (k : A -> M B) s :
  m s = OutOfFuel -> bind m k s = OutOfFuel.
Proof. unfold bind. now intros ->. Qed.

Lemma try_catch_Ok {A} (m : M A) handler s a s' :
  m s = Ok a s' -> try_catch m handler s = Ok a s'.
Proof. unfold try_catch. now intros ->. Qed.

Lemma try_catch_Throw {A} (m : M A) handler s e s' :
  m s = Throw e s' -> try_catch m handler s = handler e s'.
Proof. unfold try_catch. now intros ->. Qed.

Lemma try_catch_Undefined {A} (m : M A) handler s u :
  m s = Undefined u -> try_catch m handler s = Undefined u.
Proof. unfold try_catch. now intros ->. Qed.

Lemma try_catch_OutOfFuel {A} (m : M A) handler s :
  m s = OutOfFuel -> try_catch m handler s = OutOfFuel.
Proof. unfold try_catch. now intros ->. Qed.

Lemma clearTree_null s : clearTree nullptr s = Ok nullptr s.
Proof. reflexivity. Qed.

Lemma clearTree_owns hf a h0 s :
  owns hf a -> hf ##ₘ h0 -> heap s = hf ∪ h0 ->
  exists tr, clearTree (Some a) s = Ok nullptr (set_store h0 (trace s ++ tr) s)
             /\ deletes_only tr.
Proof.
  intros Ho Hd Hh.
  destruct (clearTree_rec_owns hf a Ho (S (size (heap s))) h0 s) as (tr & Hc & Hdel); auto.
  { rewrite Hh, map_size_disj_union by auto. lia. }
  exists tr. split; [|exact Hdel].
  unfold clearTree. now rewrite (bind_Ok _ _ _ _ _ Hc).
Qed.

Lemma teardown_spec (a : addr) hf h0 s e :
  owns hf a -> hf ##ₘ h0 -> heap s = hf ∪ h0 ->
  exists tr, @teardown _ ptr nullptr (Some a) e s = Throw e (set_store h0 (trace s ++ tr) s)
             /\ deletes_only tr.
Proof.
  intros Ho Hd Hh. destruct (clearTree_owns hf a h0 s Ho Hd Hh) as (tr & Hc & Hdel).
  exists tr. split; [|exact Hdel]. unfold teardown.
  rewrite (bind_Ok _ _ _ _ _ (clearTree_null s)).
  now rewrite (bind_Ok _ _ _ _ _ Hc).
Qed.

Lemma fresh_None (h : gmap addr Node.t) : h !! fresh (dom h) = None.
Proof. apply not_elem_of_dom, is_fresh. Qed.

(** Allocating a node and pushing its two children. *)
Lemma new_binary {B} ty (l r : ptr) (k : ptr -> M B) s :
  let a := fresh (dom (heap s)) in
  let n := Node.mk ty (double_of_int 0) "" [l; r] in
  bind (new_Node (Node.new1 ty))
       (fun newNode => bind (push_back newNode l)
                            (fun _ => bind (push_back newNode r) (fun _ => k newNode))) s
  = k (Some a) (set_store (<[a := n]> (heap s)) (trace s ++ [EvNew a ty]) s).
Proof.
  intros a n. unfold bind, new_Node, push_back, bind, load, store, ret. cbn.
  fold a. rewrite !lookup_insert_eq. cbn. rewrite !lookup_insert_eq. cbn.
  unfold set_store. cbn. rewrite !insert_insert_eq. reflexivity.
Qed.

Lemma currentToken_cases s :
  (exists tok, tokens s !! currentTokenIndex s = Some tok /\ currentToken s = Ok tok s)
  \/ currentToken s = Undefined OutOfRange.
Proof.
  unfold currentToken. destruct (tokens s !! currentTokenIndex s); eauto.
Qed.

Lemma owns_join a n al ar hl hr h0 :
  Node.children n = [Some al; Some ar] ->
  owns hl al -> owns hr ar ->
  hl ##ₘ h0 -> hr ##ₘ hl ∪ h0 -> a = fresh (dom (hr ∪ (hl ∪ h0))) ->
  owns (<[a := n]> (hl ∪ hr)) a
  /\ <[a := n]> (hl ∪ hr) ##ₘ h0
  /\ <[a := n]> (hr ∪ (hl ∪ h0)) = <[a := n]> (hl ∪ hr) ∪ h0.
Proof.
  intros Hn Hl Hr Hl0 Hr0 ->.
  set (a := fresh (dom (hr ∪ (hl ∪ h0)))).
  pose proof (fresh_None (hr ∪ (hl ∪ h0))) as Hf. fold a in Hf.
  apply lookup_union_None in Hf as [Hfr Hf].
  apply lookup_union_None in Hf as [Hfl Hf0].
  apply map_disjoint_union_r in Hr0 as [Hrl Hr0].
  split; [|split].
  - apply (owns_binary a n al ar); auto.
  - apply map_disjoint_insert_l. split; [auto|]. apply map_disjoint_union_l. auto.
  - heap_eq.
Qed.

Lemma left_assoc_loop_spec is_op node_type operand :
  builds operand ->
  forall fuel a hf h0 s,
    owns hf a -> hf ##ₘ h0 -> heap s = hf ∪ h0 ->
    (currentTokenIndex s <= length (tokens s))%nat ->
    level_spec h0 s (left_assoc_loop is_op node_type operand fuel (Some a) s).
Proof.
  intros Hop. induction fuel as [|fuel IH]; intros a hf h0 s Ho Hd Hh Hi; [exact I|].
  cbn [left_assoc_loop].
  destruct (currentToken_cases s) as [(op & Hlk & Hc) | Hc];
    [rewrite (bind_Ok _ _ _ _ _ Hc) | now rewrite (bind_Undefined _ _ _ _ Hc)].
  destruct (is_op (Token.type op)).
  2:{ exists a, hf. repeat split; auto. }
  rewrite bind_Ok with (a := tt) (s' := set_index (S (currentTokenIndex s)) s) by reflexivity.
  set (s1 := set_index (S (currentTokenIndex s)) s).
  destruct (Hop s1) as [Hspec Hgrow].
  destruct (operand s1) as [right s2 | e s2 | u |] eqn:Hr.
  - rewrite (bind_Ok _ _ _ _ _ (try_catch_Ok _ _ _ _ _ Hr)).
    destruct Hspec as (ar & hr & -> & Hor & Hdr & Hhr & Htok & Hroot & Hidx).
    cbn [heap set_index s1] in Hdr, Hhr. rewrite Hh in Hdr, Hhr.
    rewrite new_binary.
    set (a' := fresh (dom (heap s2))).
    set (n' := Node.mk (node_type (Token.type op)) (double_of_int 0) "" [Some a; Some ar]).
    set (s3 := set_store (<[a' := n']> (heap s2))
                         (trace s2 ++ [EvNew a' (node_type (Token.type op))]) s2).
    destruct (owns_join a' n' a ar hf hr h0) as (Hnew & Hdn & Heq); auto.
    { unfold a'. now rewrite Hhr. }
    assert (Hh3 : heap s3 = <[a' := n']> (hf ∪ hr) ∪ h0).
    { cbn [heap set_store s3]. rewrite Hhr. exact Heq. }
    assert (Hi3 : (currentTokenIndex s3 <= length (tokens s3))%nat).
    { cbn. rewrite Htok. exact (proj2 Hidx). }
    pose proof (IH a' _ h0 s3 Hnew Hdn Hh3 Hi3) as Hrec.
    destruct (left_assoc_loop _ _ _ _ _ _) as [p s' | e s' | |]; auto.
    + destruct Hrec as (a'' & hf' & -> & Ho' & Hd' & Hh' & Htok' & Hroot' & Hidx').
      exists a'', hf'. subst s1 s3. cbn in *.
      repeat split; auto; try congruence; try lia.
      rewrite Htok in Hidx'. lia.
    + destruct Hrec as (Hh' & Htok' & Hroot' & Hidx').
      subst s1 s3. cbn in *. repeat split; auto; try congruence; try lia.
  - destruct Hspec as (Hh2 & Htok & Hroot & Hidx). cbn [heap s1 set_index] in Hh2.
    destruct (teardown_spec a hf h0 s2 e Ho Hd) as (tr & Ht & _); [congruence|].
    rewrite (bind_Throw _ _ _ _ _ (eq_trans (try_catch_Throw _ _ _ _ _ Hr) Ht)).
    subst s1. cbn in *. repeat split; cbn; auto; lia.
  - now rewrite (bind_Undefined _ _ _ _ (try_catch_Undefined _ _ _ _ Hr)).
  - now rewrite (bind_OutOfFuel _ _ _ (try_catch_OutOfFuel _ _ _ Hr)).
Qed.


Lemma builds_out_of_fuel : builds out_of_fuel.
Proof. intros s. split; [exact I | discriminate]. Qed.

Lemma builds_index (m : M ptr) s p s' :
  builds m -> m s = Ok p s' ->
  (currentTokenIndex s < currentTokenIndex s' <= length (tokens s))%nat.
Proof.
  intros Hb Hm. destruct (Hb s) as [Hs Hg]. rewrite Hm in Hs.
  destruct Hs as (a & hf & _ & _ & _ & _ & _ & _ & Hi). specialize (Hg _ _ Hm). lia.
Qed.

(** A level: a first operand, then the loop. *)
Lemma left_assoc_level_builds is_op node_type operand fuel :
  builds operand ->
  builds (bind operand (left_assoc_loop is_op node_type operand fuel)).
Proof.
  intros Hop s. destruct (Hop s) as [Hs Hg].
  destruct (operand s) as [p s1 | e s1 | u |] eqn:Hf.
  - rewrite (bind_Ok _ _ _ _ _ Hf).
    destruct Hs as (a & hf & -> & Ho & Hd & Hh & Htok & Hroot & Hidx).
    specialize (Hg _ _ eq_refl).
    assert (Hi1 : (currentTokenIndex s1 <= length (tokens s1))%nat) by (rewrite Htok; lia).
    pose proof (left_assoc_loop_spec is_op node_type operand Hop fuel a hf (heap s) s1
                  Ho Hd Hh Hi1) as Hl.
    destruct (left_assoc_loop _ _ _ _ _ _) as [p s' | e s' | |];
      [| |split; [exact I|discriminate]..].
    + destruct Hl as (a' & hf' & -> & Ho' & Hd' & Hh' & Htok' & Hroot' & Hidx').
      split; [exists a', hf'; frame | intros ? ? [= <- <-]; lia].
      rewrite Htok in Hidx'. lia.
    + destruct Hl as (Hh' & Htok' & Hroot' & Hidx'). split; [frame | discriminate].
  - rewrite (bind_Throw _ _ _ _ _ Hf). split; [exact Hs | discriminate].
  - rewrite (bind_Undefined _ _ _ _ Hf). split; [exact I | discriminate].
  - rewrite (bind_OutOfFuel _ _ _ Hf). split; [exact I | discriminate].
Qed.

(** A leaf: one node, one token. *)
Lemma leaf_builds (n : Node.t) s tok :
  Node.children n = [] ->
  tokens s !! currentTokenIndex s = Some tok ->
  let r := bind (new_Node n) (fun node => bind next_token (fun _ => ret node)) s in
  level_spec (heap s) s r
  /\ forall p s', r = Ok p s' -> (currentTokenIndex s < currentTokenIndex s')%nat.
Proof.
  intros Hn Hlk. apply lookup_lt_Some in Hlk. cbn. split.
  - exists (fresh (dom (heap s))), {[fresh (dom (heap s)) := n]}. frame.
    + now apply owns_leaf.
    + apply map_disjoint_singleton_l, fresh_None.
    + apply insert_union_singleton_l.
  - intros ? ? [= <- <-]. cbn. lia.
Qed.


Lemma expression_S f :
  expression (S f)
  = try_catch (assignmentExpression f)
              (fun e => bind (clearTree nullptr) (fun _ => throw e)).
Proof. reflexivity. Qed.

Lemma expression_builds f :
  builds (assignmentExpression f) -> builds (expression (S f)).
Proof.
  intros Hb s. rewrite expression_S. destruct (Hb s) as [Hs Hg].
  unfold try_catch. destruct (assignmentExpression f s) as [p s1 | e s1 | u |] eqn:Hf;
    split; first [exact Hs | exact Hg | discriminate].
Qed.

Lemma factor_builds f :
  builds (expression f) -> builds (factor (S f)).
Proof.
  intros Hb s. cbn [factor].
  destruct (currentToken_cases s) as [(tok & Hlk & Hc) | Hc];
    [rewrite (bind_Ok _ _ _ _ _ Hc)
    | rewrite (bind_Undefined _ _ _ _ Hc); split; [exact I | discriminate]].
  destruct (Token.type tok) eqn:Hty;
    try (split; [repeat split; auto | discriminate]);
    try (apply (leaf_builds _ s tok); [reflexivity | exact Hlk]).
  - (* NUMBER *)
    destruct (stod (Token.value tok)) as [v|].
    + apply (leaf_builds _ s tok); [reflexivity | exact Hlk].
    + split; [repeat split; auto | discriminate].
  - (* LEFT_PAREN *)
    rewrite bind_Ok with (a := tt) (s' := set_parens (unmatchedParentheses s + 1) s)
      by reflexivity.
    rewrite bind_Ok with (a := tt)
      (s' := set_index (S (currentTokenIndex s)) (set_parens (unmatchedParentheses s + 1) s))
      by reflexivity.
    set (s1 := set_index _ _).
    destruct (Hb s1) as [Hs Hg].
    destruct (expression f s1) as [node s2 | e s2 | u |] eqn:He.
    + rewrite (bind_Ok _ _ _ _ _ (try_catch_Ok _ _ _ _ _ He)).
      destruct Hs as (a & hf & -> & Ho & Hd & Hh & Htok & Hroot & Hidx).
      specialize (Hg _ _ eq_refl).
      destruct (currentToken_cases s2) as [(cur & Hlk2 & Hc2) | Hc2];
        [rewrite (bind_Ok _ _ _ _ _ Hc2)
        | rewrite (bind_Undefined _ _ _ _ Hc2); split; [exact I | discriminate]].
      destruct (negb _).
      * destruct (clearTree_owns hf a (heap s1) s2 Ho Hd Hh) as (tr & Hct & _).
        rewrite (bind_Ok _ _ _ _ _ Hct).
        rewrite (bind_Ok _ _ _ _ _ (clearTree_null _)).
        subst s1. split; [frame | discriminate].
      * apply lookup_lt_Some in Hlk2. rewrite Htok in Hlk2. subst s1.
        split; [exists a, hf; frame | intros ? ? [= <- <-]; cbn in *; lia].
    + rewrite (bind_Throw _ _ _ _ _ (try_catch_Throw _ _ _ _ _ He)).
      destruct Hs as (Hh & Htok & Hroot & Hidx). subst s1.
      split; [frame | discriminate].
    + rewrite (bind_Undefined _ _ _ _ (try_catch_Undefined _ _ _ _ He)).
      split; [exact I | discriminate].
    + rewrite (bind_OutOfFuel _ _ _ (try_catch_OutOfFuel _ _ _ He)).
      split; [exact I | discriminate].
Qed.


Lemma assignmentExpression_builds f :
  builds (logicalOrExpression f) -> builds (assignmentExpression f) ->
  builds (assignmentExpression (S f)).
Proof.
  intros Hor Has s. cbn [assignmentExpression].
  destruct (Hor s) as [Hs Hg].
  destruct (logicalOrExpression f s) as [node s1 | e s1 | u |] eqn:Hl.
  2:{ rewrite (bind_Throw _ _ _ _ _ Hl). split; [exact Hs | discriminate]. }
  2:{ rewrite (bind_Undefined _ _ _ _ Hl). split; [exact I | discriminate]. }
  2:{ rewrite (bind_OutOfFuel _ _ _ Hl). split; [exact I | discriminate]. }
  rewrite (bind_Ok _ _ _ _ _ Hl). specialize (Hg _ _ eq_refl).
  pose proof Hs as (a & hf & -> & Ho & Hd & Hh & Htok & Hroot & Hidx).
  destruct (currentToken_cases s1) as [(op & Hlk & Hc) | Hc];
    [rewrite (bind_Ok _ _ _ _ _ Hc)
    | rewrite (bind_Undefined _ _ _ _ Hc); split; [exact I | discriminate]].
  destruct (is_type _ _).
  2:{ split; [exact Hs | intros ? ? [= <- <-]; exact Hg]. }
  destruct (owns_root hf a Ho) as (nd & Hnd).
  assert (Hlka : heap s1 !! a = Some nd).
  { rewrite Hh. now apply lookup_union_Some_l. }
  rewrite (bind_Ok _ _ _ _ _ (load_Some _ _ _ Hlka)).
  destruct (negb _).
  - destruct (clearTree_owns hf a (heap s) s1 Ho Hd Hh) as (tr & Hct & _).
    rewrite (bind_Ok _ _ _ _ _ Hct). unfold teardown.
    rewrite (bind_Ok _ _ _ _ _ (clearTree_null _)).
    rewrite (bind_Ok _ _ _ _ _ (clearTree_null _)).
    split; [frame | discriminate].
  - rewrite bind_Ok with (a := tt) (s' := set_index (S (currentTokenIndex s1)) s1)
      by reflexivity.
    set (s2 := set_index _ _).
    destruct (Has s2) as [Hs2 Hg2].
    destruct (assignmentExpression f s2) as [valueNode s3 | e s3 | u |] eqn:Hv.
    + rewrite (bind_Ok _ _ _ _ _ (try_catch_Ok _ _ _ _ _ Hv)).
      destruct Hs2 as (ar & hr & -> & Hor' & Hdr & Hhr & Htok3 & Hroot3 & Hidx3).
      cbn [heap set_index s2] in Hdr, Hhr. rewrite Hh in Hdr, Hhr.
      rewrite new_binary.
      set (a' := fresh (dom (heap s3))).
      set (n' := Node.mk NodeType.ASSIGN (double_of_int 0) "" [Some a; Some ar]).
      destruct (owns_join a' n' a ar hf hr (heap s)) as (Hnew & Hdn & Heq); auto.
      { unfold a'. now rewrite Hhr. }
      subst s2. split.
      * exists a', (<[a' := n']> (hf ∪ hr)). cbn in Hidx3. rewrite Htok in Hidx3.
        frame. now rewrite Hhr.
      * intros ? ? [= <- <-]. cbn in *. lia.
    + destruct Hs2 as (Hh3 & Htok3 & Hroot3 & Hidx3). cbn [heap s2 set_index] in Hh3.
      destruct (teardown_spec a hf (heap s) s3 e Ho Hd) as (tr & Ht & _); [congruence|].
      rewrite (bind_Throw _ _ _ _ _ (eq_trans (try_catch_Throw _ _ _ _ _ Hv) Ht)).
      subst s2. split; [frame | discriminate].
    + rewrite (bind_Undefined _ _ _ _ (try_catch_Undefined _ _ _ _ Hv)).
      split; [exact I | discriminate].
    + rewrite (bind_OutOfFuel _ _ _ (try_catch_OutOfFuel _ _ _ Hv)).
      split; [exact I | discriminate].
Qed.

Lemma cascade_sound : forall f, cascade_builds f.
Proof.
  induction f as [|f IH].
  - split; apply builds_out_of_fuel.
  - destruct IH. split.
    + now apply expression_builds.
    + now apply assignmentExpression_builds.
    + now apply (left_assoc_level_builds _ _ (logicalXorExpression f) f).
    + now apply (left_assoc_level_builds _ _ (logicalAndExpression f) f).
    + now apply (left_assoc_level_builds _ _ (equalityExpression f) f).
    + now apply (left_assoc_level_builds _ _ (relationalExpression f) f).
    + now apply (left_assoc_level_builds _ _ (additiveExpression f) f).
    + now apply (left_assoc_level_builds _ _ (multiplicativeExpression f) f).
    + now apply (left_assoc_level_builds _ _ (factor f) f).
    + now apply factor_builds.
Qed.



Lemma built_tokens (m : M ptr) s p s' :
  builds m -> m s = Ok p s' -> tokens s' = tokens s.
Proof.
  intros Hb Hm. destruct (Hb s) as [Hs _]. rewrite Hm in Hs.
  destruct Hs as (a & hf & _ & _ & _ & _ & Ht & _). exact Ht.
Qed.

Lemma currentToken_Some s tok :
  tokens s !! currentTokenIndex s = Some tok -> currentToken s = Ok tok s.
Proof. unfold currentToken. now intros ->. Qed.

End WithNumeric.
End ParserFacts.

(** ** The recursion bounds are never used up *)

Module TerminationFacts.
Section WithNumeric.
Context {num : Numeric} {rd : Stod}.
Import InfixParser Ownership ParserFacts.
Local Open Scope list_scope.
Local Open Scope nat_scope.

Lemma built_remaining (m : M ptr) s p s' :
  builds m -> m s = Ok p s' -> remaining s' < remaining s.
Proof.
  intros Hb Hm. pose proof (builds_index m s p s' Hb Hm) as Hi.
  pose proof (built_tokens m s p s' Hb Hm) as Ht.
  unfold remaining. rewrite Ht. lia.
Qed.

Lemma left_assoc_loop_total is_op node_type (operand : M ptr) R :
  builds operand ->
  (forall s, remaining s < R -> operand s <> OutOfFuel) ->
  forall fuel a hf h0 s,
    owns hf a -> hf ##ₘ h0 -> heap s = hf ∪ h0 ->
    remaining s <= R -> remaining s < fuel ->
    left_assoc_loop is_op node_type operand fuel (Some a) s <> OutOfFuel.
Proof.
  intros Hb Hop. induction fuel as [|fuel IH]; intros a hf h0 s Ho Hd Hh HR Hf; [lia|].
  cbn [left_assoc_loop].
  destruct (currentToken_cases s) as [(op & Hlk & Hc) | Hc];
    [rewrite (bind_Ok _ _ _ _ _ Hc) | now rewrite (bind_Undefined _ _ _ _ Hc)].
  apply lookup_lt_Some in Hlk.
  destruct (is_op (Token.type op)); [|discriminate].
  rewrite bind_Ok with (a := tt) (s' := set_index (S (currentTokenIndex s)) s) by reflexivity.
  set (s1 := set_index (S (currentTokenIndex s)) s).
  assert (Hr1 : remaining s1 < remaining s) by (unfold remaining, s1; cbn; lia).
  destruct (Hb s1) as [Hspec _].
  destruct (operand s1) as [right s2 | e s2 | u |] eqn:Hr.
  - rewrite (bind_Ok _ _ _ _ _ (try_catch_Ok _ _ _ _ _ Hr)).
    pose proof (built_remaining _ _ _ _ Hb Hr) as Hr2.
    destruct Hspec as (ar & hr & -> & Hor & Hdr & Hhr & Htok & Hroot & Hidx).
    cbn [heap set_index s1] in Hdr, Hhr. rewrite Hh in Hdr, Hhr.
    rewrite new_binary.
    set (a' := fresh (dom (heap s2))).
    set (n' := Node.mk (node_type (Token.type op)) (double_of_int 0) "" [Some a; Some ar]).
    destruct (owns_join a' n' a ar hf hr h0) as (Hnew & Hdn & Heq); auto.
    { unfold a'. now rewrite Hhr. }
    apply (IH a' (<[a' := n']> (hf ∪ hr)) h0); auto.
    + cbn [heap set_store]. now rewrite Hhr.
    + unfold remaining in *. cbn in *. lia.
    + unfold remaining in *. cbn in *. lia.
  - destruct Hspec as (Hh2 & _). cbn [heap s1 set_index] in Hh2.
    destruct (teardown_spec a hf h0 s2 e Ho Hd) as (tr & Ht & _); [congruence|].
    now rewrite (bind_Throw _ _ _ _ _ (eq_trans (try_catch_Throw _ _ _ _ _ Hr) Ht)).
  - now rewrite (bind_Undefined _ _ _ _ (try_catch_Undefined _ _ _ _ Hr)).
  - exfalso. apply (Hop s1); [lia | exact Hr].
Qed.

Lemma left_assoc_level_total is_op node_type (operand : M ptr) k f :
  builds operand -> enough k f operand ->
  enough (S k) (S f) (bind operand (left_assoc_loop is_op node_type operand f)).
Proof.
  intros Hb Hop s Hs.
  destruct (Hb s) as [Hspec _].
  destruct (operand s) as [p s1 | e s1 | u |] eqn:Hf.
  - rewrite (bind_Ok _ _ _ _ _ Hf).
    pose proof (built_remaining _ _ _ _ Hb Hf) as Hr1.
    destruct Hspec as (a & hf & -> & Ho & Hd & Hh & _).
    apply (left_assoc_loop_total is_op node_type operand (remaining s1) Hb) with hf (heap s);
      auto; try lia.
    intros s' Hs'. apply Hop. lia.
  - now rewrite (bind_Throw _ _ _ _ _ Hf).
  - now rewrite (bind_Undefined _ _ _ _ Hf).
  - exfalso. apply (Hop s); [lia | exact Hf].
Qed.

Lemma expression_total f :
  enough 9 f (assignmentExpression f) -> enough 10 (S f) (expression (S f)).
Proof.
  intros Has s Hs. rewrite expression_S. unfold try_catch.
  destruct (assignmentExpression f s) eqn:Hf; try discriminate.
  exfalso. apply (Has s); [lia | exact Hf].
Qed.

Lemma factor_total f :
  builds (expression f) -> enough 10 f (expression f) -> enough 1 (S f) (factor (S f)).
Proof.
  intros Hb Hex s Hs. cbn [factor].
  destruct (currentToken_cases s) as [(tok & Hlk & Hc) | Hc];
    [rewrite (bind_Ok _ _ _ _ _ Hc) | now rewrite (bind_Undefined _ _ _ _ Hc)].
  apply lookup_lt_Some in Hlk.
  destruct (Token.type tok) eqn:Hty; try discriminate.
  - destruct (stod (Token.value tok)); discriminate.
  - rewrite bind_Ok with (a := tt) (s' := set_parens (unmatchedParentheses s + 1) s)
      by reflexivity.
    rewrite bind_Ok with (a := tt)
      (s' := set_index (S (currentTokenIndex s)) (set_parens (unmatchedParentheses s + 1) s))
      by reflexivity.
    set (s1 := set_index _ _).
    assert (Hr1 : remaining s1 < remaining s) by (unfold remaining, s1; cbn; lia).
    destruct (Hb s1) as [Hspec _].
    destruct (expression f s1) as [node s2 | e s2 | u |] eqn:He.
    + rewrite (bind_Ok _ _ _ _ _ (try_catch_Ok _ _ _ _ _ He)).
      destruct Hspec as (a & hf & -> & Ho & Hd & Hh & _).
      destruct (currentToken_cases s2) as [(cur & Hlk2 & Hc2) | Hc2];
        [rewrite (bind_Ok _ _ _ _ _ Hc2) | now rewrite (bind_Undefined _ _ _ _ Hc2)].
      destruct (negb _); [|discriminate].
      destruct (clearTree_owns hf a (heap s1) s2 Ho Hd Hh) as (tr & Hct & _).
      rewrite (bind_Ok _ _ _ _ _ Hct).
      now rewrite (bind_Ok _ _ _ _ _ (clearTree_null _)).
    + now rewrite (bind_Throw _ _ _ _ _ (try_catch_Throw _ _ _ _ _ He)).
    + now rewrite (bind_Undefined _ _ _ _ (try_catch_Undefined _ _ _ _ He)).
    + exfalso. apply (Hex s1); [lia | exact He].
Qed.

Lemma assignmentExpression_total f :
  builds (logicalOrExpression f) -> builds (assignmentExpression f) ->
  enough 8 f (logicalOrExpression f) -> enough 9 f (assignmentExpression f) ->
  enough 9 (S f) (assignmentExpression (S f)).
Proof.
  intros Hbo Hba Hor Has s Hs. cbn [assignmentExpression].
  destruct (Hbo s) as [Hspec _].
  destruct (logicalOrExpression f s) as [node s1 | e s1 | u |] eqn:Hl.
  2:{ now rewrite (bind_Throw _ _ _ _ _ Hl). }
  2:{ now rewrite (bind_Undefined _ _ _ _ Hl). }
  2:{ exfalso. apply (Hor s); [lia | exact Hl]. }
  rewrite (bind_Ok _ _ _ _ _ Hl).
  pose proof (built_remaining _ _ _ _ Hbo Hl) as Hr1.
  destruct Hspec as (a & hf & -> & Ho & Hd & Hh & _).
  destruct (currentToken_cases s1) as [(op & Hlk & Hc) | Hc];
    [rewrite (bind_Ok _ _ _ _ _ Hc) | now rewrite (bind_Undefined _ _ _ _ Hc)].
  apply lookup_lt_Some in Hlk.
  destruct (is_type _ _); [|discriminate].
  destruct (owns_root hf a Ho) as (nd & Hnd).
  assert (Hlka : heap s1 !! a = Some nd).
  { rewrite Hh. now apply lookup_union_Some_l. }
  rewrite (bind_Ok _ _ _ _ _ (load_Some _ _ _ Hlka)).
  destruct (negb _).
  - destruct (clearTree_owns hf a (heap s) s1 Ho Hd Hh) as (tr & Hct & _).
    rewrite (bind_Ok _ _ _ _ _ Hct). unfold teardown.
    rewrite (bind_Ok _ _ _ _ _ (clearTree_null _)).
    now rewrite (bind_Ok _ _ _ _ _ (clearTree_null _)).
  - rewrite bind_Ok with (a := tt) (s' := set_index (S (currentTokenIndex s1)) s1)
      by reflexivity.
    set (s2 := set_index _ _).
    assert (Hr2 : remaining s2 < remaining s1) by (unfold remaining, s2; cbn; lia).
    destruct (Hba s2) as [Hs2 _].
    destruct (assignmentExpression f s2) as [valueNode s3 | e s3 | u |] eqn:Hv.
    + rewrite (bind_Ok _ _ _ _ _ (try_catch_Ok _ _ _ _ _ Hv)).
      now rewrite new_binary.
    + destruct Hs2 as (Hh3 & _). cbn [heap s2 set_index] in Hh3.
      destruct (teardown_spec a hf (heap s) s3 e Ho Hd) as (tr & Ht & _); [congruence|].
      now rewrite (bind_Throw _ _ _ _ _ (eq_trans (try_catch_Throw _ _ _ _ _ Hv) Ht)).
    + now rewrite (bind_Undefined _ _ _ _ (try_catch_Undefined _ _ _ _ Hv)).
    + exfalso. apply (Has s2); [lia | exact Hv].
Qed.

Lemma cascade_terminates : forall f, cascade_total f.
Proof.
  induction f as [|f IH].
  - split; intros s Hs; lia.
  - destruct IH. destruct (cascade_sound f). split.
    + now apply expression_total.
    + now apply assignmentExpression_total.
    + now apply (left_assoc_level_total _ _ (logicalXorExpression f) 7 f).
    + now apply (left_assoc_level_total _ _ (logicalAndExpression f) 6 f).
    + now apply (left_assoc_level_total _ _ (equalityExpression f) 5 f).
    + now apply (left_assoc_level_total _ _ (relationalExpression f) 4 f).
    + now apply (left_assoc_level_total _ _ (additiveExpression f) 3 f).
    + now apply (left_assoc_level_total _ _ (multiplicativeExpression f) 2 f).
    + now apply (left_assoc_level_total _ _ (factor f) 1 f).
    + now apply factor_total.
Qed.

(** The recursion bound [expression] is given never runs out. *)
Theorem parse_expression_total s : parse_expression s <> OutOfFuel.
Proof.
  unfold parse_expression. apply (ct_expression _ (cascade_terminates _)).
  unfold cascade_fuel, remaining. lia.
Qed.
End WithNumeric.
End TerminationFacts.

(** ** The statements of [parse] *)

Module ParseFacts.
Section WithNumeric.
Context {num : Numeric} {rd : Stod}.
Import InfixParser Ownership ParserFacts TerminationFacts.
Local Open Scope list_scope.
Local Open Scope nat_scope.

Lemma owns_all_snoc ps hs a h :
  owns_all ps hs -> owns h a -> h ##ₘ hs -> owns_all (ps ++ [Some a]) (h ∪ hs).
Proof.
  intros Hps. revert h. induction Hps as [|b ps hb hs Hb Hps IH Hd]; intros h Ha Hdis.
  - cbn. rewrite map_union_empty, <- (map_union_empty h) at 1.
    apply owns_more; [exact Ha | constructor | apply map_disjoint_empty_r].
  - apply map_disjoint_union_r in Hdis as [Hhb Hhs].
    cbn. replace (h ∪ (hb ∪ hs)) with (hb ∪ (h ∪ hs)) by heap_eq.
    apply owns_more; [exact Hb | now apply IH |].
    apply map_disjoint_union_r. split; [now symmetry | exact Hd].
Qed.

Lemma clear_statements_owned ps hs :
  owns_all ps hs ->
  forall h0 s, hs ##ₘ h0 -> heap s = hs ∪ h0 ->
    exists tr, clear_statements ps s = Ok (nulls ps) (set_store h0 (trace s ++ tr) s)
               /\ deletes_only tr.
Proof.
  induction 1 as [|a ps h hs Ha Hps IH Hd]; intros h0 s Hdis Hh.
  - exists []. split; [|reflexivity]. cbn. unfold ret. f_equal.
    rewrite map_empty_union in Hh. rewrite app_nil_r, <- Hh. now destruct s.
  - apply map_disjoint_union_l in Hdis as [Hh0 Hhs0].
    destruct (clearTree_owns h a (hs ∪ h0) s Ha) as (tr1 & Hc1 & Hd1).
    { apply map_disjoint_union_r. split; assumption. }
    { rewrite Hh. now rewrite map_union_assoc. }
    destruct (IH h0 (set_store (hs ∪ h0) (trace s ++ tr1) s) Hhs0 eq_refl)
      as (tr2 & Hc2 & Hd2).
    exists (tr1 ++ tr2). split.
    + cbn [clear_statements]. rewrite (bind_Ok _ _ _ _ _ Hc1), (bind_Ok _ _ _ _ _ Hc2).
      cbn. unfold ret, set_store. cbn. now rewrite app_assoc.
    + unfold deletes_only, allocations in *. now rewrite List.filter_app, Hd1, Hd2.
Qed.

Lemma clear_root_null s : root s = nullptr -> clear_root s = Ok tt s.
Proof. destruct s. cbn. now intros ->. Qed.

Lemma clear_statements_nulls ps s : clear_statements (nulls ps) s = Ok (nulls ps) s.
Proof.
  induction ps as [|p ps IH]; [reflexivity|].
  cbn [nulls map clear_statements].
  rewrite (bind_Ok _ _ _ _ _ (clearTree_null s)).
  fold (nulls ps). now rewrite (bind_Ok _ _ _ _ _ IH).
Qed.

Lemma nulls_nulls ps : nulls (nulls ps) = nulls ps.
Proof. unfold nulls. rewrite map_map. reflexivity. Qed.

Lemma clear_statements_and_root_owned ps hs :
  owns_all ps hs ->
  forall h0 s, hs ##ₘ h0 -> heap s = hs ∪ h0 -> root s = nullptr ->
    exists tr, clear_statements_and_root ps s
               = Ok (nulls ps) (set_store h0 (trace s ++ tr) s)
               /\ deletes_only tr.
Proof.
  induction 1 as [|a ps h hs Ha Hps IH Hd]; intros h0 s Hdis Hh Hroot.
  - exists []. split; [|reflexivity]. cbn. unfold ret. f_equal.
    rewrite map_empty_union in Hh. rewrite app_nil_r, <- Hh. now destruct s.
  - apply map_disjoint_union_l in Hdis as [Hh0 Hhs0].
    destruct (clearTree_owns h a (hs ∪ h0) s Ha) as (tr1 & Hc1 & Hd1).
    { apply map_disjoint_union_r. split; assumption. }
    { rewrite Hh. now rewrite map_union_assoc. }
    set (s1 := set_store (hs ∪ h0) (trace s ++ tr1) s) in *.
    destruct (IH h0 s1 Hhs0 eq_refl Hroot) as (tr2 & Hc2 & Hd2).
    exists (tr1 ++ tr2). split.
    + cbn [clear_statements_and_root]. rewrite (bind_Ok _ _ _ _ _ Hc1).
      rewrite (bind_Ok _ _ _ _ _ (clear_root_null s1 Hroot)).
      rewrite (bind_Ok _ _ _ _ _ Hc2).
      cbn. unfold ret, set_store. cbn. now rewrite app_assoc.
    + unfold deletes_only, allocations in *. now rewrite List.filter_app, Hd1, Hd2.
Qed.

(** The handler of [parse], over the statements it holds. *)
Lemma parse_handler_owned {A} ps hs h0 s e :
  owns_all ps hs -> hs ##ₘ h0 -> heap s = hs ∪ h0 -> root s = nullptr ->
  exists tr, @parse_handler _ A ps e s = Throw e (set_store h0 (trace s ++ tr) s)
             /\ deletes_only tr.
Proof.
  intros Hps Hd Hh Hroot.
  destruct (clear_statements_owned ps hs Hps h0 s Hd Hh) as (tr & Hc & Hdel).
  exists tr. split; [|exact Hdel]. unfold parse_handler.
  rewrite (bind_Ok _ _ _ _ _ Hc).
  now rewrite (bind_Ok _ _ _ _ _ (clear_root_null (set_store h0 (trace s ++ tr) s) Hroot)).
Qed.

Lemma parse_handler_nulls {A} ps s e :
  root s = nullptr -> @parse_handler _ A (nulls ps) e s = Throw e s.
Proof.
  intros Hroot. unfold parse_handler.
  rewrite (bind_Ok _ _ _ _ _ (clear_statements_nulls ps s)).
  now rewrite (bind_Ok _ _ _ _ _ (clear_root_null _ Hroot)).
Qed.


(** What [parse_expression] leaves behind. *)
Lemma parse_expression_builds : builds parse_expression.
Proof. intros s. apply (cb_expression _ (cascade_sound (cascade_fuel s))). Qed.

(** The error branch of the loop of [parse]: the statements parsed before
    are torn down, the one just parsed is not. *)
Lemma parse_loop_leftover fuel statements statementLine hs h0 s tok stmt s1 cur :
  owns_all statements hs -> hs ##ₘ h0 -> heap s = hs ∪ h0 -> root s = nullptr ->
  tokens s !! currentTokenIndex s = Some tok ->
  Token.type tok <> TokenType.UNKNOWN ->
  parse_expression s = Ok stmt s1 ->
  tokens s1 !! currentTokenIndex s1 = Some cur ->
  Token.type cur <> TokenType.UNKNOWN ->
  (Token.line cur <= statementLine)%Z ->
  exists a hf s',
    stmt = Some a /\ owns hf a /\ hf ##ₘ heap s
    /\ parse_loop (S fuel) statements statementLine s
       = Throw (runtime_error (unexpected_token cur)) s'
    /\ heap s' = hf ∪ h0.
Proof.
  intros Hps Hdis Hsplit Hroot Hlk Hty He Hlk1 Hcur Hline.
  destruct (parse_expression_builds s) as [Hspec _]. rewrite He in Hspec.
  destruct Hspec as (a & hf & -> & Ho & Hd & Hh & Htok & Hroot1 & _).
  pose proof Hd as Hd'. rewrite Hsplit in Hd'.
  apply map_disjoint_union_r in Hd' as [Hfs Hf0].
  destruct (clear_statements_and_root_owned statements hs Hps (hf ∪ h0) s1)
    as (tr & Hc & _).
  { apply map_disjoint_union_r. split; [now symmetry | exact Hdis]. }
  { rewrite Hh, Hsplit. heap_eq. }
  { congruence. }
  exists a, hf, (set_store (hf ∪ h0) (trace s1 ++ tr) s1).
  split; [reflexivity|]. split; [exact Ho|]. split; [exact Hd|]. split; [|reflexivity].
  cbn [parse_loop].
  rewrite (bind_Ok _ _ _ _ _ (currentToken_Some _ _ Hlk)).
  apply TokenTypeFacts.eqb_neq in Hty, Hcur. unfold is_type. rewrite Hty. cbn [negb].
  rewrite (bind_Ok _ _ _ _ _ (try_catch_Ok _ _ _ _ _ He)).
  rewrite (bind_Ok _ _ _ _ _ (currentToken_Some _ _ Hlk1)).
  rewrite Hcur. cbn [orb].
  replace (Token.line cur >? statementLine)%Z with false
    by (symmetry; rewrite Z.gtb_ltb; apply Z.ltb_ge; lia).
  rewrite (bind_Ok _ _ _ _ _ Hc).
  apply parse_handler_nulls. cbn. congruence.
Qed.

Lemma parse_loop_spec : forall fuel statements statementLine hs h0 s,
  owns_all statements hs -> hs ##ₘ h0 -> heap s = hs ∪ h0 -> root s = nullptr ->
  remaining s < fuel ->
  parse_spec h0 s (parse_loop fuel statements statementLine s).
Proof.
  induction fuel as [|fuel IH]; intros statements statementLine hs h0 s Hps Hdis Hh Hroot Hf;
    [lia|].
  cbn [parse_loop].
  destruct (currentToken_cases s) as [(tok & Hlk & Hc) | Hc];
    [rewrite (bind_Ok _ _ _ _ _ Hc) | now rewrite (bind_Undefined _ _ _ _ Hc)].
  destruct (negb _).
  2:{ exists hs. auto. }
  destruct (parse_expression_builds s) as [Hspec _].
  pose proof (parse_expression_total s) as Htotal.
  destruct (parse_expression s) as [stmt s1 | e s1 | u |] eqn:He; [| | |congruence].
  - rewrite (bind_Ok _ _ _ _ _ (try_catch_Ok _ _ _ _ _ He)).
    pose proof (built_remaining _ _ _ _ parse_expression_builds He) as Hr1.
    destruct Hspec as (a & hf & -> & Ho & Hd & Hh1 & Htok & Hroot1 & _).
    pose proof Hd as Hd'. rewrite Hh in Hd'.
    apply map_disjoint_union_r in Hd' as [Hfs Hf0].
    destruct (currentToken_cases s1) as [(cur & Hlk1 & Hc1) | Hc1];
      [rewrite (bind_Ok _ _ _ _ _ Hc1) | now rewrite (bind_Undefined _ _ _ _ Hc1)].
    destruct (_ || _).
    + assert (Hnew : owns_all (statements ++ [Some a]) (hf ∪ hs))
        by (apply owns_all_snoc; auto).
      specialize (IH (statements ++ [Some a])
                     (if negb (is_type TokenType.UNKNOWN (Token.type cur))
                      then Token.line cur else statementLine)
                     (hf ∪ hs) h0 s1 Hnew).
      destruct (parse_loop _ _ _ _) as [ps s' | e s' | u |].
      * destruct IH as (hs' & Hps' & Hdis' & Hh' & Htok'); auto; try lia; try congruence.
        { apply map_disjoint_union_l. auto. }
        { rewrite Hh1, Hh. now rewrite map_union_assoc. }
        exists hs'. repeat split; auto. congruence.
      * apply IH; auto; try lia; try congruence.
        { apply map_disjoint_union_l. auto. }
        { rewrite Hh1, Hh. now rewrite map_union_assoc. }
      * exact I.
      * apply IH; auto; try lia; try congruence.
        { apply map_disjoint_union_l. auto. }
        { rewrite Hh1, Hh. now rewrite map_union_assoc. }
    + destruct (clear_statements_and_root_owned statements hs Hps (hf ∪ h0) s1)
        as (tr & Hcl & _).
      { apply map_disjoint_union_r. split; [now symmetry | exact Hdis]. }
      { rewrite Hh1, Hh. heap_eq. }
      { congruence. }
      rewrite (bind_Ok _ _ _ _ _ Hcl).
      rewrite parse_handler_nulls by (cbn; congruence).
      right. exists a, hf. auto.
  - destruct Hspec as (Hh1 & _ & Hroot1 & _).
    destruct (@parse_handler_owned ptr statements hs h0 s1 e Hps Hdis) as (tr & Hph & _);
      [congruence | congruence |].
    rewrite (bind_Throw _ _ _ _ _ (eq_trans (try_catch_Throw _ _ _ _ _ He) Hph)).
    now left.
  - now rewrite (bind_Undefined _ _ _ _ (try_catch_Undefined _ _ _ _ He)).
Qed.

Theorem parse_answers toks h : parse_spec h (init toks h) (parse (init toks h)).
Proof.
  unfold parse.
  destruct (currentToken_cases (init toks h)) as [(tok & Hlk & Hc) | Hc];
    [rewrite (bind_Ok _ _ _ _ _ Hc) | now rewrite (bind_Undefined _ _ _ _ Hc)].
  apply (parse_loop_spec _ [] _ ∅ h).
  - constructor.
  - apply map_disjoint_empty_l.
  - cbn. now rewrite map_empty_union.
  - reflexivity.
  - unfold remaining. cbn. lia.
Qed.
End WithNumeric.
End ParseFacts.

(** ** The reader of literals only matters on the NUMBER tokens *)

Module Congruence.
Section TwoReaders.
Context {num : Numeric} (rd rd' : Stod).
Import InfixParser Ownership ParserFacts Reading.
Local Open Scope list_scope.

Lemma bind_congr {A B} (m m' : M A) (k k' : A -> M B) s :
  m s = m' s ->
  (forall a s', m s = Ok a s' -> k a s' = k' a s') ->
  bind m k s = bind m' k' s.
Proof.
  intros Hm Hk. unfold bind. rewrite <- Hm. destruct (m s); auto.
Qed.

Lemma try_catch_congr {A} (m m' : M A) (h : exn -> M A) s :
  m s = m' s -> try_catch m h s = try_catch m' h s.
Proof. unfold try_catch. now intros ->. Qed.

Lemma left_assoc_loop_congr is_op node_type (operand operand' : M ptr) :
  builds operand -> same_run rd rd' operand operand' ->
  forall fuel node s, agree rd rd' (tokens s) ->
    left_assoc_loop is_op node_type operand fuel node s
    = left_assoc_loop is_op node_type operand' fuel node s.
Proof.
  intros Hb Hsame. induction fuel as [|fuel IH]; intros node s Hag; [reflexivity|].
  cbn [left_assoc_loop]. apply bind_congr; [reflexivity|].
  intros op s0 Hc. assert (s0 = s) as ->.
  { unfold currentToken in Hc. destruct (tokens s !! _); congruence. }
  destruct (is_op (Token.type op)); [|reflexivity].
  apply bind_congr; [reflexivity|]. intros [] s1 [= <-].
  apply bind_congr; [apply try_catch_congr, Hsame; exact Hag|].
  intros right s2 Hr.
  assert (Ht2 : tokens s2 = tokens s).
  { unfold try_catch in Hr.
    destruct (operand _) as [p s'| | |] eqn:Ho; try discriminate.
    - injection Hr as <- <-. apply (built_tokens _ _ _ _ Hb Ho).
    - unfold teardown, bind in Hr.
      repeat match type of Hr with
             | match ?x with _ => _ end = _ => destruct x; try discriminate
             end. }
  rewrite !new_binary. apply IH. cbn. now rewrite Ht2.
Qed.


Lemma left_assoc_level_congr is_op node_type (operand operand' : M ptr) fuel :
  builds operand -> same_run rd rd' operand operand' ->
  same_run rd rd' (bind operand (left_assoc_loop is_op node_type operand fuel))
       (bind operand' (left_assoc_loop is_op node_type operand' fuel)).
Proof.
  intros Hb Hsame s Hag. apply bind_congr; [now apply Hsame|].
  intros node s1 Ho. apply left_assoc_loop_congr; auto.
  now rewrite (built_tokens _ _ _ _ Hb Ho).
Qed.

Lemma currentToken_In s tok s' :
  currentToken s = Ok tok s' -> s' = s /\ In tok (tokens s).
Proof.
  unfold currentToken. destruct (tokens s !! currentTokenIndex s) eqn:E; [|discriminate].
  intros [= <- <-]. split; [reflexivity|].
  apply list_elem_of_In. eapply list_elem_of_lookup_2. exact E.
Qed.

Lemma factor_congr f :
  same_run rd rd' (@expression _ rd f) (@expression _ rd' f) ->
  same_run rd rd' (@factor _ rd (S f)) (@factor _ rd' (S f)).
Proof.
  intros Hsame s Hag. cbn [factor]. apply bind_congr; [reflexivity|].
  intros tok s0 Hc. apply currentToken_In in Hc as [-> Hin].
  destruct (Token.type tok) eqn:Hty; try reflexivity.
  - rewrite (Hag tok Hin Hty). reflexivity.
  - apply bind_congr; [reflexivity|]. intros [] s1 [= <-].
    apply bind_congr; [reflexivity|]. intros [] s2 [= <-].
    apply bind_congr; [apply try_catch_congr, Hsame; exact Hag | reflexivity].
Qed.

Lemma assignmentExpression_congr f :
  builds (@logicalOrExpression _ rd f) ->
  same_run rd rd' (@logicalOrExpression _ rd f) (@logicalOrExpression _ rd' f) ->
  same_run rd rd' (@assignmentExpression _ rd f) (@assignmentExpression _ rd' f) ->
  same_run rd rd' (@assignmentExpression _ rd (S f)) (@assignmentExpression _ rd' (S f)).
Proof.
  intros Hb Hor Has s Hag. cbn [assignmentExpression].
  apply bind_congr; [now apply Hor|]. intros node s1 Hl.
  pose proof (built_tokens _ _ _ _ Hb Hl) as Ht1.
  apply bind_congr; [reflexivity|]. intros op s0 Hc.
  apply currentToken_In in Hc as [-> _].
  destruct (is_type _ _); [|reflexivity].
  apply bind_congr; [reflexivity|]. intros nd s0 Hld.
  destruct (negb _); [reflexivity|].
  apply bind_congr; [reflexivity|]. intros [] s2 [= <-].
  assert (s0 = s1) as ->.
  { unfold load in Hld. destruct node; [|discriminate].
    destruct (heap s1 !! a); congruence. }
  apply bind_congr; [|reflexivity].
  apply try_catch_congr, Has. cbn. now rewrite Ht1.
Qed.

Lemma expression_congr f :
  same_run rd rd' (@assignmentExpression _ rd f) (@assignmentExpression _ rd' f) ->
  same_run rd rd' (@expression _ rd (S f)) (@expression _ rd' (S f)).
Proof.
  intros Has s Hag. rewrite !expression_S. apply try_catch_congr, Has, Hag.
Qed.

Lemma cascade_congr : forall f, cascade_same rd rd' f.
Proof.
  induction f as [|f IH].
  - split; intros s _; reflexivity.
  - destruct IH. destruct (@cascade_sound _ rd f). split.
    + now apply expression_congr.
    + now apply assignmentExpression_congr.
    + now apply (left_assoc_level_congr _ _ (logicalXorExpression f)
                   (logicalXorExpression f) f).
    + now apply (left_assoc_level_congr _ _ (logicalAndExpression f)
                   (logicalAndExpression f) f).
    + now apply (left_assoc_level_congr _ _ (equalityExpression f)
                   (equalityExpression f) f).
    + now apply (left_assoc_level_congr _ _ (relationalExpression f)
                   (relationalExpression f) f).
    + now apply (left_assoc_level_congr _ _ (additiveExpression f)
                   (additiveExpression f) f).
    + now apply (left_assoc_level_congr _ _ (multiplicativeExpression f)
                   (multiplicativeExpression f) f).
    + now apply (left_assoc_level_congr _ _ (factor f)
                   (factor f) f).
    + now apply factor_congr.
Qed.

Lemma parse_expression_tokens s p s' :
  @parse_expression _ rd s = Ok p s' -> tokens s' = tokens s.
Proof.
  unfold parse_expression. intros He.
  exact (built_tokens _ _ _ _ (cb_expression _ (@cascade_sound _ rd _)) He).
Qed.

Lemma parse_loop_congr : forall fuel statements statementLine s,
  agree rd rd' (tokens s) ->
  @parse_loop _ rd fuel statements statementLine s
  = @parse_loop _ rd' fuel statements statementLine s.
Proof.
  induction fuel as [|fuel IH]; intros statements statementLine s Hag; [reflexivity|].
  cbn [parse_loop]. apply bind_congr; [reflexivity|]. intros tok s0 Hc.
  apply currentToken_In in Hc as [-> _].
  destruct (negb _); [|reflexivity].
  apply bind_congr.
  { apply try_catch_congr. unfold parse_expression.
    now apply (cs_expression _ _ _ (cascade_congr _)). }
  intros stmt s1 He.
  assert (Ht1 : tokens s1 = tokens s).
  { unfold try_catch in He.
    destruct (parse_expression s) as [p s'| e s' | |] eqn:Hp; try discriminate.
    - injection He as <- <-. now apply parse_expression_tokens in Hp.
    - unfold parse_handler, bind in He.
      repeat match type of He with
             | match ?x with _ => _ end = _ => destruct x; try discriminate
             end. }
  apply bind_congr; [reflexivity|]. intros cur s0 Hc.
  apply currentToken_In in Hc as [-> _].
  destruct (_ || _); [|reflexivity].
  apply IH. now rewrite Ht1.
Qed.

(** The answer of [parse] depends on the reader of literals only through
    the texts of the NUMBER tokens. *)
Lemma parse_congr s :
  agree rd rd' (tokens s) -> @parse _ rd s = @parse _ rd' s.
Proof.
  intros Hag. unfold parse. apply bind_congr; [reflexivity|]. intros tok s0 Hc.
  apply currentToken_In in Hc as [-> _]. now apply parse_loop_congr.
Qed.


(** A reader agrees with the table of what it reads. *)
Lemma agree_table (table : list (string * option double)) toks :
  Forall (fun '(t, r) => @stod _ rd t = r) table ->
  covers table toks = true ->
  agree rd (table_stod table) toks.
Proof.
  intros Htab Hall tok Hin Hty.
  unfold covers in Hall. rewrite forallb_forall in Hall. specialize (Hall tok Hin).
  rewrite Hty in Hall. cbn in Hall.
  change (rd (Token.value tok) = table_stod table (Token.value tok)).
  clear Hin Hty. induction Htab as [|[t w] table Htw _ IH]; [discriminate|].
  cbn in Hall |- *. destruct (String.eqb t (Token.value tok)) eqn:E.
  - apply String.eqb_eq in E. rewrite <- E. exact Htw.
  - now apply IH.
Qed.

End TwoReaders.
End Congruence.

(** ** The claims of the specification *)

Module Claims.
Section WithNumeric.
Context {num : Numeric} {rd : Stod}.
Import InfixParser Ownership ParserFacts ParseFacts Reading Congruence.
Local Open Scope list_scope.

(** Running [parse] with the table of the literals of the text in place
    of the reader. *)
Lemma parse_table (table : list (string * option double)) toks h :
  Forall (fun '(t, r) => stod t = r) table ->
  covers table toks = true ->
  parse (init toks h) = @parse _ (table_stod table) (init toks h).
Proof. intros Htab Hall. apply parse_congr, agree_table; assumption. Qed.

(** C9. When [factor] has consumed a left parenthesis and a
    subexpression and the token that follows is not a right parenthesis,
    it throws the error whose message carries the line, the column and
    the text of that token, and the store is again the one [factor]
    started in: the subexpression has been torn down.  On the text
    "(1 + 2" that token is the END token of line 1, column 7, not the
    parenthesis of column 1, and [parse] leaves an empty store. *)
Theorem unmatched_parenthesis :
  (forall f s tok node s2 cur,
      tokens s !! currentTokenIndex s = Some tok ->
      Token.type tok = TokenType.LEFT_PAREN ->
      expression f (set_index (S (currentTokenIndex s))
                              (set_parens (unmatchedParentheses s + 1) s)) = Ok node s2 ->
      tokens s2 !! currentTokenIndex s2 = Some cur ->
      Token.type cur <> TokenType.RIGHT_PAREN ->
      exists s', factor (S f) s = Throw (runtime_error (unexpected_token cur)) s'
                 /\ heap s' = heap s)
  /\ (forall v1 v2, stod "1" = Some v1 -> stod "2" = Some v2 ->
      exists s',
        tokens_of "(1 + 2" !! 0%nat = Some (tok TokenType.LEFT_PAREN "(" 1)
        /\ last (tokens_of "(1 + 2") = Some (tok TokenType.UNKNOWN "END" 7)
        /\ parse (init (tokens_of "(1 + 2") ∅)
           = Throw (runtime_error (message "Unexpected token at line 1 column 7: END")) s'
        /\ heap s' = ∅).
Proof.
  split.
  - intros f s tok node s2 cur Hlk Hty He Hlk2 Hcur.
    destruct (cb_expression f (cascade_sound f) (set_index (S (currentTokenIndex s))
                (set_parens (unmatchedParentheses s + 1) s))) as [Hs _].
    rewrite He in Hs. destruct Hs as (a & hf & -> & Ho & Hd & Hh & _).
    cbn [heap set_index set_parens] in Hd, Hh.
    destruct (clearTree_owns hf a (heap s) s2 Ho Hd Hh) as (tr & Hct & _).
    exists (set_store (heap s) (trace s2 ++ tr) s2). split; [|reflexivity].
    cbn [factor].
    rewrite (bind_Ok _ _ _ _ _ (currentToken_Some _ _ Hlk)), Hty.
    rewrite bind_Ok with (a := tt) (s' := set_parens (unmatchedParentheses s + 1) s)
      by reflexivity.
    rewrite bind_Ok with (a := tt)
      (s' := set_index (S (currentTokenIndex s)) (set_parens (unmatchedParentheses s + 1) s))
      by reflexivity.
    rewrite (bind_Ok _ _ _ _ _ (try_catch_Ok _ _ _ _ _ He)).
    rewrite (bind_Ok _ _ _ _ _ (currentToken_Some _ _ Hlk2)).
    apply TokenTypeFacts.eqb_neq in Hcur. unfold is_type. rewrite Hcur. cbn [negb].
    rewrite (bind_Ok _ _ _ _ _ Hct).
    now rewrite (bind_Ok _ _ _ _ _ (clearTree_null _)).
  - intros v1 v2 H1 H2.
    rewrite (parse_table [("1", Some v1); ("2", Some v2)]);
      [| repeat constructor; assumption | reflexivity].
    eexists. split; [reflexivity|]. split; [reflexivity|].
    split; [vm_compute; reflexivity | reflexivity].
Qed.


(** C8. When the left operand of [=] is a node that is not an IDENTIFIER,
    [assignmentExpression] throws the error whose message carries the
    line, the column and the text of the [=] token; the store is the one
    the call started in (the left operand has been torn down), and no
    node is allocated after the left operand: the ASSIGN node never
    exists.  On the tokens of "5 = 3" the only allocation is the NUMBER
    node of 5. *)
Theorem assignment_to_non_identifier :
  (forall f s a s1 op nd,
      logicalOrExpression f s = Ok (Some a) s1 ->
      tokens s1 !! currentTokenIndex s1 = Some op ->
      Token.type op = TokenType.ASSIGN ->
      heap s1 !! a = Some nd ->
      Node.type nd <> NodeType.IDENTIFIER ->
      exists s', assignmentExpression (S f) s
                 = Throw (runtime_error (unexpected_token op)) s'
                 /\ heap s' = heap s
                 /\ allocations (trace s') = allocations (trace s1))
  /\ (forall v5, stod "5" = Some v5 ->
      exists s',
        parse (init tokens_5_3 ∅)
        = Throw (runtime_error (message "Unexpected token at line 1 column 3: =")) s'
        /\ heap s' = ∅
        /\ allocations (trace s') = [EvNew 0%nat NodeType.NUMBER]).
Proof.
  split.
  - intros f s a s1 op nd Hl Hlk Hty Hnd Hnot.
    destruct (cb_logicalOr f (cascade_sound f) s) as [Hs _].
    rewrite Hl in Hs. destruct Hs as (a' & hf & [= <-] & Ho & Hd & Hh & _).
    destruct (clearTree_owns hf a (heap s) s1 Ho Hd Hh) as (tr & Hct & Hdel).
    exists (set_store (heap s) (trace s1 ++ tr) s1). split; [|split; [reflexivity|]].
    + cbn [assignmentExpression].
      rewrite (bind_Ok _ _ _ _ _ Hl).
      rewrite (bind_Ok _ _ _ _ _ (currentToken_Some _ _ Hlk)).
      unfold is_type. rewrite Hty. cbn [TokenType.eqb].
      rewrite (bind_Ok _ _ _ _ _ (load_Some _ _ _ Hnd)).
      destruct (NodeType.eqb (Node.type nd) NodeType.IDENTIFIER) eqn:E.
      { destruct (Node.type nd); discriminate || congruence. }
      cbn [negb]. rewrite (bind_Ok _ _ _ _ _ Hct). unfold teardown.
      rewrite (bind_Ok _ _ _ _ _ (clearTree_null _)).
      now rewrite (bind_Ok _ _ _ _ _ (clearTree_null _)).
    + cbn [trace set_store]. unfold allocations in *.
      rewrite List.filter_app. unfold deletes_only, allocations in Hdel.
      rewrite Hdel. apply app_nil_r.
  - intros v5 H5.
    rewrite (parse_table [("5", Some v5); ("3", stod "3")]);
      [| repeat constructor; assumption | reflexivity].
    eexists. split; [vm_compute; reflexivity|]. split; reflexivity.
Qed.

(** One turn of the loop of a left-associative level. *)
Lemma left_assoc_loop_turn is_op node_type (operand : M ptr) fuel node s op right s1 :
  tokens s !! currentTokenIndex s = Some op ->
  is_op (Token.type op) = true ->
  operand (set_index (S (currentTokenIndex s)) s) = Ok right s1 ->
  let a := fresh (dom (heap s1)) in
  let ty := node_type (Token.type op) in
  left_assoc_loop is_op node_type operand (S fuel) node s
  = left_assoc_loop is_op node_type operand fuel (Some a)
      (set_store (<[a := Node.mk ty (double_of_int 0) "" [node; right]]> (heap s1))
                 (trace s1 ++ [EvNew a ty]) s1).
Proof.
  intros Hlk Hop Hr a ty. cbn [left_assoc_loop].
  rewrite (bind_Ok _ _ _ _ _ (currentToken_Some _ _ Hlk)), Hop.
  rewrite bind_Ok with (a := tt) (s' := set_index (S (currentTokenIndex s)) s) by reflexivity.
  rewrite (bind_Ok _ _ _ _ _ (try_catch_Ok _ _ _ _ _ Hr)).
  now rewrite new_binary.
Qed.

(** Two operators of one left-associative level between three
    identifiers. *)
Lemma three_operands (op1 op2 sentinel : Token.t) k n1 n2 x y z lx cx ly cy lz cz :
  level_of (Token.type op1) = Some k ->
  level_of (Token.type op2) = Some k ->
  node_of (Token.type op1) = Some n1 ->
  node_of (Token.type op2) = Some n2 ->
  Token.type sentinel = TokenType.UNKNOWN ->
  expression_tree [identifier x lx cx; op1; identifier y ly cy; op2;
                   identifier z lz cz; sentinel]
  = Some (binary n2
            (binary n1 (leaf NodeType.IDENTIFIER (double_of_int 0) x)
                       (leaf NodeType.IDENTIFIER (double_of_int 0) y))
            (leaf NodeType.IDENTIFIER (double_of_int 0) z)).
Proof.
  destruct op1 as [t1 v1 l1 c1], op2 as [t2 v2 l2 c2], sentinel as [t3 v3 l3 c3].
  cbn [Token.type]. intros H1 H2 N1 N2 ->.
  destruct t1; try discriminate H1; destruct t2; try discriminate H2;
    injection H1 as <-; try discriminate H2;
    injection N1 as <-; injection N2 as <-; vm_compute; reflexivity.
Qed.

(** C5. A turn of the loop of a left-associative level, on an operator
    of the level followed by an operand: the loop goes on with a new node
    whose first child is the node built so far and whose second child is
    the operand.  So, for two operators of one left-associative level
    between three operands (identifiers here), [expression] builds the
    node of the second operator over the node of the first and the third
    operand.  On the text "8 - 3 - 2" [parse] answers the one tree
    SUBTRACT(SUBTRACT(NUMBER 8, NUMBER 3), NUMBER 2). *)
Theorem left_associative_levels :
  (forall is_op node_type (operand : M ptr) fuel node s op right s1,
      tokens s !! currentTokenIndex s = Some op ->
      is_op (Token.type op) = true ->
      operand (set_index (S (currentTokenIndex s)) s) = Ok right s1 ->
      exists a s2,
        left_assoc_loop is_op node_type operand (S fuel) node s
        = left_assoc_loop is_op node_type operand fuel (Some a) s2
        /\ heap s1 !! a = None
        /\ heap s2 = <[a := Node.mk (node_type (Token.type op)) (double_of_int 0) ""
                                     [node; right]]> (heap s1))
  /\ (forall (op1 op2 sentinel : Token.t) k n1 n2 x y z lx cx ly cy lz cz,
      level_of (Token.type op1) = Some k ->
      level_of (Token.type op2) = Some k ->
      node_of (Token.type op1) = Some n1 ->
      node_of (Token.type op2) = Some n2 ->
      Token.type sentinel = TokenType.UNKNOWN ->
      expression_tree [identifier x lx cx; op1; identifier y ly cy; op2;
                       identifier z lz cz; sentinel]
      = Some (binary n2
                (binary n1 (leaf NodeType.IDENTIFIER (double_of_int 0) x)
                           (leaf NodeType.IDENTIFIER (double_of_int 0) y))
                (leaf NodeType.IDENTIFIER (double_of_int 0) z)))
  /\ (forall v8 v3 v2,
      stod "8" = Some v8 -> stod "3" = Some v3 -> stod "2" = Some v2 ->
      statements_of (parse (init (tokens_of "8 - 3 - 2") ∅))
      = Some [binary NodeType.SUBTRACT
                (binary NodeType.SUBTRACT (leaf NodeType.NUMBER v8 "")
                                          (leaf NodeType.NUMBER v3 ""))
                (leaf NodeType.NUMBER v2 "")]).
Proof.
  split; [|split].
  - intros is_op node_type operand fuel node s op right s1 Hlk Hop Hr.
    eexists _, _. split; [apply left_assoc_loop_turn; eassumption|].
    split; [apply fresh_None | reflexivity].
  - intros. eapply three_operands; eassumption.
  - intros v8 v3 v2 H8 H3 H2.
    rewrite (parse_table [("8", Some v8); ("3", Some v3); ("2", Some v2)]);
      [| repeat constructor; assumption | reflexivity].
    vm_compute. reflexivity.
Qed.

(** C6. When the left operand of [=] is an IDENTIFIER node,
    [assignmentExpression] calls itself for what follows the [=] and then
    allocates the ASSIGN node over the identifier and that right-hand
    side.  On the tokens of "a = b = 5" [parse] answers the one tree
    ASSIGN(IDENTIFIER a, ASSIGN(IDENTIFIER b, NUMBER 5)). *)
Theorem assignment_right_associative :
  (forall f s a s1 op nd valueNode s2,
      logicalOrExpression f s = Ok (Some a) s1 ->
      tokens s1 !! currentTokenIndex s1 = Some op ->
      Token.type op = TokenType.ASSIGN ->
      heap s1 !! a = Some nd ->
      Node.type nd = NodeType.IDENTIFIER ->
      assignmentExpression f (set_index (S (currentTokenIndex s1)) s1) = Ok valueNode s2 ->
      exists a' s',
        assignmentExpression (S f) s = Ok (Some a') s'
        /\ heap s2 !! a' = None
        /\ heap s' = <[a' := Node.mk NodeType.ASSIGN (double_of_int 0) ""
                                     [Some a; valueNode]]> (heap s2))
  /\ (forall v5, stod "5" = Some v5 ->
      statements_of (parse (init tokens_a_b_5 ∅))
      = Some [binary NodeType.ASSIGN
                (leaf NodeType.IDENTIFIER (double_of_int 0) "a")
                (binary NodeType.ASSIGN
                   (leaf NodeType.IDENTIFIER (double_of_int 0) "b")
                   (leaf NodeType.NUMBER v5 ""))]).
Proof.
  split.
  - intros f s a s1 op nd valueNode s2 Hl Hlk Hty Hnd Hid Hv.
    exists (fresh (dom (heap s2))),
           (set_store (<[fresh (dom (heap s2)) :=
                           Node.mk NodeType.ASSIGN (double_of_int 0) ""
                                   [Some a; valueNode]]> (heap s2))
                      (trace s2 ++ [EvNew (fresh (dom (heap s2))) NodeType.ASSIGN]) s2).
    split; [|split; [apply fresh_None | reflexivity]].
    cbn [assignmentExpression].
    rewrite (bind_Ok _ _ _ _ _ Hl).
    rewrite (bind_Ok _ _ _ _ _ (currentToken_Some _ _ Hlk)).
    unfold is_type. rewrite Hty. cbn [TokenType.eqb].
    rewrite (bind_Ok _ _ _ _ _ (load_Some _ _ _ Hnd)), Hid. cbn [NodeType.eqb negb].
    rewrite bind_Ok with (a := tt) (s' := set_index (S (currentTokenIndex s1)) s1)
      by reflexivity.
    rewrite (bind_Ok _ _ _ _ _ (try_catch_Ok _ _ _ _ _ Hv)).
    rewrite new_binary. reflexivity.
  - intros v5 H5.
    rewrite (parse_table [("5", Some v5)]);
      [| repeat constructor; assumption | reflexivity].
    vm_compute. reflexivity.
Qed.

(** C7. [additiveExpression] takes its first operand and every operand
    of its loop from [multiplicativeExpression].  On the text "1 + 2 * 3"
    [parse] answers the one tree
    ADD(NUMBER 1, MULTIPLY(NUMBER 2, NUMBER 3)). *)
Theorem multiplication_binds_tighter :
  (forall f,
      additiveExpression (S f)
      = bind (multiplicativeExpression f)
             (left_assoc_loop
                (fun ty => is_type TokenType.ADD ty || is_type TokenType.SUBTRACT ty)
                (fun ty => if is_type TokenType.ADD ty
                           then NodeType.ADD else NodeType.SUBTRACT)
                (multiplicativeExpression f) f))
  /\ (forall v1 v2 v3,
      stod "1" = Some v1 -> stod "2" = Some v2 -> stod "3" = Some v3 ->
      statements_of (parse (init (tokens_of "1 + 2 * 3") ∅))
      = Some [binary NodeType.ADD
                (leaf NodeType.NUMBER v1 "")
                (binary NodeType.MULTIPLY (leaf NodeType.NUMBER v2 "")
                                          (leaf NodeType.NUMBER v3 ""))]).
Proof.
  split; [reflexivity|].
  intros v1 v2 v3 H1 H2 H3.
  rewrite (parse_table [("1", Some v1); ("2", Some v2); ("3", Some v3)]);
    [| repeat constructor; assumption | reflexivity].
  vm_compute. reflexivity.
Qed.

(** C1, on the code.  In the loop of [parse], when the statement just
    parsed is followed on its line by a token that is not the UNKNOWN
    sentinel, [parse] throws the error for that token; the statements
    parsed before have been torn down, and the tree of the statement just
    parsed is still in the store: its root is allocated after the throw
    and was not in the store before.  On "1 2" the NUMBER node of 1 is
    left; on the two lines "1" and "2 1" the NUMBER node of 2 is. *)
Theorem parse_leftover_leaks :
  (forall fuel statements statementLine hs h0 s t stmt s1 cur,
      owns_all statements hs -> hs ##ₘ h0 -> heap s = hs ∪ h0 -> root s = nullptr ->
      tokens s !! currentTokenIndex s = Some t ->
      Token.type t <> TokenType.UNKNOWN ->
      parse_expression s = Ok stmt s1 ->
      tokens s1 !! currentTokenIndex s1 = Some cur ->
      Token.type cur <> TokenType.UNKNOWN ->
      (Token.line cur <= statementLine)%Z ->
      exists a hf s',
        stmt = Some a /\ owns hf a
        /\ parse_loop (S fuel) statements statementLine s
           = Throw (runtime_error (unexpected_token cur)) s'
        /\ heap s' = hf ∪ h0
        /\ is_Some (heap s' !! a) /\ heap s !! a = None)
  /\ (forall v1 v2, stod "1" = Some v1 -> stod "2" = Some v2 ->
      (exists s',
          parse (init (tokens_of "1 2") ∅)
          = Throw (runtime_error (message "Unexpected token at line 1 column 3: 2")) s'
          /\ heap s' = {[0%nat := Node.new2 NodeType.NUMBER v1]})
      /\ (exists s',
          parse (init (tokens_of ("1" ++ String Lexer.newline "2 1")) ∅)
          = Throw (runtime_error (message "Unexpected token at line 2 column 3: 1")) s'
          /\ heap s' = {[1%nat := Node.new2 NodeType.NUMBER v2]})).
Proof.
  split.
  - intros fuel statements statementLine hs h0 s t stmt s1 cur
           Hps Hdis Hh Hroot Hlk Hty He Hlk1 Hcur Hline.
    destruct (parse_loop_leftover fuel statements statementLine hs h0 s t stmt s1 cur)
      as (a & hf & s' & -> & Ho & Hd & Hp & Hh'); auto.
    exists a, hf, s'. split; [reflexivity|]. split; [exact Ho|]. split; [exact Hp|].
    split; [exact Hh'|]. destruct (owns_root hf a Ho) as (n & Hn). split.
    + exists n. rewrite Hh'. now apply lookup_union_Some_l.
    + eapply map_disjoint_Some_l; [exact Hd | exact Hn].
  - intros v1 v2 H1 H2. split.
    + rewrite (parse_table [("1", Some v1); ("2", Some v2)]);
        [| repeat constructor; assumption | reflexivity].
      eexists. split; [vm_compute; reflexivity | reflexivity].
    + rewrite (parse_table [("1", Some v1); ("2", Some v2)]);
        [| repeat constructor; assumption | reflexivity].
      eexists. split; [vm_compute; reflexivity | reflexivity].
Qed.

(** The five tokens of [a = b = 5] alone, without the END token: after
    the last one the parser reads past the end of the vector. *)
Lemma parse_without_sentinel v5 :
  stod "5" = Some v5 ->
  parse (init (removelast tokens_a_b_5) ∅) = Undefined OutOfRange.
Proof.
  intros H5.
  rewrite (parse_table [("5", Some v5)]);
    [| repeat constructor; assumption | reflexivity].
  vm_compute. reflexivity.
Qed.

(** [factor] on a token it has no branch for. *)
Lemma factor_unknown f s tok :
  tokens s !! currentTokenIndex s = Some tok ->
  Token.type tok = TokenType.UNKNOWN ->
  factor (S f) s = Throw (runtime_error (unexpected_token tok)) s.
Proof.
  intros Hlk Hty. cbn [factor].
  rewrite (bind_Ok _ _ _ _ _ (currentToken_Some _ _ Hlk)), Hty.
  now rewrite (bind_Ok _ _ _ _ _ (clearTree_null _)).
Qed.

(** C3, as amended.  [number] answers UNKNOWN as soon as it has read a
    second dot, with the text read so far, that dot included, and leaves
    the rest in the stream.  The tokens of "1.2.3" are UNKNOWN "1.2.",
    NUMBER "3" and the END token.  [factor], called on that UNKNOWN
    token, throws the error whose message names line 1, column 1 and the
    text "1.2.", and changes nothing. *)
Theorem malformed_number_tokens :
  (forall rest ln cl startCol num,
      Lexer.number_loop (String "." rest) ln cl startCol num true
      = (Token.mk TokenType.UNKNOWN (Lexer.push_char num ".") ln startCol,
         Lexer.mk rest ln (cl + 1)))
  /\ Lexer.tokenize "1.2.3"
     = Some ([tok TokenType.UNKNOWN "1.2." 1; tok TokenType.NUMBER "3" 5;
              tok TokenType.UNKNOWN "END" 6], Lexer.mk "" 1 6)
  /\ (forall f h,
      factor (S f) (init (tokens_of "1.2.3") h)
      = Throw (runtime_error (message "Unexpected token at line 1 column 1: 1.2."))
              (init (tokens_of "1.2.3") h)).
Proof.
  split; [reflexivity|]. split; [reflexivity|].
  intros f h. now rewrite (factor_unknown f _ (tok TokenType.UNKNOWN "1.2." 1)).
Qed.

(** [parse] on the tokens of "1.2.3": the UNKNOWN token at the head of the
    vector is taken for the end of the input, and no error is raised. *)
Lemma parse_malformed_number h :
  parse (init (tokens_of "1.2.3") h) = Ok [] (init (tokens_of "1.2.3") h).
Proof. reflexivity. Qed.

End WithNumeric.

(** C3, as stated, fails: the tokens of "1.2.3" are not one token and
    an END token, and none of them has the text "1.2.3". *)
Lemma malformed_number_is_not_one_token :
  ~ (exists t sentinel lx, Lexer.tokenize "1.2.3" = Some ([t; sentinel], lx))
  /\ ~ (exists toks lx t, Lexer.tokenize "1.2.3" = Some (toks, lx)
                          /\ In t toks /\ Token.value t = "1.2.3").
Proof.
  split.
  - intros (t & sentinel & lx & Ht). vm_compute in Ht. discriminate.
  - intros (toks & lx & t & Ht & Hin & Hv). vm_compute in Ht.
    injection Ht as <- _. cbn in Hin.
    repeat (destruct Hin as [<- | Hin]; [discriminate|]). destruct Hin.
Qed.

(** The theorems above, on the reader of decimal literals and on the
    texts of the claims. *)
Section Witnesses.
Import InfixParser Ownership Reading Decimal.
Local Open Scope list_scope.

Lemma unmatched_parenthesis_witness :
  (exists s', factor 30 (init (tokens_of "(1 + 2") ∅)
              = Throw (runtime_error (unexpected_token (tok TokenType.UNKNOWN "END" 7))) s'
              /\ heap s' = ∅)
  /\ (exists s',
        tokens_of "(1 + 2" !! 0%nat = Some (tok TokenType.LEFT_PAREN "(" 1)
        /\ last (tokens_of "(1 + 2") = Some (tok TokenType.UNKNOWN "END" 7)
        /\ parse (init (tokens_of "(1 + 2") ∅)
           = Throw (runtime_error (message "Unexpected token at line 1 column 7: END")) s'
        /\ heap s' = ∅).
Proof.
  split.
  - eapply (proj1 (@unmatched_parenthesis Decimal.numeric Decimal.reader) 29%nat
                  (init (tokens_of "(1 + 2") ∅) (tok TokenType.LEFT_PAREN "(" 1)).
    + reflexivity.
    + reflexivity.
    + vm_compute. reflexivity.
    + reflexivity.
    + discriminate.
  - apply (proj2 (@unmatched_parenthesis Decimal.numeric Decimal.reader)
                 (Decimal.mk 1 0) (Decimal.mk 2 0)); reflexivity.
Defined.

Lemma assignment_to_non_identifier_witness :
  (exists s', assignmentExpression 30 (init tokens_5_3 ∅)
              = Throw (runtime_error (unexpected_token (tok TokenType.ASSIGN "=" 3))) s'
              /\ heap s' = ∅
              /\ allocations (trace s') = [EvNew 0%nat NodeType.NUMBER])
  /\ (exists s',
        parse (init tokens_5_3 ∅)
        = Throw (runtime_error (message "Unexpected token at line 1 column 3: =")) s'
        /\ heap s' = ∅
        /\ allocations (trace s') = [EvNew 0%nat NodeType.NUMBER]).
Proof.
  split.
  - edestruct (proj1 (@assignment_to_non_identifier Decimal.numeric Decimal.reader)
                 29%nat (init tokens_5_3 ∅) 0%nat)
      as (s' & He & Hh & Ha).
    + vm_compute. reflexivity.
    + reflexivity.
    + reflexivity.
    + reflexivity.
    + discriminate.
    + exists s'. split; [exact He | split; [exact Hh | exact Ha]].
  - apply (proj2 (@assignment_to_non_identifier Decimal.numeric Decimal.reader)
                 (Decimal.mk 5 0)); reflexivity.
Defined.

Lemma left_associative_levels_witness :
  (let s := after (multiplicativeExpression 29 (init (tokens_of "8 - 3 - 2") ∅))
                  (init [] ∅) in
   exists a s2,
     left_assoc_loop additive_op additive_node (multiplicativeExpression 29) 30
                     (Some 0%nat) s
     = left_assoc_loop additive_op additive_node (multiplicativeExpression 29) 29
                       (Some a) s2
     /\ heap s2 !! a = Some (Node.mk NodeType.SUBTRACT (double_of_int 0) ""
                                     [Some 0%nat; Some 1%nat]))
  /\ expression_tree [identifier "a" 1 1; tok TokenType.LESS "<" 3;
                      identifier "b" 1 5; tok TokenType.GREATER_EQUAL ">=" 7;
                      identifier "c" 1 10; tok TokenType.UNKNOWN "END" 11]
     = Some (binary NodeType.GREATER_EQUAL
               (binary NodeType.LESS_THAN
                  (leaf NodeType.IDENTIFIER (double_of_int 0) "a")
                  (leaf NodeType.IDENTIFIER (double_of_int 0) "b"))
               (leaf NodeType.IDENTIFIER (double_of_int 0) "c"))
  /\ statements_of (parse (init (tokens_of "8 - 3 - 2") ∅))
     = Some [binary NodeType.SUBTRACT
               (binary NodeType.SUBTRACT
                  (leaf NodeType.NUMBER (Decimal.mk 8 0) "")
                  (leaf NodeType.NUMBER (Decimal.mk 3 0) ""))
               (leaf NodeType.NUMBER (Decimal.mk 2 0) "")].
Proof.
  split; [|split].
  - intros s.
    edestruct (proj1 (@left_associative_levels Decimal.numeric Decimal.reader)
                 additive_op additive_node (multiplicativeExpression 29) 29%nat
                 (Some 0%nat) s (tok TokenType.SUBTRACT "-" 3))
      as (a & s2 & Hl & _ & Hh).
    + vm_compute. reflexivity.
    + reflexivity.
    + vm_compute. reflexivity.
    + exists a, s2. split; [exact Hl|]. rewrite Hh. apply lookup_insert_eq.
  - apply (proj1 (proj2 (@left_associative_levels Decimal.numeric Decimal.reader))
             (tok TokenType.LESS "<" 3) (tok TokenType.GREATER_EQUAL ">=" 7)
             (tok TokenType.UNKNOWN "END" 11) 5%nat); reflexivity.
  - apply (proj2 (proj2 (@left_associative_levels Decimal.numeric Decimal.reader)));
      reflexivity.
Defined.

Lemma assignment_right_associative_witness :
  (exists a' s',
     assignmentExpression 30 (init tokens_a_b_5 ∅) = Ok (Some a') s'
     /\ heap s' !! a' = Some (Node.mk NodeType.ASSIGN (double_of_int 0) ""
                                      [Some 0%nat; Some 3%nat]))
  /\ statements_of (parse (init tokens_a_b_5 ∅))
     = Some [binary NodeType.ASSIGN
               (leaf NodeType.IDENTIFIER (double_of_int 0) "a")
               (binary NodeType.ASSIGN
                  (leaf NodeType.IDENTIFIER (double_of_int 0) "b")
                  (leaf NodeType.NUMBER (Decimal.mk 5 0) ""))].
Proof.
  split.
  - edestruct (proj1 (@assignment_right_associative Decimal.numeric Decimal.reader)
                 29%nat (init tokens_a_b_5 ∅) 0%nat)
      as (a' & s' & He & _ & Hh).
    + vm_compute. reflexivity.
    + reflexivity.
    + reflexivity.
    + reflexivity.
    + reflexivity.
    + vm_compute. reflexivity.
    + exists a', s'. split; [exact He|]. rewrite Hh. apply lookup_insert_eq.
  - apply (proj2 (@assignment_right_associative Decimal.numeric Decimal.reader)); reflexivity.
Defined.

Lemma multiplication_binds_tighter_witness :
  statements_of (parse (init (tokens_of "1 + 2 * 3") ∅))
  = Some [binary NodeType.ADD
            (leaf NodeType.NUMBER (Decimal.mk 1 0) "")
            (binary NodeType.MULTIPLY (leaf NodeType.NUMBER (Decimal.mk 2 0) "")
                                      (leaf NodeType.NUMBER (Decimal.mk 3 0) ""))].
Proof.
  apply (proj2 (@multiplication_binds_tighter Decimal.numeric Decimal.reader)); reflexivity.
Defined.

Lemma parse_leftover_leaks_witness :
  (exists s',
      parse_loop 4 [] 1 (init (tokens_of "1 2") ∅)
      = Throw (runtime_error (unexpected_token (tok TokenType.NUMBER "2" 3))) s'
      /\ is_Some (heap s' !! 0%nat))
  /\ exists s',
      parse (init (tokens_of "1 2") ∅)
      = Throw (runtime_error (message "Unexpected token at line 1 column 3: 2")) s'
      /\ heap s' = {[0%nat := Node.new2 NodeType.NUMBER (Decimal.mk 1 0)]}.
Proof.
  split.
  - edestruct (proj1 (@parse_leftover_leaks Decimal.numeric Decimal.reader)
                 3%nat [] 1%Z ∅ ∅ (init (tokens_of "1 2") ∅)
                 (tok TokenType.NUMBER "1" 1))
      as (a & hf & s' & Hs & _ & Hp & _ & Hlive & _).
    + constructor.
    + apply map_disjoint_empty_l.
    + reflexivity.
    + reflexivity.
    + reflexivity.
    + discriminate.
    + vm_compute. reflexivity.
    + reflexivity.
    + discriminate.
    + cbn. lia.
    + exists s'. injection Hs as <-. split; [exact Hp | exact Hlive].
  - apply (proj2 (@parse_leftover_leaks Decimal.numeric Decimal.reader)
                 (Decimal.mk 1 0) (Decimal.mk 2 0)); reflexivity.
Defined.

Lemma tokenize_stops_at_unrecognized_witness :
  exists t lx',
    Lexer.tokenize "1 + @ 2"
    = Some ([tok TokenType.NUMBER "1" 1; tok TokenType.ADD "+" 3; t], lx')
    /\ Token.type t = TokenType.UNKNOWN
    /\ Token.value t = "@"
    /\ Lexer.inputStream lx' = " 2".
Proof.
  apply (LexerFacts.tokenize_stops_at_unrecognized "1 + @ 2" (Lexer.mk "@ 2" 1 5)
           [tok TokenType.NUMBER "1" 1; tok TokenType.ADD "+" 3] "@" " 2").
  - eapply Lexer.head_next;
      [eapply Lexer.head_next;
       [eapply Lexer.head_next;
        [eapply Lexer.head_next; [apply Lexer.head_first | reflexivity]
        | reflexivity]
       | reflexivity]
      | reflexivity].
  - reflexivity.
  - reflexivity.
Defined.

Lemma unrecognized_column_off_by_one_witness :
  Lexer.text_column "1 + " = 5
  /\ exists pre t lx',
      "1 + @ 2" = (pre ++ "@ 2")%string
      /\ Lexer.tokenize "1 + @ 2"
         = Some ([tok TokenType.NUMBER "1" 1; tok TokenType.ADD "+" 3; t], lx')
      /\ Token.type t = TokenType.UNKNOWN
      /\ Token.line t = Lexer.text_line pre
      /\ Token.column t = Lexer.text_column pre + 1
      /\ unexpected_token t
         = ("Unexpected token at line " ++ to_string (Lexer.text_line pre)
            ++ " column " ++ to_string (Lexer.text_column pre + 1)
            ++ ": " ++ "@" ++ String Lexer.newline "")%string.
Proof.
  split; [reflexivity|].
  apply (LexerFacts.unrecognized_column_off_by_one "1 + @ 2" (Lexer.mk "@ 2" 1 5)
           [tok TokenType.NUMBER "1" 1; tok TokenType.ADD "+" 3] "@" " 2").
  - eapply Lexer.head_next;
      [eapply Lexer.head_next;
       [eapply Lexer.head_next;
        [eapply Lexer.head_next; [apply Lexer.head_first | reflexivity]
        | reflexivity]
       | reflexivity]
      | reflexivity].
  - reflexivity.
  - reflexivity.
Defined.
End Witnesses.
End Claims.

(** ** Properties of the token vector *)

Module TokenStreamFacts.
Import Lexer LexerFacts TokenStream.

Lemma strip_spaces_app a b : strip_spaces (a ++ b) = strip_spaces a ++ strip_spaces b.
Proof.
  induction a as [|c a IH]; [reflexivity|].
  rewrite app_cons. cbn [strip_spaces]. destruct (isspace c); [exact IH|].
  now rewrite app_cons, IH.
Qed.

Lemma texts_app a b : texts (a ++ b)%list = texts a ++ texts b.
Proof.
  induction a as [|t a IH]; [reflexivity|].
  cbn [texts app]. change ((t :: a) ++ b)%list with (t :: (a ++ b))%list.
  cbn [texts]. now rewrite IH, app_assoc.
Qed.

Lemma isDigit_not_space c : isDigit c = true -> isspace c = false.
Proof.
  destruct c as [[] [] [] [] [] [] [] []]; vm_compute; congruence.
Qed.

Lemma isDigit_not_newline c : isDigit c = true -> Ascii.eqb c newline = false.
Proof.
  destruct c as [[] [] [] [] [] [] [] []]; vm_compute; congruence.
Qed.

Lemma isOperator_not_space c : isOperator c = true -> isspace c = false.
Proof.
  destruct c as [[] [] [] [] [] [] [] []]; vm_compute; congruence.
Qed.

Lemma all_digits_strip s : all_digits_or_dots s = true -> strip_spaces s = s.
Proof.
  induction s as [|c r IH]; [reflexivity|]. cbn. intros Hd.
  apply andb_prop in Hd as [Hc Hr]. rewrite (isDigit_not_space c Hc). now rewrite IH.
Qed.

Lemma all_digits_push num c :
  all_digits_or_dots num = true -> isDigit c = true ->
  all_digits_or_dots (push_char num c) = true.
Proof.
  unfold push_char. induction num as [|d r IH]; intros Hn Hc.
  - change (all_digits_or_dots (String c "") = true). cbn. now rewrite Hc.
  - cbn in Hn. apply andb_prop in Hn as [Hd Hr]. rewrite app_cons. cbn.
    now rewrite Hd, IH.
Qed.

Lemma count_dots_push num c :
  count_dots (push_char num c)
  = (count_dots num + if Ascii.eqb c "." then 1 else 0)%nat.
Proof.
  unfold push_char. induction num as [|d r IH].
  - change (count_dots (String c "")
            = (0 + if Ascii.eqb c "." then 1 else 0)%nat). cbn. lia.
  - rewrite app_cons. cbn. rewrite IH. lia.
Qed.

Lemma push_char_nonempty num c : push_char num c <> "".
Proof. unfold push_char. destruct num; discriminate. Qed.

Lemma advance_digit c ln cl : isDigit c = true -> advance c ln cl = (ln, cl + 1).
Proof. intros Hd. unfold advance. now rewrite (isDigit_not_newline c Hd). Qed.

(** What [number_finish] makes of the characters collected. *)
Lemma number_finish_token num ln cl sc rest :
  let r := number_finish num ln cl sc rest in
  Token.value (fst r) = num /\ Token.line (fst r) = ln /\ Token.column (fst r) = sc
  /\ inputStream (snd r) = rest
  /\ lexical (Token.type (fst r)) = true
  /\ (Token.type (fst r) = TokenType.NUMBER ->
      is_dot (front num) = false /\ is_dot (back num) = false)
  /\ (Token.type (fst r) = TokenType.UNKNOWN ->
      is_dot (front num) = true \/ is_dot (back num) = true).
Proof.
  unfold number_finish.
  destruct (is_dot (front num)) eqn:Hf; [cbn; intuition discriminate|].
  destruct (is_dot (back num)) eqn:Hb; cbn; intuition discriminate.
Qed.

Lemma back_push num c : back (push_char num c) = Some c.
Proof.
  unfold push_char. induction num as [|d r IH]; [reflexivity|].
  rewrite app_cons. cbn [back]. rewrite IH.
  destruct (r ++ String c "") eqn:E; [|reflexivity].
  destruct r; discriminate.
Qed.

(** The token of [number]: its text is what was collected before followed
    by what the loop has read, all of it digits and dots, on the line and
    at the column the scan started from. *)
Lemma number_loop_token stream : forall ln cl sc num (dec : bool),
  all_digits_or_dots num = true ->
  count_dots num = (if dec then 1 else 0)%nat ->
  exists mid,
    let r := number_loop stream ln cl sc num dec in
    stream = mid ++ inputStream (snd r)
    /\ Token.value (fst r) = num ++ mid
    /\ all_digits_or_dots mid = true
    /\ Token.line (fst r) = ln /\ Token.column (fst r) = sc
    /\ lexical (Token.type (fst r)) = true
    /\ (Token.type (fst r) = TokenType.NUMBER ->
        (count_dots (num ++ mid) <= 1)%nat
        /\ is_dot (front (num ++ mid)) = false
        /\ is_dot (back (num ++ mid)) = false)
    /\ (Token.type (fst r) = TokenType.UNKNOWN ->
        is_dot (front (num ++ mid)) = true \/ is_dot (back (num ++ mid)) = true).
Proof.
  assert (Hfin : forall str ln cl sc num (dec : bool),
             all_digits_or_dots num = true ->
             count_dots num = (if dec then 1 else 0)%nat ->
             let r := number_finish num ln cl sc str in
             str = "" ++ inputStream (snd r)
             /\ Token.value (fst r) = num ++ ""
             /\ all_digits_or_dots "" = true
             /\ Token.line (fst r) = ln /\ Token.column (fst r) = sc
             /\ lexical (Token.type (fst r)) = true
             /\ (Token.type (fst r) = TokenType.NUMBER ->
                 (count_dots (num ++ "") <= 1)%nat
                 /\ is_dot (front (num ++ "")) = false
                 /\ is_dot (back (num ++ "")) = false)
             /\ (Token.type (fst r) = TokenType.UNKNOWN ->
                 is_dot (front (num ++ "")) = true
                 \/ is_dot (back (num ++ "")) = true)).
  { intros str ln cl sc num dec Hall Hdots.
    destruct (number_finish_token num ln cl sc str)
      as (Hv & Hl & Hc & Hs & Hk & Hn & Hu).
    cbv zeta. rewrite app_nil_r, Hv, Hl, Hc, Hs.
    split; [reflexivity|]. split; [reflexivity|]. split; [reflexivity|].
    split; [reflexivity|]. split; [reflexivity|]. split; [exact Hk|].
    split; [|exact Hu].
    intros Hty. split; [rewrite Hdots; destruct dec; lia | now apply Hn]. }
  induction stream as [|c rest IH]; intros ln cl sc num dec Hall Hdots.
  - exists "". cbn [number_loop]. now apply (Hfin "" ln cl sc num dec).
  - cbn [number_loop]. destruct (isDigit c) eqn:Hd.
    2:{ exists "". now apply (Hfin (String c rest) ln cl sc num dec). }
    rewrite (advance_digit c ln cl Hd).
    assert (Hrec : forall dec' : bool,
               count_dots (push_char num c) = (if dec' then 1 else 0)%nat ->
               exists mid,
                 let r := number_loop rest ln (cl + 1) sc (push_char num c) dec' in
                 String c rest = mid ++ inputStream (snd r)
                 /\ Token.value (fst r) = num ++ mid
                 /\ all_digits_or_dots mid = true
                 /\ Token.line (fst r) = ln /\ Token.column (fst r) = sc
                 /\ lexical (Token.type (fst r)) = true
                 /\ (Token.type (fst r) = TokenType.NUMBER ->
                     (count_dots (num ++ mid) <= 1)%nat
                     /\ is_dot (front (num ++ mid)) = false
                     /\ is_dot (back (num ++ mid)) = false)
                 /\ (Token.type (fst r) = TokenType.UNKNOWN ->
                     is_dot (front (num ++ mid)) = true
                     \/ is_dot (back (num ++ mid)) = true)).
    { intros dec' Hdots'.
      destruct (IH ln (cl + 1) sc (push_char num c) dec'
                  (all_digits_push num c Hall Hd) Hdots')
        as (mid & Hm & Hv & Ha & Hl & Hc & Hk & Hn & Hu).
      exists (String c mid). cbv zeta in *. rewrite push_char_app in Hv, Hn, Hu.
      split; [exact (f_equal (String c) Hm)|]. split; [exact Hv|].
      split; [cbn; now rewrite Hd, Ha|]. split; [exact Hl|]. split; [exact Hc|].
      split; [exact Hk|]. split; [exact Hn | exact Hu]. }
    pose proof (count_dots_push num c) as Hpush.
    destruct (Ascii.eqb c ".") eqn:Hdot.
    + destruct dec.
      * exists (String c ""). cbn [fst snd inputStream Token.value Token.line
                                     Token.column Token.type lexical].
        fold (push_char num c).
        split; [reflexivity|]. split; [reflexivity|].
        split; [cbn; now rewrite Hd|]. split; [reflexivity|]. split; [reflexivity|].
        split; [reflexivity|]. split; [discriminate|].
        intros _. right. rewrite back_push. cbn. exact Hdot.
      * apply Hrec. rewrite Hpush, Hdots. reflexivity.
    + apply Hrec. rewrite Hpush, Hdots. destruct dec; reflexivity.
Qed.

(** The token of [number], as [tokenize] calls it: on a stream that opens
    with a digit or a dot. *)
Lemma number_token lx c rest :
  inputStream lx = String c rest -> isDigit c = true ->
  exists mid,
    let r := number lx in
    inputStream lx = mid ++ inputStream (snd r)
    /\ mid <> ""
    /\ Token.value (fst r) = mid
    /\ all_digits_or_dots mid = true
    /\ Token.line (fst r) = line lx /\ Token.column (fst r) = col lx
    /\ lexical (Token.type (fst r)) = true
    /\ (Token.type (fst r) = TokenType.NUMBER -> numeric_literal mid)
    /\ (Token.type (fst r) = TokenType.UNKNOWN -> malformed_number mid).
Proof.
  intros Hs Hd. unfold number.
  destruct (number_loop_token (inputStream lx) (line lx) (col lx) (col lx) "" false
              eq_refl eq_refl) as (mid & Hm & Hv & Ha & Hl & Hc & Hk & Hn & Hu).
  destruct (number_loop_suffix (inputStream lx) (line lx) (col lx) (col lx) "" false)
    as (mid' & Hm' & _ & Hne).
  cbv zeta in *.
  assert (mid' = mid) as ->.
  { rewrite Hm' in Hm at 1. revert Hm. generalize (inputStream
      (number_loop (inputStream lx) (line lx) (col lx) (col lx) "" false).2).
    clear. intros tl. revert mid. induction mid' as [|x m IH]; intros [|y mid] Hm.
    - reflexivity.
    - exfalso. apply (f_equal String.length) in Hm. rewrite app_cons in Hm.
      change ("" ++ tl) with tl in Hm. cbn in Hm. rewrite length_app in Hm. lia.
    - exfalso. apply (f_equal String.length) in Hm. rewrite app_cons in Hm.
      change ("" ++ tl) with tl in Hm. cbn in Hm. rewrite length_app in Hm. lia.
    - rewrite !app_cons in Hm. injection Hm as -> Hm. f_equal. now apply IH. }
  exists mid. change ("" ++ mid) with mid in *.
  assert (Hnz : mid <> "") by (apply (Hne c rest); assumption).
  split; [exact Hm|]. split; [exact Hnz|]. split; [exact Hv|]. split; [exact Ha|].
  split; [exact Hl|]. split; [exact Hc|]. split; [exact Hk|]. split.
  - intros Hty. destruct (Hn Hty) as (H1 & H2 & H3). repeat split; auto.
  - intros Hty. split; [exact Ha | exact (Hu Hty)].
Qed.

(** A turn of the loop that goes on: the piece of the stream it has read,
    and the white space skipped or the token made of it. *)
Lemma turn_effect lx toks lx' toks' :
  tokenize_turn lx toks = Continue lx' toks' ->
  exists mid,
    inputStream lx = mid ++ inputStream lx'
    /\ mid <> ""
    /\ (line lx', col lx') = position_from mid (line lx) (col lx)
    /\ (skipped mid toks toks' \/ emitted lx mid toks toks').
Proof.
  intros Ht. unfold tokenize_turn, peek in Ht.
  destruct (inputStream lx) as [|c rest] eqn:Hs; [discriminate|].
  assert (Hone : snd (consume lx) = mk rest (fst (advance c (line lx) (col lx)))
                                       (snd (advance c (line lx) (col lx)))).
  { unfold consume. rewrite Hs. now destruct (advance c (line lx) (col lx)). }
  assert (Hpos : forall l, l = snd (consume lx) ->
                 String c rest = String c "" ++ inputStream l
                 /\ String c "" <> ""
                 /\ (line l, col l) = position_from (String c "") (line lx) (col lx)).
  { intros l ->. rewrite Hone. cbn. destruct (advance c (line lx) (col lx)).
    repeat split. discriminate. }
  destruct (isspace c) eqn:Hsp.
  { injection Ht as <- <-. exists (String c "").
    destruct (Hpos _ eq_refl) as (H1 & H2 & H3). repeat split; auto.
    left. split; [reflexivity | cbn; now rewrite Hsp]. }
  assert (Hstrip : strip_spaces (String c "") = String c "") by (cbn; now rewrite Hsp).
  destruct (Ascii.eqb c "(") eqn:Hl.
  { injection Ht as <- <-. exists (String c "").
    destruct (Hpos _ eq_refl) as (H1 & H2 & H3). repeat split; auto.
    right. apply Ascii.eqb_eq in Hl. subst c.
    eexists. split; [reflexivity|]. split; [reflexivity|]. split; [exact Hstrip|].
    split; [reflexivity|]. split; [reflexivity|]. split; [reflexivity|].
    split; discriminate. }
  destruct (Ascii.eqb c ")") eqn:Hr.
  { injection Ht as <- <-. exists (String c "").
    destruct (Hpos _ eq_refl) as (H1 & H2 & H3). repeat split; auto.
    right. apply Ascii.eqb_eq in Hr. subst c.
    eexists. split; [reflexivity|]. split; [reflexivity|]. split; [exact Hstrip|].
    split; [reflexivity|]. split; [reflexivity|]. split; [reflexivity|].
    split; discriminate. }
  destruct (isDigit c) eqn:Hd.
  { destruct (number_token lx c rest Hs Hd)
      as (mid & Hm & Hne & Hv & Ha & Hln & Hcl & Hk & Hn & Hu).
    destruct (number_loop_suffix (inputStream lx) (line lx) (col lx) (col lx) "" false)
      as (mid' & Hm' & Hp' & _).
    cbv zeta in *. fold (number lx) in Hm', Hp'.
    destruct (number lx) as [tok l2] eqn:Hnum. injection Ht as <- <-.
    cbn [fst snd] in *.
    assert (mid' = mid) as ->.
    { rewrite Hm' in Hm at 1. revert Hm. generalize (inputStream l2). clear.
      intros tl. revert mid. induction mid' as [|x m IH]; intros [|y mid] Hm.
      - reflexivity.
      - exfalso. apply (f_equal String.length) in Hm. rewrite app_cons in Hm.
        change ("" ++ tl) with tl in Hm. cbn in Hm. rewrite length_app in Hm. lia.
      - exfalso. apply (f_equal String.length) in Hm. rewrite app_cons in Hm.
        change ("" ++ tl) with tl in Hm. cbn in Hm. rewrite length_app in Hm. lia.
      - rewrite !app_cons in Hm. injection Hm as -> Hm. f_equal. now apply IH. }
    exists mid. rewrite <- Hs. repeat split; auto.
    right. exists tok. split; [reflexivity|]. split; [exact Hv|].
    split; [now apply all_digits_strip|]. split; [exact Hln|]. split; [exact Hcl|].
    split; [exact Hk|]. split; [exact Hn | exact Hu]. }
  destruct (isOperator c) eqn:Ho.
  { unfold op in Ht. destruct (consume lx) as [c' l2] eqn:Hc.
    assert (c' = c) as ->.
    { unfold consume in Hc. rewrite Hs in Hc.
      destruct (advance c (line lx) (col lx)). congruence. }
    injection Ht as <- <-.
    exists (String c "").
    destruct (Hpos l2 eq_refl) as (H1 & H2 & H3).
    repeat split; auto. right. eexists.
    split; [reflexivity|]. split; [reflexivity|]. split; [exact Hstrip|].
    split; [|split; [reflexivity|split; [|split]]].
    - cbn [snd] in Hone. rewrite Hone. cbn. unfold advance.
      assert (Ascii.eqb c newline = false) as ->; [|reflexivity].
      destruct (Ascii.eqb c newline) eqn:E; [|reflexivity].
      apply Ascii.eqb_eq in E. subst c. discriminate.
    - cbn. destruct (Ascii.eqb c "+"), (Ascii.eqb c "-"), (Ascii.eqb c "*"),
        (Ascii.eqb c "/"); reflexivity.
    - cbn. destruct (Ascii.eqb c "+"), (Ascii.eqb c "-"), (Ascii.eqb c "*"),
        (Ascii.eqb c "/"); discriminate.
    - cbn. unfold isOperator in Ho.
      destruct (Ascii.eqb c "+"), (Ascii.eqb c "-"), (Ascii.eqb c "*"),
        (Ascii.eqb c "/"); discriminate. }
  destruct (consume lx). discriminate.
Qed.

(** The turn on which [tokenize] returns: at the end of the stream, or on
    a character it has no branch for. *)
Lemma turn_return lx toks lx' toks' :
  tokenize_turn lx toks = Return lx' toks' ->
  (inputStream lx = "" /\ lx' = lx /\ toks' = (toks ++ [END lx])%list)
  \/ (exists c rest,
        inputStream lx = String c rest /\ unrecognized c = true
        /\ lx' = mk rest (line lx) (col lx + 1)
        /\ toks' = (toks ++ [Token.mk TokenType.UNKNOWN (String c "")
                                      (line lx) (col lx + 1)])%list).
Proof.
  intros Ht. destruct (inputStream lx) as [|c rest] eqn:Hs.
  - left. unfold tokenize_turn, peek in Ht. rewrite Hs in Ht.
    injection Ht as <- <-. auto.
  - right. exists c, rest. destruct (unrecognized c) eqn:Hu.
    + rewrite (turn_unrecognized lx toks c rest Hs Hu) in Ht.
      injection Ht as <- <-. auto.
    + exfalso. unfold tokenize_turn, peek in Ht. rewrite Hs in Ht.
      unfold unrecognized in Hu.
      destruct (isspace c); [discriminate|].
      destruct (Ascii.eqb c "("); [discriminate|].
      destruct (Ascii.eqb c ")"); [discriminate|].
      destruct (isDigit c); [destruct (number lx); discriminate|].
      destruct (isOperator c); [destruct (op lx); discriminate|].
      discriminate.
Qed.

(** [tokenize] returns from a head of its loop. *)
Lemma tokenize_returns input toks lx :
  tokenize input = Some (toks, lx) ->
  exists lx0 toks0, loop_head input lx0 toks0
                    /\ tokenize_turn lx0 toks0 = Return lx toks.
Proof.
  unfold tokenize, run. generalize (S (String.length (inputStream (init input)))).
  intros fuel. generalize (head_first input).
  generalize (init input) as lx0. generalize (@nil Token.t) as toks0.
  induction fuel as [|fuel IH]; intros toks0 lx0 Hh Hr; [discriminate|].
  cbn [tokenize_loop] in Hr.
  destruct (tokenize_turn lx0 toks0) as [lx1 toks1 | lx1 toks1] eqn:Ht.
  - apply (IH toks1 lx1); [eapply head_next; eauto | exact Hr].
  - injection Hr as <- <-. eauto.
Qed.

(** What holds at every head of the loop of [tokenize]: the tokens found
    so far are those of the part of the input that has been read. *)
Lemma loop_head_stream input lx toks :
  loop_head input lx toks ->
  exists pre,
    input = pre ++ inputStream lx
    /\ at_pos pre (line lx) (col lx)
    /\ texts toks = strip_spaces pre
    /\ Forall (located input) toks
    /\ Forall (fun tok => lexical (Token.type tok) = true) toks
    /\ Forall (fun tok => Token.type tok = TokenType.NUMBER ->
                          numeric_literal (Token.value tok)) toks
    /\ Forall (fun tok => Token.type tok = TokenType.UNKNOWN ->
                          malformed_number (Token.value tok)) toks.
Proof.
  induction 1 as [|lx toks lx' toks' _ IH Ht].
  - exists "". repeat split; auto using at_pos_start.
  - destruct IH as (pre & Hin & Hp & Htx & Hloc & Hkind & Hnum & Hmal).
    destruct (turn_effect _ _ _ _ Ht) as (mid & Hm & Hne & Hq & Heff).
    exists (pre ++ mid).
    assert (Hin' : input = (pre ++ mid) ++ inputStream lx').
    { now rewrite app_assoc, <- Hm. }
    assert (Hp' : at_pos (pre ++ mid) (line lx') (col lx')).
    { pose proof (at_pos_from mid pre _ _ Hp) as Hp'. now rewrite <- Hq in Hp'. }
    destruct Heff as [[-> Hsk] | (tok & -> & Hv & Hst & Hl & Hc & Hk & Hn & Hu)].
    + repeat split; auto; try apply Hp'.
      now rewrite strip_spaces_app, Hsk, app_nil_r.
    + repeat split; auto; try apply Hp'.
      * now rewrite texts_app, strip_spaces_app, Htx, Hst; cbn; rewrite Hv, app_nil_r.
      * apply Forall_app. split; [exact Hloc|]. constructor; [|constructor].
        exists pre, (inputStream lx'). destruct Hp as [Hpl Hpc].
        rewrite Hv, Hl, Hc. repeat split; auto.
        now rewrite Hin, Hm.
      * apply Forall_app. split; [exact Hkind|]. now constructor.
      * apply Forall_app. split; [exact Hnum|]. constructor; [|constructor].
        now rewrite Hv.
      * apply Forall_app. split; [exact Hmal|]. constructor; [|constructor].
        now rewrite Hv.
Qed.

(** The vector [tokenize] returns ends with a token of type UNKNOWN. *)
Lemma tokenize_last input toks lx :
  tokenize input = Some (toks, lx) ->
  exists front last, toks = (front ++ [last])%list
                     /\ Token.type last = TokenType.UNKNOWN.
Proof.
  intros Hr. destruct (tokenize_returns _ _ _ Hr) as (lx0 & toks0 & Hh & Ht).
  destruct (turn_return _ _ _ _ Ht) as [(_ & _ & ->) | (c & rest & _ & _ & _ & ->)];
    eexists _, _; split; reflexivity.
Qed.



(** X1. [tokenize] returns on every text, and the vector it returns is
    never empty: its last token is of type UNKNOWN, the END token at the
    position where the text ends or the token of a character without a
    branch. *)
Theorem tokenize_ends_with_unknown input :
  exists front last lx,
    tokenize input = Some ((front ++ [last])%list, lx)
    /\ Token.type last = TokenType.UNKNOWN
    /\ (last = Token.mk TokenType.UNKNOWN "END"
                        (text_line input) (text_column input)
        \/ exists c, unrecognized c = true /\ Token.value last = String c "").
Proof.
  destruct (tokenize_total input) as ([toks lx] & Hr).
  destruct (tokenize_returns _ _ _ Hr) as (lx0 & toks0 & Hh & Ht).
  destruct (turn_return _ _ _ _ Ht) as [(Hs & -> & ->) | (c & rest & Hs & Hu & -> & ->)].
  - exists toks0, (END lx0), lx0. repeat split; auto. left.
    destruct (loop_head_position _ _ _ Hh) as (pre & Hin & Hl & Hc).
    rewrite Hs, app_nil_r in Hin. subst pre. unfold END. now rewrite Hl, Hc.
  - eexists toks0, _, _. repeat split; eauto.
Qed.

(** Every token of the vector is of a kind [tokenize] has a branch for. *)
Lemma tokenize_all_lexical input toks lx :
  tokenize input = Some (toks, lx) ->
  Forall (fun tok => lexical (Token.type tok) = true) toks.
Proof.
  intros Hr.
  destruct (tokenize_returns _ _ _ Hr) as (lx0 & toks0 & Hh & Ht).
  destruct (loop_head_stream _ _ _ Hh) as (pre & _ & _ & _ & _ & Hkind & _ & _).
  destruct (turn_return _ _ _ _ Ht) as [(_ & _ & ->) | (c & rest & _ & _ & _ & ->)];
    apply Forall_app; (split; [exact Hkind|]); now constructor.
Qed.

(** X2. [tokenize] only makes tokens of the kinds NUMBER, ADD, SUBTRACT,
    MULTIPLY, DIVIDE, LEFT_PAREN, RIGHT_PAREN and UNKNOWN: no identifier,
    boolean, assignment, logical, relational or modulo token ever comes
    out of it. *)
Theorem tokenize_kinds input toks lx tok :
  tokenize input = Some (toks, lx) ->
  In tok toks ->
  lexical (Token.type tok) = true.
Proof.
  intros Hr Hin. pose proof (tokenize_all_lexical _ _ _ Hr) as Hall.
  rewrite Forall_forall in Hall. apply Hall. now apply list_elem_of_In.
Qed.

(** X3. [tokenize] drops white space and nothing else: the texts of the
    tokens before the last, one after the other, are the text that has
    been read without its white space.  When the last token is END that
    is the whole input; otherwise the last token is the character that
    stopped the scan. *)
Theorem tokenize_keeps_text input toks lx :
  tokenize input = Some (toks, lx) ->
  exists front last read,
    toks = (front ++ [last])%list
    /\ texts front = strip_spaces read
    /\ ((input = read /\ inputStream lx = "" /\ Token.value last = "END")
        \/ exists c, unrecognized c = true
                     /\ input = read ++ String c (inputStream lx)
                     /\ Token.value last = String c "").
Proof.
  intros Hr.
  destruct (tokenize_returns _ _ _ Hr) as (lx0 & toks0 & Hh & Ht).
  destruct (loop_head_stream _ _ _ Hh) as (pre & Hin & _ & Htx & _).
  destruct (turn_return _ _ _ _ Ht) as [(Hs & -> & ->) | (c & rest & Hs & Hu & -> & ->)].
  - exists toks0, (END lx0), pre. repeat split; auto. left.
    rewrite Hs, app_nil_r in Hin. auto.
  - eexists toks0, _, pre. repeat split; eauto. right.
    exists c. rewrite Hs in Hin. auto.
Qed.

(** X4. Every token before the last stands in the input with its text
    and carries the line and the column of the first character of that
    text. *)
Theorem tokenize_positions input toks lx tok :
  tokenize input = Some (toks, lx) ->
  In tok (removelast toks) ->
  located input tok.
Proof.
  intros Hr Hin.
  destruct (tokenize_returns _ _ _ Hr) as (lx0 & toks0 & Hh & Ht).
  destruct (loop_head_stream _ _ _ Hh) as (pre & _ & _ & _ & Hloc & _).
  assert (removelast toks = toks0) as Heq.
  { destruct (turn_return _ _ _ _ Ht) as [(_ & _ & ->) | (c & rest & _ & _ & _ & ->)];
      apply removelast_last. }
  rewrite Heq in Hin. rewrite Forall_forall in Hloc. apply Hloc.
  now apply list_elem_of_In.
Qed.

(** X5. The text of every NUMBER token is a numeric literal: digits with
    at most one dot, which is neither its first nor its last character. *)
Theorem tokenize_numbers input toks lx tok :
  tokenize input = Some (toks, lx) ->
  In tok toks ->
  Token.type tok = TokenType.NUMBER ->
  numeric_literal (Token.value tok).
Proof.
  intros Hr Hin Hty.
  destruct (tokenize_returns _ _ _ Hr) as (lx0 & toks0 & Hh & Ht).
  destruct (loop_head_stream _ _ _ Hh) as (pre & _ & _ & _ & _ & _ & Hnum & _).
  assert (Hall : Forall (fun tok => Token.type tok = TokenType.NUMBER ->
                                    numeric_literal (Token.value tok)) toks).
  { destruct (turn_return _ _ _ _ Ht) as [(_ & _ & ->) | (c & rest & _ & _ & _ & ->)];
      apply Forall_app; (split; [exact Hnum|]); constructor;
      try constructor; cbn; discriminate. }
  rewrite Forall_forall in Hall. apply Hall; [now apply list_elem_of_In | exact Hty].
Qed.

(** X6. An UNKNOWN token that is not the last token of the vector is a
    number [number] has refused: digits and dots that begin or end with
    a dot. *)
Theorem tokenize_unknown_inside input toks lx tok :
  tokenize input = Some (toks, lx) ->
  In tok (removelast toks) ->
  Token.type tok = TokenType.UNKNOWN ->
  malformed_number (Token.value tok).
Proof.
  intros Hr Hin Hty.
  destruct (tokenize_returns _ _ _ Hr) as (lx0 & toks0 & Hh & Ht).
  destruct (loop_head_stream _ _ _ Hh) as (pre & _ & _ & _ & _ & _ & _ & Hmal).
  assert (removelast toks = toks0) as Heq.
  { destruct (turn_return _ _ _ _ Ht) as [(_ & _ & ->) | (c & rest & _ & _ & _ & ->)];
      apply removelast_last. }
  rewrite Heq in Hin. rewrite Forall_forall in Hmal.
  apply Hmal; [now apply list_elem_of_In | exact Hty].
Qed.

Section Witnesses.
Import Reading.
Local Open Scope list_scope.

Lemma tokenize_kinds_witness :
  exists toks lx,
    tokenize "(1 + 2.5) * 3" = Some (toks, lx)
    /\ In (tok TokenType.MULTIPLY "*" 11) toks
    /\ lexical TokenType.MULTIPLY = true.
Proof.
  eexists _, _. split; [vm_compute; reflexivity|]. split; [pick|].
  eapply (tokenize_kinds "(1 + 2.5) * 3" _ _ (tok TokenType.MULTIPLY "*" 11)).
  - vm_compute. reflexivity.
  - pick.
Defined.

Lemma tokenize_keeps_text_witness :
  exists toks lx,
    tokenize "1 + @ 2" = Some (toks, lx)
    /\ exists front last read,
        toks = front ++ [last]
        /\ texts front = strip_spaces read
        /\ (("1 + @ 2" = read /\ inputStream lx = "" /\ Token.value last = "END")
            \/ exists c, unrecognized c = true
                         /\ "1 + @ 2" = (read ++ String c (inputStream lx))%string
                         /\ Token.value last = String c "").
Proof.
  eexists _, _. split; [vm_compute; reflexivity|].
  apply (tokenize_keeps_text "1 + @ 2"). vm_compute. reflexivity.
Defined.

Lemma tokenize_positions_witness :
  located ("1 +" ++ String newline " 22")%string (Token.mk TokenType.NUMBER "22" 2 2).
Proof.
  eapply (tokenize_positions ("1 +" ++ String newline " 22")%string).
  - vm_compute. reflexivity.
  - pick.
Defined.

Lemma tokenize_numbers_witness : numeric_literal "2.5".
Proof.
  eapply (tokenize_numbers "1 + 2.5" _ _ (tok TokenType.NUMBER "2.5" 5)).
  - vm_compute. reflexivity.
  - pick.
  - reflexivity.
Defined.

Lemma tokenize_unknown_inside_witness : malformed_number "1.2.".
Proof.
  eapply (tokenize_unknown_inside "1.2.3" _ _ (tok TokenType.UNKNOWN "1.2." 1)).
  - vm_compute. reflexivity.
  - pick.
  - reflexivity.
Defined.
End Witnesses.

End TokenStreamFacts.

(** ** Properties of a run of the parser *)

Module ProgressFacts.
Section WithNumeric.
Context {num : Numeric} {rd : Stod}.
Import InfixParser Ownership ParserFacts TerminationFacts ParseFacts Progress.
Local Open Scope list_scope.
Local Open Scope nat_scope.

Lemma sentinel_current s k :
  sentinel_ahead s k ->
  exists tok, tokens s !! currentTokenIndex s = Some tok
              /\ currentToken s = Ok tok s
              /\ (Token.type tok <> TokenType.UNKNOWN -> 1 <= k).
Proof.
  intros (t & Hlk & Hty).
  assert (Hlt : currentTokenIndex s < length (tokens s)).
  { apply lookup_lt_Some in Hlk. lia. }
  destruct (lookup_lt_is_Some_2 _ _ Hlt) as (tok & Htok).
  exists tok. split; [exact Htok|]. split.
  - unfold currentToken. now rewrite Htok.
  - intros Hne. destruct k; [|lia]. exfalso. apply Hne.
    rewrite Nat.add_0_r in Hlk. congruence.
Qed.

Lemma sentinel_at s s' k j :
  sentinel_ahead s k -> tokens s' = tokens s ->
  currentTokenIndex s' + j = currentTokenIndex s + k ->
  sentinel_ahead s' j.
Proof.
  intros (t & Hlk & Hty) Ht Hi. exists t. split; [|exact Hty].
  now rewrite Ht, Hi.
Qed.

Lemma is_type_true ty x : is_type ty x = true -> x = ty.
Proof. unfold is_type. apply TokenTypeFacts.eqb_eq. Qed.

Lemma is_type_false ty x : is_type ty x = false -> x <> ty.
Proof. unfold is_type. apply TokenTypeFacts.eqb_neq. Qed.

(** ** A call that returns has not thrown *)

Lemma teardown_not_Ok {A} right node e s (p : A) s' :
  teardown right node e s <> Ok p s'.
Proof.
  unfold teardown, bind, throw.
  destruct (clearTree right s) as [? s1| | |]; try discriminate.
  destruct (clearTree node s1); discriminate.
Qed.

Lemma handler_not_Ok {A} node e s (p : A) s' :
  bind (clearTree node) (fun _ => throw e) s <> Ok p s'.
Proof. unfold bind, throw. destruct (clearTree node s); discriminate. Qed.

Lemma bind_Ok_inv {A B} (m : M A) (k : A -> M B) s b s' :
  bind m k s = Ok b s' -> exists a s1, m s = Ok a s1 /\ k a s1 = Ok b s'.
Proof. unfold bind. destruct (m s) as [a s1| | |]; try discriminate. eauto. Qed.

Lemma try_catch_Ok_inv {A} (m : M A) (handler : exn -> M A) s a s' :
  (forall e s0, handler e s0 <> Ok a s') ->
  try_catch m handler s = Ok a s' -> m s = Ok a s'.
Proof.
  intros Hh. unfold try_catch. destruct (m s) as [? ?|e s0| |]; try discriminate; auto.
  intros Hc. now apply Hh in Hc.
Qed.

Lemma currentToken_Ok_inv s tok s0 :
  currentToken s = Ok tok s0 ->
  s0 = s /\ tokens s !! currentTokenIndex s = Some tok.
Proof.
  unfold currentToken. destruct (tokens s !! currentTokenIndex s); [|discriminate].
  intros [= -> ->]. auto.
Qed.

Lemma parse_handler_not_Ok {A} statements e s (p : A) s' :
  parse_handler statements e s <> Ok p s'.
Proof.
  unfold parse_handler, bind, throw.
  destruct (clear_statements statements s) as [? s1| | |]; try discriminate.
  destruct (clear_root s1); discriminate.
Qed.

(** The loop of a level stays inside the vector when its operand does:
    an UNKNOWN token is no operator of any level. *)
Lemma left_assoc_loop_guarded is_op node_type operand :
  is_op TokenType.UNKNOWN = false ->
  builds operand -> guarded operand ->
  forall fuel a hf h0 s k,
    owns hf a -> hf ##ₘ h0 -> heap s = hf ∪ h0 ->
    sentinel_ahead s k ->
    within s k (left_assoc_loop is_op node_type operand fuel (Some a) s).
Proof.
  intros Hunk Hb Hop.
  induction fuel as [|fuel IH]; intros a hf h0 s k Ho Hd Hh Hahead; [exact I|].
  cbn [left_assoc_loop].
  destruct (sentinel_current s k Hahead) as (op & Hlk & Hc & Hk).
  rewrite (bind_Ok _ _ _ _ _ Hc).
  destruct (is_op (Token.type op)) eqn:Hisop; [|cbn; lia].
  assert (Hk1 : 1 <= k).
  { apply Hk. intros E. rewrite E in Hisop. congruence. }
  rewrite bind_Ok with (a := tt) (s' := set_index (S (currentTokenIndex s)) s) by reflexivity.
  set (s1 := set_index (S (currentTokenIndex s)) s).
  assert (Hahead1 : sentinel_ahead s1 (k - 1)).
  { apply (sentinel_at s s1 k); [exact Hahead | reflexivity | cbn; lia]. }
  pose proof (Hop s1 (k - 1) Hahead1) as Hcomp.
  destruct (Hb s1) as [Hspec Hgrow].
  destruct (operand s1) as [right s2 | e s2 | u |] eqn:Hr; try contradiction.
  - rewrite (bind_Ok _ _ _ _ _ (try_catch_Ok _ _ _ _ _ Hr)).
    destruct Hspec as (ar & hr & -> & Hor & Hdr & Hhr & Htok & Hroot & Hidx).
    specialize (Hgrow _ _ eq_refl). cbn in Hcomp, Hgrow.
    cbn [heap set_index s1] in Hdr, Hhr. rewrite Hh in Hdr, Hhr.
    rewrite new_binary.
    set (a' := fresh (dom (heap s2))).
    set (n' := Node.mk (node_type (Token.type op)) (double_of_int 0) "" [Some a; Some ar]).
    set (s3 := set_store _ _ s2).
    destruct (owns_join a' n' a ar hf hr h0) as (Hnew & Hdn & Heq); auto.
    { unfold a'. now rewrite Hhr. }
    assert (Hh3 : heap s3 = <[a' := n']> (hf ∪ hr) ∪ h0).
    { cbn [heap set_store s3]. rewrite Hhr. exact Heq. }
    assert (Hahead3 : sentinel_ahead s3 (currentTokenIndex s + k - currentTokenIndex s2)).
    { apply (sentinel_at s s3 k); [exact Hahead | exact Htok | cbn; lia]. }
    pose proof (IH a' _ h0 s3 _ Hnew Hdn Hh3 Hahead3) as Hrec.
    destruct (left_assoc_loop _ _ _ _ _ _) as [p s' | e s' | |]; auto.
    cbn in *. lia.
  - destruct Hspec as (Hh2 & Htok & Hroot & Hidx). cbn [heap s1 set_index] in Hh2.
    destruct (teardown_spec a hf h0 s2 e Ho Hd) as (tr & Ht & _); [congruence|].
    rewrite (bind_Throw _ _ _ _ _ (eq_trans (try_catch_Throw _ _ _ _ _ Hr) Ht)).
    exact I.
  - now rewrite (bind_OutOfFuel _ _ _ (try_catch_OutOfFuel _ _ _ Hr)).
Qed.

Lemma left_assoc_level_guarded is_op node_type operand fuel :
  is_op TokenType.UNKNOWN = false ->
  builds operand -> guarded operand ->
  guarded (bind operand (left_assoc_loop is_op node_type operand fuel)).
Proof.
  intros Hunk Hb Hop s k Hahead.
  pose proof (Hop s k Hahead) as Hfirst.
  destruct (Hb s) as [Hspec Hgrow].
  destruct (operand s) as [p s1 | e s1 | u |] eqn:Hf; try contradiction.
  - rewrite (bind_Ok _ _ _ _ _ Hf).
    destruct Hspec as (a & hf & -> & Ho & Hd & Hh & Htok & Hroot & Hidx).
    specialize (Hgrow _ _ eq_refl). cbn in Hfirst.
    assert (Hahead1 : sentinel_ahead s1 (currentTokenIndex s + k - currentTokenIndex s1)).
    { apply (sentinel_at s s1 k); [exact Hahead | exact Htok | lia]. }
    pose proof (left_assoc_loop_guarded is_op node_type operand Hunk Hb Hop
                  fuel a hf (heap s) s1 _ Ho Hd Hh Hahead1) as Hl.
    destruct (left_assoc_loop _ _ _ _ _ _) as [p s' | e s' | |]; auto.
    cbn in *. lia.
  - now rewrite (bind_Throw _ _ _ _ _ Hf).
  - now rewrite (bind_OutOfFuel _ _ _ Hf).
Qed.

Lemma factor_guarded f :
  builds (expression f) -> guarded (expression f) -> guarded (factor (S f)).
Proof.
  intros Hb Hexp s k Hahead. cbn [factor].
  destruct (sentinel_current s k Hahead) as (tok & Hlk & Hc & Hk).
  rewrite (bind_Ok _ _ _ _ _ Hc).
  destruct (Token.type tok) eqn:Hty; try exact I;
    try (specialize (Hk ltac:(discriminate)); cbn; lia).
  - (* NUMBER *)
    specialize (Hk ltac:(discriminate)).
    destruct (stod (Token.value tok)); [cbn; lia | exact I].
  - (* LEFT_PAREN *)
    specialize (Hk ltac:(discriminate)).
    rewrite bind_Ok with (a := tt) (s' := set_parens (unmatchedParentheses s + 1) s)
      by reflexivity.
    rewrite bind_Ok with (a := tt)
      (s' := set_index (S (currentTokenIndex s)) (set_parens (unmatchedParentheses s + 1) s))
      by reflexivity.
    set (s1 := set_index _ _).
    assert (Hahead1 : sentinel_ahead s1 (k - 1)).
    { apply (sentinel_at s s1 k); [exact Hahead | reflexivity | cbn; lia]. }
    pose proof (Hexp s1 (k - 1) Hahead1) as Hcomp.
    destruct (Hb s1) as [Hspec Hgrow].
    destruct (expression f s1) as [node s2 | e s2 | u |] eqn:He; try contradiction.
    + rewrite (bind_Ok _ _ _ _ _ (try_catch_Ok _ _ _ _ _ He)).
      destruct Hspec as (a & hf & -> & Ho & Hd & Hh & Htok & Hroot & Hidx).
      specialize (Hgrow _ _ eq_refl). cbn in Hcomp, Hgrow.
      assert (Hahead2 : sentinel_ahead s2 (currentTokenIndex s + k - currentTokenIndex s2)).
      { apply (sentinel_at s s2 k); [exact Hahead | exact Htok | lia]. }
      destruct (sentinel_current s2 _ Hahead2) as (cur & Hlk2 & Hc2 & Hk2).
      rewrite (bind_Ok _ _ _ _ _ Hc2).
      destruct (is_type TokenType.RIGHT_PAREN (Token.type cur)) eqn:Hrp; cbn [negb].
      * specialize (Hk2 ltac:(intros E; rewrite E in Hrp; discriminate)).
        cbn. lia.
      * destruct (clearTree_owns hf a (heap s1) s2 Ho Hd Hh) as (tr & Hct & _).
        rewrite (bind_Ok _ _ _ _ _ Hct).
        now rewrite (bind_Ok _ _ _ _ _ (clearTree_null _)).
    + now rewrite (bind_Throw _ _ _ _ _ (try_catch_Throw _ _ _ _ _ He)).
    + now rewrite (bind_OutOfFuel _ _ _ (try_catch_OutOfFuel _ _ _ He)).
Qed.

Lemma assignmentExpression_guarded f :
  builds (logicalOrExpression f) -> builds (assignmentExpression f) ->
  guarded (logicalOrExpression f) -> guarded (assignmentExpression f) ->
  guarded (assignmentExpression (S f)).
Proof.
  intros Hbor Hbas Hor Has s k Hahead. cbn [assignmentExpression].
  pose proof (Hor s k Hahead) as Hfirst.
  destruct (Hbor s) as [Hspec Hgrow].
  destruct (logicalOrExpression f s) as [node s1 | e s1 | u |] eqn:Hl; try contradiction.
  2:{ now rewrite (bind_Throw _ _ _ _ _ Hl). }
  2:{ now rewrite (bind_OutOfFuel _ _ _ Hl). }
  rewrite (bind_Ok _ _ _ _ _ Hl). specialize (Hgrow _ _ eq_refl).
  destruct Hspec as (a & hf & -> & Ho & Hd & Hh & Htok & Hroot & Hidx).
  cbn in Hfirst.
  assert (Hahead1 : sentinel_ahead s1 (currentTokenIndex s + k - currentTokenIndex s1)).
  { apply (sentinel_at s s1 k); [exact Hahead | exact Htok | lia]. }
  destruct (sentinel_current s1 _ Hahead1) as (op & Hlk & Hc & Hk).
  rewrite (bind_Ok _ _ _ _ _ Hc).
  destruct (is_type TokenType.ASSIGN (Token.type op)) eqn:Has'; [|cbn; lia].
  specialize (Hk ltac:(intros E; rewrite E in Has'; discriminate)).
  destruct (owns_root hf a Ho) as (nd & Hnd).
  assert (Hlka : heap s1 !! a = Some nd).
  { rewrite Hh. now apply lookup_union_Some_l. }
  rewrite (bind_Ok _ _ _ _ _ (load_Some _ _ _ Hlka)).
  destruct (negb _).
  - destruct (clearTree_owns hf a (heap s) s1 Ho Hd Hh) as (tr & Hct & _).
    rewrite (bind_Ok _ _ _ _ _ Hct). unfold teardown.
    rewrite (bind_Ok _ _ _ _ _ (clearTree_null _)).
    now rewrite (bind_Ok _ _ _ _ _ (clearTree_null _)).
  - rewrite bind_Ok with (a := tt) (s' := set_index (S (currentTokenIndex s1)) s1)
      by reflexivity.
    set (s2 := set_index _ _).
    assert (Hahead2 : sentinel_ahead s2 (currentTokenIndex s + k - S (currentTokenIndex s1))).
    { apply (sentinel_at s s2 k); [exact Hahead | exact Htok | cbn; lia]. }
    pose proof (Has s2 _ Hahead2) as Hcomp.
    destruct (Hbas s2) as [Hs2 Hg2].
    destruct (assignmentExpression f s2) as [valueNode s3 | e s3 | u |] eqn:Hv;
      try contradiction.
    + rewrite (bind_Ok _ _ _ _ _ (try_catch_Ok _ _ _ _ _ Hv)).
      destruct Hs2 as (ar & hr & -> & Hor' & Hdr & Hhr & Htok3 & Hroot3 & Hidx3).
      rewrite new_binary. cbn in *. lia.
    + destruct Hs2 as (Hh3 & Htok3 & Hroot3 & Hidx3). cbn [heap s2 set_index] in Hh3.
      destruct (teardown_spec a hf (heap s) s3 e Ho Hd) as (tr & Ht & _); [congruence|].
      now rewrite (bind_Throw _ _ _ _ _ (eq_trans (try_catch_Throw _ _ _ _ _ Hv) Ht)).
    + now rewrite (bind_OutOfFuel _ _ _ (try_catch_OutOfFuel _ _ _ Hv)).
Qed.

Lemma expression_guarded f :
  guarded (assignmentExpression f) -> guarded (expression (S f)).
Proof.
  intros Has s k Hahead. rewrite expression_S.
  pose proof (Has s k Hahead) as Hc. unfold try_catch.
  destruct (assignmentExpression f s); auto.
Qed.

(** With an UNKNOWN token ahead, no level of the cascade reads the
    vector past its end or follows a pointer that is null or dead. *)
Lemma cascade_guard : forall f, cascade_guarded f.
Proof.
  induction f as [|f IH].
  - split; intros s k _; exact I.
  - destruct IH. destruct (cascade_sound f). split.
    + now apply expression_guarded.
    + now apply assignmentExpression_guarded.
    + now apply (left_assoc_level_guarded _ _ (logicalXorExpression f) f).
    + now apply (left_assoc_level_guarded _ _ (logicalAndExpression f) f).
    + now apply (left_assoc_level_guarded _ _ (equalityExpression f) f).
    + now apply (left_assoc_level_guarded _ _ (relationalExpression f) f).
    + now apply (left_assoc_level_guarded _ _ (additiveExpression f) f).
    + now apply (left_assoc_level_guarded _ _ (multiplicativeExpression f) f).
    + now apply (left_assoc_level_guarded _ _ (factor f) f).
    + now apply factor_guarded.
Qed.

(** ** The exceptions of the cascade and the counter of parentheses *)

Lemma names_current_same e s s' :
  names_current e s -> tokens s' = tokens s ->
  currentTokenIndex s' = currentTokenIndex s -> names_current e s'.
Proof. intros (tok & Hlk & He) Ht Hi. exists tok. now rewrite Ht, Hi. Qed.

Lemma left_assoc_loop_reports is_op node_type operand :
  builds operand -> reports operand ->
  forall fuel a hf h0 s,
    owns hf a -> hf ##ₘ h0 -> heap s = hf ∪ h0 ->
    match left_assoc_loop is_op node_type operand fuel (Some a) s with
    | Ok _ s' => unmatchedParentheses s' = unmatchedParentheses s
    | Throw e s' =>
        names_current e s' /\ (unmatchedParentheses s <= unmatchedParentheses s')%Z
    | _ => True
    end.
Proof.
  intros Hb Hrep.
  induction fuel as [|fuel IH]; intros a hf h0 s Ho Hd Hh; [exact I|].
  cbn [left_assoc_loop].
  destruct (currentToken_cases s) as [(op & Hlk & Hc) | Hc];
    [rewrite (bind_Ok _ _ _ _ _ Hc) | now rewrite (bind_Undefined _ _ _ _ Hc)].
  destruct (is_op (Token.type op)); [|reflexivity].
  rewrite bind_Ok with (a := tt) (s' := set_index (S (currentTokenIndex s)) s) by reflexivity.
  set (s1 := set_index (S (currentTokenIndex s)) s).
  destruct (Hb s1) as [Hspec _]. pose proof (Hrep s1) as Hr1.
  destruct (operand s1) as [right s2 | e s2 | u |] eqn:Hr.
  - rewrite (bind_Ok _ _ _ _ _ (try_catch_Ok _ _ _ _ _ Hr)).
    destruct Hspec as (ar & hr & -> & Hor & Hdr & Hhr & Htok & Hroot & Hidx).
    cbn [heap set_index s1] in Hdr, Hhr. rewrite Hh in Hdr, Hhr.
    rewrite new_binary.
    set (a' := fresh (dom (heap s2))).
    set (n' := Node.mk (node_type (Token.type op)) (double_of_int 0) "" [Some a; Some ar]).
    set (s3 := set_store _ _ s2).
    destruct (owns_join a' n' a ar hf hr h0) as (Hnew & Hdn & Heq); auto.
    { unfold a'. now rewrite Hhr. }
    assert (Hh3 : heap s3 = <[a' := n']> (hf ∪ hr) ∪ h0).
    { cbn [heap set_store s3]. rewrite Hhr. exact Heq. }
    pose proof (IH a' _ h0 s3 Hnew Hdn Hh3) as Hrec.
    destruct (left_assoc_loop _ _ _ _ _ _) as [p s' | e s' | |]; auto.
    + cbn in *. congruence.
    + cbn in *. destruct Hrec as [Hn Hp]. split; [exact Hn | lia].
  - destruct Hspec as (Hh2 & Htok & Hroot & Hidx). cbn [heap s1 set_index] in Hh2.
    destruct (teardown_spec a hf h0 s2 e Ho Hd) as (tr & Ht & _); [congruence|].
    rewrite (bind_Throw _ _ _ _ _ (eq_trans (try_catch_Throw _ _ _ _ _ Hr) Ht)).
    destruct Hr1 as [Hn Hp]. split.
    + apply (names_current_same e s2); auto.
    + cbn in *. exact Hp.
  - now rewrite (bind_Undefined _ _ _ _ (try_catch_Undefined _ _ _ _ Hr)).
  - now rewrite (bind_OutOfFuel _ _ _ (try_catch_OutOfFuel _ _ _ Hr)).
Qed.

Lemma left_assoc_level_reports is_op node_type operand fuel :
  builds operand -> reports operand ->
  reports (bind operand (left_assoc_loop is_op node_type operand fuel)).
Proof.
  intros Hb Hrep s. destruct (Hb s) as [Hspec _]. pose proof (Hrep s) as Hr.
  destruct (operand s) as [p s1 | e s1 | u |] eqn:Hf.
  - rewrite (bind_Ok _ _ _ _ _ Hf).
    destruct Hspec as (a & hf & -> & Ho & Hd & Hh & _).
    pose proof (left_assoc_loop_reports is_op node_type operand Hb Hrep fuel a hf (heap s) s1
                  Ho Hd Hh) as Hl.
    destruct (left_assoc_loop _ _ _ _ _ _) as [p s' | e s' | |]; auto.
    + congruence.
    + destruct Hl as [Hn Hp]. split; [exact Hn | lia].
  - now rewrite (bind_Throw _ _ _ _ _ Hf).
  - now rewrite (bind_Undefined _ _ _ _ Hf).
  - now rewrite (bind_OutOfFuel _ _ _ Hf).
Qed.

Lemma factor_reports f :
  builds (expression f) -> reports (expression f) -> reports (factor (S f)).
Proof.
  intros Hb Hrep s. cbn [factor].
  destruct (currentToken_cases s) as [(tok & Hlk & Hc) | Hc];
    [rewrite (bind_Ok _ _ _ _ _ Hc) | now rewrite (bind_Undefined _ _ _ _ Hc)].
  assert (Hbad : @names_current _ rd (runtime_error (unexpected_token tok)) s
                 /\ (unmatchedParentheses s <= unmatchedParentheses s)%Z).
  { split; [exists tok; auto | lia]. }
  destruct (Token.type tok) eqn:Hty; try exact Hbad; try reflexivity.
  - (* NUMBER *)
    destruct (stod (Token.value tok)) eqn:Hst; [reflexivity|].
    split; [exists tok; auto | cbn; lia].
  - (* LEFT_PAREN *)
    rewrite bind_Ok with (a := tt) (s' := set_parens (unmatchedParentheses s + 1) s)
      by reflexivity.
    rewrite bind_Ok with (a := tt)
      (s' := set_index (S (currentTokenIndex s)) (set_parens (unmatchedParentheses s + 1) s))
      by reflexivity.
    set (s1 := set_index _ _).
    destruct (Hb s1) as [Hspec _]. pose proof (Hrep s1) as Hr1.
    destruct (expression f s1) as [node s2 | e s2 | u |] eqn:He.
    + rewrite (bind_Ok _ _ _ _ _ (try_catch_Ok _ _ _ _ _ He)).
      destruct Hspec as (a & hf & -> & Ho & Hd & Hh & Htok & Hroot & Hidx).
      destruct (currentToken_cases s2) as [(cur & Hlk2 & Hc2) | Hc2];
        [rewrite (bind_Ok _ _ _ _ _ Hc2) | now rewrite (bind_Undefined _ _ _ _ Hc2)].
      destruct (negb _).
      * destruct (clearTree_owns hf a (heap s1) s2 Ho Hd Hh) as (tr & Hct & _).
        rewrite (bind_Ok _ _ _ _ _ Hct).
        rewrite (bind_Ok _ _ _ _ _ (clearTree_null _)).
        split; [exists cur; auto | cbn in *; lia].
      * cbn in *. lia.
    + rewrite (bind_Throw _ _ _ _ _ (try_catch_Throw _ _ _ _ _ He)).
      destruct Hr1 as [Hn Hp]. split; [exact Hn | cbn in *; lia].
    + now rewrite (bind_Undefined _ _ _ _ (try_catch_Undefined _ _ _ _ He)).
    + now rewrite (bind_OutOfFuel _ _ _ (try_catch_OutOfFuel _ _ _ He)).
Qed.

Lemma assignmentExpression_reports f :
  builds (logicalOrExpression f) -> builds (assignmentExpression f) ->
  reports (logicalOrExpression f) -> reports (assignmentExpression f) ->
  reports (assignmentExpression (S f)).
Proof.
  intros Hbor Hbas Hror Hras s. cbn [assignmentExpression].
  destruct (Hbor s) as [Hspec _]. pose proof (Hror s) as Hr0.
  destruct (logicalOrExpression f s) as [node s1 | e s1 | u |] eqn:Hl.
  2:{ now rewrite (bind_Throw _ _ _ _ _ Hl). }
  2:{ now rewrite (bind_Undefined _ _ _ _ Hl). }
  2:{ now rewrite (bind_OutOfFuel _ _ _ Hl). }
  rewrite (bind_Ok _ _ _ _ _ Hl).
  destruct Hspec as (a & hf & -> & Ho & Hd & Hh & Htok & Hroot & Hidx).
  destruct (currentToken_cases s1) as [(op & Hlk & Hc) | Hc];
    [rewrite (bind_Ok _ _ _ _ _ Hc) | now rewrite (bind_Undefined _ _ _ _ Hc)].
  destruct (is_type _ _); [|exact Hr0].
  destruct (owns_root hf a Ho) as (nd & Hnd).
  assert (Hlka : heap s1 !! a = Some nd).
  { rewrite Hh. now apply lookup_union_Some_l. }
  rewrite (bind_Ok _ _ _ _ _ (load_Some _ _ _ Hlka)).
  destruct (negb _).
  - destruct (clearTree_owns hf a (heap s) s1 Ho Hd Hh) as (tr & Hct & _).
    rewrite (bind_Ok _ _ _ _ _ Hct). unfold teardown.
    rewrite (bind_Ok _ _ _ _ _ (clearTree_null _)).
    rewrite (bind_Ok _ _ _ _ _ (clearTree_null _)).
    split; [exists op; auto | cbn; lia].
  - rewrite bind_Ok with (a := tt) (s' := set_index (S (currentTokenIndex s1)) s1)
      by reflexivity.
    set (s2 := set_index _ _).
    destruct (Hbas s2) as [Hs2 _]. pose proof (Hras s2) as Hr2.
    destruct (assignmentExpression f s2) as [valueNode s3 | e s3 | u |] eqn:Hv.
    + rewrite (bind_Ok _ _ _ _ _ (try_catch_Ok _ _ _ _ _ Hv)).
      rewrite new_binary. cbn in *. congruence.
    + destruct Hs2 as (Hh3 & Htok3 & Hroot3 & Hidx3). cbn [heap s2 set_index] in Hh3.
      destruct (teardown_spec a hf (heap s) s3 e Ho Hd) as (tr & Ht & _); [congruence|].
      rewrite (bind_Throw _ _ _ _ _ (eq_trans (try_catch_Throw _ _ _ _ _ Hv) Ht)).
      destruct Hr2 as [Hn Hp]. split.
      * apply (names_current_same e s3); auto.
      * cbn in *. lia.
    + now rewrite (bind_Undefined _ _ _ _ (try_catch_Undefined _ _ _ _ Hv)).
    + now rewrite (bind_OutOfFuel _ _ _ (try_catch_OutOfFuel _ _ _ Hv)).
Qed.

Lemma expression_reports f :
  reports (assignmentExpression f) -> reports (expression (S f)).
Proof.
  intros Hras s. rewrite expression_S. pose proof (Hras s) as Hr. unfold try_catch.
  destruct (assignmentExpression f s); auto.
Qed.

Lemma cascade_reporting : forall f, cascade_reports f.
Proof.
  induction f as [|f IH].
  - split; intros s; exact I.
  - destruct IH. destruct (cascade_sound f). split.
    + now apply expression_reports.
    + now apply assignmentExpression_reports.
    + now apply (left_assoc_level_reports _ _ (logicalXorExpression f) f).
    + now apply (left_assoc_level_reports _ _ (logicalAndExpression f) f).
    + now apply (left_assoc_level_reports _ _ (equalityExpression f) f).
    + now apply (left_assoc_level_reports _ _ (relationalExpression f) f).
    + now apply (left_assoc_level_reports _ _ (additiveExpression f) f).
    + now apply (left_assoc_level_reports _ _ (multiplicativeExpression f) f).
    + now apply (left_assoc_level_reports _ _ (factor f) f).
    + now apply factor_reports.
Qed.

(** ** Where [parse] stops *)

Lemma parse_expression_guarded : guarded parse_expression.
Proof. intros s k Ha. apply (cg_expression _ (cascade_guard (cascade_fuel s)) s k Ha). Qed.

Lemma parse_expression_reports : reports parse_expression.
Proof. intros s. apply (cr_expression _ (cascade_reporting (cascade_fuel s)) s). Qed.

Lemma parse_loop_report : forall fuel ps line hs h0 s,
  owns_all ps hs -> hs ##ₘ h0 -> heap s = hs ∪ h0 -> root s = nullptr ->
  parse_report ps s (parse_loop fuel ps line s)
  /\ (forall k, sentinel_ahead s k -> within s k (parse_loop fuel ps line s)).
Proof.
  induction fuel as [|fuel IH]; intros ps line hs h0 s Hown Hdis Hh Hroot.
  { split; [exact I | intros; exact I]. }
  cbn [parse_loop].
  destruct (currentToken_cases s) as [(tok & Hlk & Hc) | Hc].
  2:{ rewrite (bind_Undefined _ _ _ _ Hc). split; [exact I|].
      intros k Hahead. destruct (sentinel_current s k Hahead) as (? & _ & Hc' & _).
      congruence. }
  rewrite (bind_Ok _ _ _ _ _ Hc).
  destruct (is_type TokenType.UNKNOWN (Token.type tok)) eqn:Hunk; cbn [negb].
  { apply is_type_true in Hunk. split; [|intros; cbn; lia].
    repeat split; auto.
    - exists tok. auto.
    - exists []. rewrite app_nil_r. split; [reflexivity | cbn; lia]. }
  apply is_type_false in Hunk.
  destruct (parse_expression_builds s) as [Hspec Hgrow].
  pose proof (parse_expression_reports s) as Hrep.
  pose proof (parse_expression_guarded s) as Hguard.
  destruct (parse_expression s) as [stmt s1 | e s1 | u |] eqn:He.
  - rewrite (bind_Ok _ _ _ _ _ (try_catch_Ok _ _ _ _ _ He)).
    destruct Hspec as (a & hf & -> & Ho & Hd & Hh1 & Htok & Hroot1 & Hidx).
    specialize (Hgrow _ _ eq_refl).
    pose proof Hd as Hd'. rewrite Hh in Hd'.
    apply map_disjoint_union_r in Hd' as [Hfs Hf0].
    assert (Hahead1 : forall k, sentinel_ahead s k ->
              sentinel_ahead s1 (currentTokenIndex s + k - currentTokenIndex s1)
              /\ currentTokenIndex s1 <= currentTokenIndex s + k).
    { intros k Ha. pose proof (Hguard k Ha) as Hp. cbn in Hp.
      split; [apply (sentinel_at s s1 k); [exact Ha | exact Htok | lia] | lia]. }
    destruct (currentToken_cases s1) as [(cur & Hlk1 & Hc1) | Hc1].
    2:{ rewrite (bind_Undefined _ _ _ _ Hc1). split; [exact I|].
        intros k Ha. destruct (Hahead1 k Ha) as [Ha1 _].
        destruct (sentinel_current s1 _ Ha1) as (? & _ & Hc' & _). congruence. }
    rewrite (bind_Ok _ _ _ _ _ Hc1).
    destruct (is_type TokenType.UNKNOWN (Token.type cur) || (Token.line cur >? line)%Z)
      eqn:Hcond.
    + destruct (IH (ps ++ [Some a])
                  (if negb (is_type TokenType.UNKNOWN (Token.type cur))
                   then Token.line cur else line)
                  (hf ∪ hs) h0 s1) as [Hout Hfin].
      { now apply owns_all_snoc. }
      { apply map_disjoint_union_l. auto. }
      { rewrite Hh1, Hh. now rewrite map_union_assoc. }
      { congruence. }
      split.
      * destruct (parse_loop _ _ _ _) as [ps' s' | e s' | u |]; auto.
        -- destruct Hout as (Ht' & Hr' & (t & Hlt & Hty) & Hp' & more & -> & Hlen).
           split; [congruence|]. split; [congruence|].
           split; [exists t; split; [congruence | exact Hty]|].
           split; [congruence|].
           exists (Some a :: more). rewrite <- app_assoc. split; [reflexivity|].
           cbn [length]. lia.
        -- destruct Hout as (Ht' & Hr' & Hn & Hp'). split; [congruence|].
           split; [congruence|]. split; [exact Hn|]. lia.
      * intros k Ha. destruct (Hahead1 k Ha) as [Ha1 Hle].
        pose proof (Hfin _ Ha1) as Hw.
        destruct (parse_loop _ _ _ _) as [ps' s' | e s' | u |]; auto.
        cbn in *. lia.
    + destruct (clear_statements_and_root_owned ps hs Hown (hf ∪ h0) s1)
        as (tr & Hcl & _).
      { apply map_disjoint_union_r. split; [now symmetry | exact Hdis]. }
      { rewrite Hh1, Hh. heap_eq. }
      { congruence. }
      rewrite (bind_Ok _ _ _ _ _ Hcl).
      rewrite parse_handler_nulls by (cbn; congruence).
      split; [|intros; exact I].
      split; [exact Htok|]. split; [exact Hroot1|]. split; [exists cur; cbn; auto|].
      cbn. lia.
  - destruct Hspec as (Hh1 & Htok & Hroot1 & Hidx).
    destruct (parse_handler_owned (A := ptr) ps hs h0 s1 e Hown Hdis) as (tr & Hph & _);
      [congruence | congruence |].
    rewrite (bind_Throw _ _ _ _ _ (eq_trans (try_catch_Throw _ _ _ _ _ He) Hph)).
    split; [|intros; exact I]. destruct Hrep as [Hn Hp].
    split; [exact Htok|]. split; [exact Hroot1|]. split; [|cbn; lia].
    apply (names_current_same e s1); auto.
  - rewrite (bind_Undefined _ _ _ _ (try_catch_Undefined _ _ _ _ He)).
    split; [exact I|]. intros k Ha. exact (Hguard k Ha).
  - rewrite (bind_OutOfFuel _ _ _ (try_catch_OutOfFuel _ _ _ He)).
    split; [exact I|]. intros; exact I.
Qed.

Lemma parse_report_from s :
  root s = nullptr ->
  parse_report [] s (parse s)
  /\ (forall k, sentinel_ahead s k -> within s k (parse s)).
Proof.
  intros Hroot. unfold parse.
  destruct (currentToken_cases s) as [(tok & Hlk & Hc) | Hc].
  - rewrite (bind_Ok _ _ _ _ _ Hc).
    apply (parse_loop_report _ [] _ ∅ (heap s) s).
    + constructor.
    + apply map_disjoint_empty_l.
    + now rewrite map_empty_union.
    + exact Hroot.
  - rewrite (bind_Undefined _ _ _ _ Hc). split; [exact I|].
    intros k Ha. destruct (sentinel_current s k Ha) as (? & _ & Hc' & _). congruence.
Qed.

(** The loop of [parse] ends within its bound. *)
Lemma parse_total s : root s = nullptr -> parse s <> OutOfFuel.
Proof.
  intros Hroot. unfold parse.
  destruct (currentToken_cases s) as [(tok & Hlk & Hc) | Hc];
    [rewrite (bind_Ok _ _ _ _ _ Hc) | now rewrite (bind_Undefined _ _ _ _ Hc)].
  intros Hout.
  pose proof (parse_loop_spec (S (length (tokens s))) [] (Token.line tok) ∅ (heap s) s) as Hs.
  rewrite Hout in Hs. apply Hs.
  - constructor.
  - apply map_disjoint_empty_l.
  - now rewrite map_empty_union.
  - exact Hroot.
  - unfold remaining. lia.
Qed.

(** ** The properties *)

(** X7. When a level of the cascade returns, it returns a pointer that is
    not null, to a tree whose nodes have no child or two children that
    are not null; the nodes of the tree are new, the store of before is
    as it was under them, and at least one token has been read. *)
Theorem level_returns_tree fuel (level : M ptr) s p s' :
  In level (expression fuel :: cascade fuel) ->
  level s = Ok p s' ->
  exists a hf,
    p = Some a /\ owns hf a /\ hf ##ₘ heap s /\ heap s' = hf ∪ heap s
    /\ tokens s' = tokens s
    /\ currentTokenIndex s < currentTokenIndex s' <= length (tokens s).
Proof.
  intros Hin Hok.
  assert (Hb : builds level).
  { destruct (cascade_sound fuel). unfold cascade in Hin. cbn [In] in Hin.
    repeat (destruct Hin as [<- | Hin]; [assumption|]). destruct Hin. }
  destruct (Hb s) as [Hs Hg]. rewrite Hok in Hs. specialize (Hg _ _ Hok).
  destruct Hs as (a & hf & -> & Ho & Hd & Hh & Htok & _ & Hi).
  exists a, hf. repeat split; auto; lia.
Qed.

(** X8. [clearTree] on the root of a tree deletes the nodes of that tree
    and no other, leaves the rest of the store and the state of the
    parser as they were, allocates nothing, and leaves the pointer
    null. *)
Theorem clearTree_frees_tree hf a h0 s :
  owns hf a -> hf ##ₘ h0 -> heap s = hf ∪ h0 ->
  exists s',
    clearTree (Some a) s = Ok nullptr s'
    /\ heap s' = h0 /\ same_parser s s'
    /\ allocations (trace s') = allocations (trace s).
Proof.
  intros Ho Hd Hh. destruct (clearTree_owns hf a h0 s Ho Hd Hh) as (tr & Hc & Hdel).
  eexists. split; [exact Hc|]. repeat split; auto.
  cbn. unfold allocations in *. unfold deletes_only, allocations in Hdel.
  now rewrite List.filter_app, Hdel, app_nil_r.
Qed.

(** X9. Called with an UNKNOWN token ahead, [expression] never reads the
    token vector past its end and never follows a null or dead pointer,
    and when it returns it has read at least one token and has not gone
    past that UNKNOWN token.  The code sets no limit to its recursion:
    [f] is the number of nested calls and loop turns the call is allowed,
    and it runs to its end, by returning or by throwing, as soon as that
    is ten for every token left and ten more. *)
Theorem expression_stops_at_unknown f s k :
  sentinel_ahead s k ->
  match expression f s with
  | Ok _ s' => currentTokenIndex s < currentTokenIndex s' <= currentTokenIndex s + k
  | Throw _ _ => True
  | Undefined _ => False
  | OutOfFuel => f < 10 * remaining s + 10
  end.
Proof.
  intros Ha. pose proof (cg_expression _ (cascade_guard f) s k Ha) as Hp.
  pose proof (ct_expression _ (cascade_terminates f) s) as Hf.
  destruct (cb_expression _ (cascade_sound f) s) as [_ Hg].
  destruct (expression f s) as [p s' | | |]; auto.
  - specialize (Hg _ _ eq_refl). cbn in Hp. lia.
  - destruct (le_lt_dec (10 * remaining s + 10) f) as [Hle | Hlt]; [|exact Hlt].
    exfalso. now apply Hf.
Qed.

(** X10. The exception of a level of the cascade names the token at
    which the parser stands when it arrives: a [runtime_error] carries
    the message made of the line, the column and the text of that token,
    and the exception of [std::stod] comes from a NUMBER token whose text
    it could not read. *)
Theorem level_error_names_token fuel (level : M ptr) s e s' :
  In level (expression fuel :: cascade fuel) ->
  level s = Throw e s' ->
  tokens s' = tokens s /\ names_current e s'.
Proof.
  intros Hin Hthrow.
  assert (Hb : builds level /\ reports level).
  { destruct (cascade_sound fuel), (cascade_reporting fuel).
    unfold cascade in Hin. cbn [In] in Hin.
    repeat (destruct Hin as [<- | Hin]; [split; assumption|]). destruct Hin. }
  destruct Hb as [Hb Hr]. destruct (Hb s) as [Hs _]. specialize (Hr s).
  rewrite Hthrow in Hs, Hr. destruct Hs as (_ & Ht & _). split; [exact Ht | apply Hr].
Qed.

(** X11. A level of the cascade that returns leaves the counter of the
    open parentheses as it found it: every '(' it has counted has met
    its ')'.  One that throws never leaves it lower. *)
Theorem level_parentheses_counter fuel (level : M ptr) s :
  In level (expression fuel :: cascade fuel) ->
  match level s with
  | Ok _ s' => unmatchedParentheses s' = unmatchedParentheses s
  | Throw _ s' => (unmatchedParentheses s <= unmatchedParentheses s')%Z
  | _ => True
  end.
Proof.
  intros Hin.
  assert (Hr : reports level).
  { destruct (cascade_reporting fuel). unfold cascade in Hin. cbn [In] in Hin.
    repeat (destruct Hin as [<- | Hin]; [assumption|]). destruct Hin. }
  specialize (Hr s). destruct (level s); auto. apply Hr.
Qed.

(** X12. When [parse] returns, it stands at a token of type UNKNOWN, the
    END token of the lexer or any other: what follows that token is not
    read.  Every statement of the vector has taken at least one token,
    and the counter of the open parentheses is as it was. *)
Theorem parse_stops_at_unknown s ps s' :
  root s = nullptr ->
  parse s = Ok ps s' ->
  tokens s' = tokens s
  /\ (exists t, tokens s !! currentTokenIndex s' = Some t
                /\ Token.type t = TokenType.UNKNOWN)
  /\ currentTokenIndex s + length ps <= currentTokenIndex s'
  /\ unmatchedParentheses s' = unmatchedParentheses s.
Proof.
  intros Hroot Hok. destruct (parse_report_from s Hroot) as [Hrep _].
  rewrite Hok in Hrep. destruct Hrep as (Ht & _ & Hu & Hp & more & -> & Hlen).
  repeat split; auto.
Qed.

(** X13. The exception of [parse] names the token at which the parser
    stands when it arrives, as the exceptions of the cascade do: the
    handler of [parse] moves neither the token vector nor the index. *)
Theorem parse_error_names_token s e s' :
  root s = nullptr ->
  parse s = Throw e s' ->
  tokens s' = tokens s /\ names_current e s'.
Proof.
  intros Hroot Hthrow. destruct (parse_report_from s Hroot) as [Hrep _].
  rewrite Hthrow in Hrep. destruct Hrep as (Ht & _ & Hn & _). auto.
Qed.

(** X14. What [parse] does with the store: the statements it returns are
    the roots of trees that lie apart from each other, on top of the
    store of before; when it throws, the store is the store of before,
    or the store of before and the tree of one statement. *)
Theorem parse_keeps_store s :
  root s = nullptr -> parse_spec (heap s) s (parse s).
Proof.
  intros Hroot. unfold parse.
  destruct (currentToken_cases s) as [(tok & Hlk & Hc) | Hc];
    [rewrite (bind_Ok _ _ _ _ _ Hc) | now rewrite (bind_Undefined _ _ _ _ Hc)].
  apply (parse_loop_spec _ [] _ ∅ (heap s)).
  - constructor.
  - apply map_disjoint_empty_l.
  - now rewrite map_empty_union.
  - exact Hroot.
  - unfold remaining. lia.
Qed.

(** The vector of a text has an UNKNOWN token ahead of its first token. *)
Lemma tokenize_sentinel input toks lx h :
  Lexer.tokenize input = Some (toks, lx) ->
  exists k, sentinel_ahead (init toks h) k.
Proof.
  intros Hr.
  destruct (TokenStreamFacts.tokenize_last input toks lx Hr) as (front & last & -> & Hty).
  exists (length front), last. split; [|exact Hty].
  cbn. rewrite lookup_app_r by lia. now rewrite Nat.sub_diag.
Qed.

(** X15. Lexer and parser together, on a text of characters below 128
    (where [std::isspace] and [std::isdigit] are defined): [tokenize]
    returns a vector, and [parse] on that vector never reads the vector
    past its end, never follows a null or dead pointer and never deletes
    a node twice.  Within the recursion bound [parse] is given here, ten
    nested calls for every token and ten more, it runs to its end: it
    returns or throws.  The code sets no limit to its recursion, so this
    is what it does on a call stack that holds that many calls. *)
Theorem parse_of_text_finishes input h :
  TokenStream.ascii_text input = true ->
  exists toks lx,
    Lexer.tokenize input = Some (toks, lx)
    /\ finished (parse (init toks h)).
Proof.
  intros _.
  destruct (LexerFacts.tokenize_total input) as ([toks lx] & Hr).
  exists toks, lx. split; [exact Hr|].
  destruct (tokenize_sentinel input toks lx h Hr) as (k & Ha).
  destruct (parse_report_from (init toks h) eq_refl) as [_ Hw].
  specialize (Hw k Ha).
  pose proof (parse_total (init toks h) eq_refl) as Hs.
  destruct (parse (init toks h)); cbn in *; try contradiction; exact I.
Qed.


(** X17. [parse] never assigns the member [root]: whatever [parse] has
    answered, the destructor of the parser finds [root] null and deletes
    nothing.  The trees of the statements [parse] has returned stay in
    the store until their holder calls [clearTree] on them. *)
Theorem destructor_deletes_nothing s :
  root s = nullptr ->
  match parse s with
  | Ok _ s' | Throw _ s' => destructor s' = Ok tt s'
  | _ => True
  end.
Proof.
  intros Hroot. destruct (parse_report_from s Hroot) as [Hrep _].
  destruct (parse s) as [ps s' | e s' | |]; auto.
  - destruct Hrep as (_ & Hr & _). apply clear_root_null. congruence.
  - destruct Hrep as (_ & Hr & _). apply clear_root_null. congruence.
Qed.

(** The loop of [parse] takes a new statement only when the next token
    stands on a later line than the one before did, or is of type
    UNKNOWN, and then it returns. *)
Lemma parse_loop_lines hi : forall fuel ps line s ps' s',
  Forall (fun t => (Token.line t <= hi)%Z) (tokens s) ->
  (line <= hi)%Z ->
  parse_loop fuel ps line s = Ok ps' s' ->
  length ps' <= length ps + Z.to_nat (hi - line) + 1.
Proof.
  induction fuel as [|fuel IH]; intros ps line s ps' s' Hhi Hline Hrun; [discriminate|].
  cbn [parse_loop] in Hrun.
  apply bind_Ok_inv in Hrun as (tok & s0 & Hc & Hrun).
  apply currentToken_Ok_inv in Hc as [-> Hlk].
  destruct (negb _).
  2:{ injection Hrun as <- _. lia. }
  apply bind_Ok_inv in Hrun as (stmt & s1 & He & Hrun).
  apply try_catch_Ok_inv in He; [|intros; apply parse_handler_not_Ok].
  pose proof (built_tokens _ _ _ _ parse_expression_builds He) as Htok.
  apply bind_Ok_inv in Hrun as (cur & s0 & Hc & Hrun).
  apply currentToken_Ok_inv in Hc as [-> Hlk1].
  destruct (is_type TokenType.UNKNOWN (Token.type cur)) eqn:Hcur; cbn [orb negb] in Hrun.
  - destruct fuel as [|fuel]; [discriminate|]. cbn [parse_loop] in Hrun.
    rewrite (bind_Ok _ _ _ _ _ (currentToken_Some _ _ Hlk1)), Hcur in Hrun.
    injection Hrun as <- _. rewrite length_app. cbn. lia.
  - destruct (Token.line cur >? line)%Z eqn:Hgt.
    + apply Z.gtb_lt in Hgt.
      assert (Hcl : (Token.line cur <= hi)%Z).
      { rewrite Forall_forall in Hhi. apply Hhi. rewrite <- Htok.
        eapply list_elem_of_lookup_2. exact Hlk1. }
      apply IH in Hrun; [|now rewrite Htok | exact Hcl].
      rewrite length_app in Hrun. cbn in Hrun. lia.
    + apply bind_Ok_inv in Hrun as (q & s2 & _ & Hrun).
      exfalso. exact (parse_handler_not_Ok _ _ _ _ _ Hrun).
Qed.

(** X18. [parse] returns at most one statement for every line of the
    tokens: when the line numbers of the tokens lie between [lo] and
    [hi], it returns at most [hi - lo + 1] statements.  Tokens of one
    line make at most one statement; a second expression on the line
    makes [parse] throw. *)
Theorem parse_statements_per_line s ps s' lo hi :
  Forall (fun t => (lo <= Token.line t <= hi)%Z) (tokens s) ->
  parse s = Ok ps s' ->
  length ps <= Z.to_nat (hi - lo) + 1.
Proof.
  intros Hlines Hrun. unfold parse in Hrun.
  apply bind_Ok_inv in Hrun as (first & s0 & Hc & Hrun).
  apply currentToken_Ok_inv in Hc as [-> Hlk].
  rewrite Forall_forall in Hlines.
  destruct (Hlines first) as [Hlo Hhi]; [eapply list_elem_of_lookup_2; exact Hlk|].
  apply (parse_loop_lines hi) in Hrun; [| |exact Hhi].
  - cbn [length] in Hrun. lia.
  - apply Forall_forall. intros t Ht. now apply Hlines.
Qed.

(** Below ten, the bound is used up on the way from [expression] down
    to [factor]. *)
Lemma expression_shallow f s : f < 10 -> expression f s = OutOfFuel.
Proof.
  intros Hf.
  do 10 (destruct f as [|f]; [reflexivity|]). lia.
Qed.

(** On a left parenthesis, [expression] has gone through the ten
    functions of the cascade when it calls itself. *)
Lemma expression_descends f s tok :
  tokens s !! currentTokenIndex s = Some tok ->
  Token.type tok = TokenType.LEFT_PAREN ->
  expression f (set_index (S (currentTokenIndex s))
                          (set_parens (unmatchedParentheses s + 1) s)) = OutOfFuel ->
  expression (10 + f) s = OutOfFuel.
Proof.
  intros Hlk Hty Hin.
  assert (Hfac : factor (S f) s = OutOfFuel).
  { cbn [factor]. rewrite (bind_Ok _ _ _ _ _ (currentToken_Some _ _ Hlk)), Hty.
    rewrite bind_Ok with (a := tt) (s' := set_parens (unmatchedParentheses s + 1) s)
      by reflexivity.
    rewrite bind_Ok with (a := tt)
      (s' := set_index (S (currentTokenIndex s))
                       (set_parens (unmatchedParentheses s + 1) s)) by reflexivity.
    now rewrite (bind_OutOfFuel _ _ _ (try_catch_OutOfFuel _ _ _ Hin)). }
  change (10 + f) with (S (S (S (S (S (S (S (S (S (S f)))))))))).
  rewrite expression_S. apply try_catch_OutOfFuel.
  cbn [assignmentExpression]. apply bind_OutOfFuel.
  cbn [logicalOrExpression]. apply bind_OutOfFuel.
  cbn [logicalXorExpression]. apply bind_OutOfFuel.
  cbn [logicalAndExpression]. apply bind_OutOfFuel.
  cbn [equalityExpression]. apply bind_OutOfFuel.
  cbn [relationalExpression]. apply bind_OutOfFuel.
  cbn [additiveExpression]. apply bind_OutOfFuel.
  cbn [multiplicativeExpression]. apply bind_OutOfFuel.
  exact Hfac.
Qed.

(** X22. The recursion of the cascade grows with the nesting of the
    parentheses and nothing in the code limits it: every left
    parenthesis takes ten nested calls, from [expression] down to
    [factor] and into [expression] again.  On [n] left parentheses in a
    row, a call that is allowed at most ten times [n] nested calls has
    used them up before it has read them all. *)
Theorem nesting_takes_depth n : forall f s,
  opens s n -> f <= 10 * n -> expression f s = OutOfFuel.
Proof.
  induction n as [|n IH]; intros f s Hopen Hf.
  - apply expression_shallow. lia.
  - destruct (le_lt_dec 10 f) as [Hge | Hlt]; [|now apply expression_shallow].
    destruct (Hopen 0) as (tok & Hlk & Hty); [lia|].
    rewrite Nat.add_0_r in Hlk.
    replace f with (10 + (f - 10)) by lia.
    apply (expression_descends _ s tok Hlk Hty). apply IH; [|lia].
    intros i Hi. destruct (Hopen (S i)) as (t & Ht & Hty'); [lia|].
    exists t. split; [|exact Hty']. cbn. now rewrite <- Ht, Nat.add_succ_r.
Qed.

End WithNumeric.

Section Witnesses.
Import InfixParser Ownership ParserFacts Progress Reading Decimal.
Local Open Scope list_scope.
Local Open Scope nat_scope.

Lemma level_returns_tree_witness :
  exists p s',
    additiveExpression 30 (init (tokens_of "1 + 2") ∅) = Ok p s'
    /\ exists a hf,
        p = Some a /\ owns hf a /\ hf ##ₘ ∅ /\ heap s' = hf ∪ ∅
        /\ tokens s' = tokens_of "1 + 2"
        /\ 0 < currentTokenIndex s' <= length (tokens_of "1 + 2").
Proof.
  eexists _, _. split; [vm_compute; reflexivity|].
  apply (@level_returns_tree Decimal.numeric Decimal.reader 30
           (additiveExpression 30) (init (tokens_of "1 + 2") ∅)).
  - do 7 right. left. reflexivity.
  - vm_compute. reflexivity.
Defined.

Lemma clearTree_frees_tree_witness :
  exists p s1,
    additiveExpression 30 (init (tokens_of "1 + 2") ∅) = Ok (Some p) s1
    /\ exists s',
        clearTree (Some p) s1 = Ok nullptr s'
        /\ heap s' = ∅ /\ same_parser s1 s'
        /\ allocations (trace s') = allocations (trace s1).
Proof.
  destruct (cb_additive 30 (cascade_sound 30) (init (tokens_of "1 + 2") ∅)) as [Hs _].
  destruct (additiveExpression 30 (init (tokens_of "1 + 2") ∅)) as [p s1 | | |] eqn:Hrun;
    try (exfalso; vm_compute in Hrun; discriminate).
  destruct Hs as (a & hf & -> & Ho & Hd & Hh & _).
  exists a, s1. split; [reflexivity|].
  apply (@clearTree_frees_tree Decimal.numeric hf a ∅ s1 Ho Hd Hh).
Defined.

Lemma expression_stops_at_unknown_witness :
  match expression 40 (init (tokens_of "1 + 2") ∅) with
  | Ok _ s' => 0 < currentTokenIndex s' <= 0 + 3
  | Throw _ _ => True
  | Undefined _ => False
  | OutOfFuel => 40 < 10 * remaining (init (tokens_of "1 + 2") ∅) + 10
  end.
Proof.
  apply (@expression_stops_at_unknown Decimal.numeric Decimal.reader 40
           (init (tokens_of "1 + 2") ∅) 3).
  eexists. split; [vm_compute; reflexivity | reflexivity].
Defined.

Lemma level_error_names_token_witness :
  exists e s',
    additiveExpression 30 (init (tokens_of "1 + )") ∅) = Throw e s'
    /\ tokens s' = tokens_of "1 + )" /\ names_current e s'.
Proof.
  eexists _, _. split; [vm_compute; reflexivity|].
  apply (@level_error_names_token Decimal.numeric Decimal.reader 30
           (additiveExpression 30) (init (tokens_of "1 + )") ∅)).
  - do 7 right. left. reflexivity.
  - vm_compute. reflexivity.
Defined.

Lemma level_parentheses_counter_witness :
  match factor 30 (init (tokens_of "(1 + 2)") ∅) with
  | Ok _ s' => unmatchedParentheses s' = 0%Z
  | Throw _ s' => (0 <= unmatchedParentheses s')%Z
  | _ => True
  end.
Proof.
  apply (@level_parentheses_counter Decimal.numeric Decimal.reader 30
           (factor 30) (init (tokens_of "(1 + 2)") ∅)).
  do 9 right. left. reflexivity.
Defined.

Lemma parse_stops_at_unknown_witness :
  exists ps s',
    parse (init (tokens_of "1 + 2") ∅) = Ok ps s'
    /\ tokens s' = tokens_of "1 + 2"
    /\ (exists t, tokens_of "1 + 2" !! currentTokenIndex s' = Some t
                  /\ Token.type t = TokenType.UNKNOWN)
    /\ 0 + length ps <= currentTokenIndex s'
    /\ unmatchedParentheses s' = 0%Z.
Proof.
  eexists _, _. split; [vm_compute; reflexivity|].
  apply (@parse_stops_at_unknown Decimal.numeric Decimal.reader
           (init (tokens_of "1 + 2") ∅)).
  - reflexivity.
  - vm_compute. reflexivity.
Defined.

Lemma parse_error_names_token_witness :
  exists e s',
    parse (init (tokens_of "1 2") ∅) = Throw e s'
    /\ tokens s' = tokens_of "1 2" /\ names_current e s'.
Proof.
  eexists _, _. split; [vm_compute; reflexivity|].
  apply (@parse_error_names_token Decimal.numeric Decimal.reader
           (init (tokens_of "1 2") ∅)).
  - reflexivity.
  - vm_compute. reflexivity.
Defined.

Lemma parse_keeps_store_witness :
  parse_spec ∅ (init (tokens_of "1 + 2") ∅) (parse (init (tokens_of "1 + 2") ∅)).
Proof.
  apply (@parse_keeps_store Decimal.numeric Decimal.reader (init (tokens_of "1 + 2") ∅)).
  reflexivity.
Defined.


Lemma destructor_deletes_nothing_witness :
  match parse (init (tokens_of "1 + 2") ∅) with
  | Ok _ s' | Throw _ s' => destructor s' = Ok tt s'
  | _ => True
  end.
Proof.
  apply (@destructor_deletes_nothing Decimal.numeric Decimal.reader
           (init (tokens_of "1 + 2") ∅)).
  reflexivity.
Defined.

Lemma parse_statements_per_line_witness :
  exists ps s',
    parse (init (tokens_of ("1 + 2" ++ String Lexer.newline "3")%string) ∅) = Ok ps s'
    /\ length ps <= Z.to_nat (2 - 1) + 1.
Proof.
  eexists _, _. split; [vm_compute; reflexivity|].
  eapply (@parse_statements_per_line Decimal.numeric Decimal.reader
            (init (tokens_of ("1 + 2" ++ String Lexer.newline "3")%string) ∅)
            _ _ 1%Z 2%Z).
  - repeat constructor; vm_compute; discriminate.
  - vm_compute. reflexivity.
Defined.
Lemma parse_of_text_finishes_witness :
  exists toks lx,
    Lexer.tokenize "1 + (2 * 3)" = Some (toks, lx)
    /\ finished (parse (init toks ∅)).
Proof.
  apply (@parse_of_text_finishes Decimal.numeric Decimal.reader "1 + (2 * 3)" ∅).
  reflexivity.
Defined.

Lemma nesting_takes_depth_witness :
  expression 20 (init (tokens_of "((1))") ∅) = OutOfFuel.
Proof.
  apply (@nesting_takes_depth Decimal.numeric Decimal.reader 2 20
           (init (tokens_of "((1))") ∅)).
  - intros i Hi. destruct i as [|[|i]]; [eexists; split; reflexivity ..|lia].
  - lia.
Defined.
End Witnesses.
End ProgressFacts.

(** ** The trees read as the tokens *)

Module FringeFacts.
Section WithNumeric.
Context {num : Numeric} {rd : Stod}.
Import InfixParser Ownership Reading ParserFacts ParseFacts ProgressFacts Fringe.
Local Open Scope list_scope.
Local Open Scope nat_scope.

Lemma slice_app (toks : list Token.t) i j k :
  i <= j -> j <= k -> slice toks i j ++ slice toks j k = slice toks i k.
Proof.
  intros Hij Hjk. unfold slice.
  replace (k - i) with ((j - i) + (k - j)) by lia.
  rewrite <- take_take_drop, drop_drop.
  now replace (i + (j - i)) with j by lia.
Qed.

Lemma slice_one (toks : list Token.t) i tok :
  toks !! i = Some tok -> slice toks i (S i) = [tok].
Proof.
  intros Hlk. unfold slice. replace (S i - i) with 1 by lia.
  rewrite (drop_S _ _ _ Hlk). reflexivity.
Qed.

Lemma slice_nil (toks : list Token.t) i : slice toks i i = [].
Proof. unfold slice. now rewrite Nat.sub_diag. Qed.

Lemma items_app a b : items (a ++ b) = items a ++ items b.
Proof. unfold items. apply flat_map_app. Qed.

Lemma items_one tok : items [tok] = item_of tok.
Proof. unfold items. cbn. apply app_nil_r. Qed.

(** A tree that can be read is read the same with more fuel and in a
    larger store. *)
Lemma read_tree_weaken : forall f f' (h h' : gmap addr Node.t) p t,
  f <= f' -> h ⊆ h' ->
  read_tree f h p = Some t -> read_tree f' h' p = Some t.
Proof.
  induction f as [|f IH]; intros f' h h' p t Hf Hh Hr; [discriminate|].
  destruct f' as [|f']; [lia|]. destruct p as [a|]; [|discriminate].
  cbn [read_tree] in *.
  destruct (h !! a) as [n|] eqn:Hn; [|discriminate].
  rewrite (lookup_weaken _ _ _ _ Hn Hh).
  destruct (mapM (read_tree f h) (Node.children n)) as [kids|] eqn:Hk; [|discriminate].
  assert (Hk' : mapM (read_tree f' h') (Node.children n) = Some kids).
  { apply mapM_Some. apply mapM_Some in Hk.
    eapply Forall2_impl; [exact Hk|]. intros q u Hq. cbn in Hq.
    apply (IH f' h h'); [lia | exact Hh | exact Hq]. }
  now rewrite Hk'.
Qed.

Lemma tree_at_weaken (h h' : gmap addr Node.t) p t :
  h ⊆ h' -> tree_at h p = Some t -> tree_at h' p = Some t.
Proof.
  intros Hh. unfold tree_at. apply read_tree_weaken; [|exact Hh].
  apply le_n_S. now apply map_subseteq_size.
Qed.

Lemma read_tree_S f (h : gmap addr Node.t) a n kids :
  h !! a = Some n ->
  mapM (read_tree f h) (Node.children n) = Some kids ->
  read_tree (S f) h (Some a)
  = Some (Tree (Node.type n) (Node.value n) (Node.name n) kids).
Proof. intros Hn Hk. cbn [read_tree]. now rewrite Hn, Hk. Qed.

Lemma tree_at_leaf (h : gmap addr Node.t) a n :
  Node.children n = [] ->
  tree_at (<[a := n]> h) (Some a)
  = Some (Tree (Node.type n) (Node.value n) (Node.name n) []).
Proof.
  intros Hn. unfold tree_at. apply read_tree_S; [apply lookup_insert_eq|].
  now rewrite Hn.
Qed.

Lemma tree_at_binary (h : gmap addr Node.t) a n l r tl tr :
  Node.children n = [l; r] -> h !! a = None ->
  tree_at h l = Some tl -> tree_at h r = Some tr ->
  tree_at (<[a := n]> h) (Some a)
  = Some (Tree (Node.type n) (Node.value n) (Node.name n) [tl; tr]).
Proof.
  intros Hn Ha Hl Hr. unfold tree_at in *.
  rewrite (map_size_insert_None _ _ _ Ha).
  assert (Hsub : h ⊆ <[a := n]> h) by now apply insert_subseteq.
  apply read_tree_S; [apply lookup_insert_eq|].
  rewrite Hn. apply mapM_Some.
  repeat constructor; eapply read_tree_weaken; eauto.
Qed.

(** The loop of a level keeps the reading: each turn adds the operator
    and the operand it has read. *)
Lemma left_assoc_loop_spells is_op node_type operand :
  (forall ty, is_op ty = true -> operator_node ty = Some (node_type ty)) ->
  (forall ty, is_op ty = true ->
     match ty with
     | TokenType.NUMBER | TokenType.IDENTIFIER | TokenType.BOOLEAN_TRUE
     | TokenType.BOOLEAN_FALSE => False
     | _ => True
     end) ->
  builds operand -> spells operand ->
  forall fuel a t i0 s p s',
    tree_at (heap s) (Some a) = Some t ->
    fringe t = items (slice (tokens s) i0 (currentTokenIndex s)) ->
    i0 <= currentTokenIndex s ->
    left_assoc_loop is_op node_type operand fuel (Some a) s = Ok p s' ->
    exists t', tree_at (heap s') p = Some t'
               /\ fringe t' = items (slice (tokens s) i0 (currentTokenIndex s')).
Proof.
  intros Hnode Hkind Hb Hsp.
  induction fuel as [|fuel IH]; intros a t i0 s p s' Ht Hfr Hi0 Hrun; [discriminate|].
  cbn [left_assoc_loop] in Hrun.
  apply bind_Ok_inv in Hrun as (op & s0 & Hc & Hrun).
  apply currentToken_Ok_inv in Hc as [-> Hlk].
  destruct (is_op (Token.type op)) eqn:Hisop.
  2:{ injection Hrun as <- <-. eauto. }
  apply bind_Ok_inv in Hrun as ([] & s1 & Hn & Hrun). injection Hn as <-.
  set (s1 := set_index (S (currentTokenIndex s)) s) in *.
  apply bind_Ok_inv in Hrun as (right & s2 & Hop & Hrun).
  apply try_catch_Ok_inv in Hop; [|intros; apply teardown_not_Ok].
  destruct (Hb s1) as [Hspec Hgrow]. rewrite Hop in Hspec. specialize (Hgrow _ _ Hop).
  destruct Hspec as (ar & hr & -> & _ & Hdr & Hhr & Htok & _ & Hidx).
  destruct (Hsp s1 _ _ Hop) as (tr & Htr & Hfr').
  cbn [heap tokens currentTokenIndex set_index s1] in Hdr, Hhr, Htok, Hidx, Hgrow, Hfr'.
  rewrite new_binary in Hrun.
  set (a' := fresh (dom (heap s2))) in *.
  set (n' := Node.mk (node_type (Token.type op)) (double_of_int 0) "" [Some a; Some ar]) in *.
  set (s3 := set_store _ _ s2) in *.
  assert (Hsub : heap s ⊆ heap s2).
  { rewrite Hhr. now apply map_union_subseteq_r. }
  assert (Ht3 : tree_at (heap s3) (Some a')
                = Some (Tree (node_type (Token.type op)) (double_of_int 0) "" [t; tr])).
  { apply (tree_at_binary (heap s2) a' n' (Some a) (Some ar)); auto.
    - apply fresh_None.
    - now apply (tree_at_weaken (heap s)). }
  destruct (IH a' _ i0 s3 p s' Ht3) as (t' & Ht' & Hfr''); auto.
  - cbn [fringe tokens currentTokenIndex s3 set_store]. rewrite Htok.
    rewrite <- (slice_app (tokens s) i0 (currentTokenIndex s) (currentTokenIndex s2))
      by lia.
    rewrite <- (slice_app (tokens s) (currentTokenIndex s) (S (currentTokenIndex s))
                  (currentTokenIndex s2)) by lia.
    rewrite (slice_one _ _ _ Hlk), !items_app, items_one, Hfr, Hfr'.
    f_equal. pose proof (Hkind _ Hisop) as Hk. pose proof (Hnode _ Hisop) as Hn'.
    unfold item_of. destruct (Token.type op); try contradiction; now rewrite Hn'.
  - cbn. lia.
  - exists t'. split; [exact Ht'|]. cbn [tokens s3 set_store] in Hfr''.
    now rewrite Htok in Hfr''.
Qed.

Lemma left_assoc_level_spells is_op node_type operand fuel :
  (forall ty, is_op ty = true -> operator_node ty = Some (node_type ty)) ->
  (forall ty, is_op ty = true ->
     match ty with
     | TokenType.NUMBER | TokenType.IDENTIFIER | TokenType.BOOLEAN_TRUE
     | TokenType.BOOLEAN_FALSE => False
     | _ => True
     end) ->
  builds operand -> spells operand ->
  spells (bind operand (left_assoc_loop is_op node_type operand fuel)).
Proof.
  intros Hnode Hkind Hb Hsp s p s' Hrun.
  apply bind_Ok_inv in Hrun as (node & s1 & Hop & Hrun).
  destruct (Hb s) as [Hspec Hgrow]. rewrite Hop in Hspec. specialize (Hgrow _ _ Hop).
  destruct Hspec as (a & hf & -> & _ & _ & _ & Htok & _ & Hidx).
  destruct (Hsp s _ _ Hop) as (t & Ht & Hfr).
  destruct (left_assoc_loop_spells is_op node_type operand Hnode Hkind Hb Hsp
              fuel a t (currentTokenIndex s) s1 p s' Ht) as (t' & Ht' & Hfr'); auto.
  - now rewrite Htok.
  - lia.
  - exists t'. split; [exact Ht'|]. now rewrite Htok in Hfr'.
Qed.

Lemma leaf_spells (n : Node.t) s tok p s' :
  Node.children n = [] ->
  tokens s !! currentTokenIndex s = Some tok ->
  item_of tok = [Leaf (Node.type n) (Node.value n) (Node.name n)] ->
  bind (new_Node n) (fun node => bind next_token (fun _ => ret node)) s = Ok p s' ->
  exists t, tree_at (heap s') p = Some t
            /\ fringe t = items (slice (tokens s) (currentTokenIndex s)
                                       (currentTokenIndex s')).
Proof.
  intros Hn Hlk Hitem [= <- <-]. cbn [heap set_index set_store currentTokenIndex].
  eexists. split; [now apply tree_at_leaf|].
  cbn [fringe]. now rewrite (slice_one _ _ _ Hlk), items_one.
Qed.

Lemma factor_spells f :
  builds (expression f) -> spells (expression f) -> spells (factor (S f)).
Proof.
  intros Hb Hsp s p s' Hrun. cbn [factor] in Hrun.
  apply bind_Ok_inv in Hrun as (tok & s0 & Hc & Hrun).
  apply currentToken_Ok_inv in Hc as [-> Hlk].
  destruct (Token.type tok) eqn:Hty;
    try (exfalso; exact (handler_not_Ok _ _ _ _ _ Hrun)).
  - (* NUMBER *)
    destruct (stod (Token.value tok)) as [v|] eqn:Hst;
      [|exfalso; exact (handler_not_Ok _ _ _ _ _ Hrun)].
    eapply (leaf_spells _ s tok p s'); [|exact Hlk| |exact Hrun];
      [reflexivity | unfold item_of; now rewrite Hty, Hst].
  - (* IDENTIFIER *)
    eapply (leaf_spells _ s tok p s'); [|exact Hlk| |exact Hrun];
      [reflexivity | unfold item_of; now rewrite Hty].
  - (* BOOLEAN_TRUE *)
    eapply (leaf_spells _ s tok p s'); [|exact Hlk| |exact Hrun];
      [reflexivity | unfold item_of; now rewrite Hty].
  - (* BOOLEAN_FALSE *)
    eapply (leaf_spells _ s tok p s'); [|exact Hlk| |exact Hrun];
      [reflexivity | unfold item_of; now rewrite Hty].
  - (* LEFT_PAREN *)
    apply bind_Ok_inv in Hrun as ([] & s1 & Hn & Hrun). injection Hn as <-.
    apply bind_Ok_inv in Hrun as ([] & s1 & Hn & Hrun). injection Hn as <-.
    set (s1 := set_index _ _) in *.
    apply bind_Ok_inv in Hrun as (node & s2 & He & Hrun).
    apply try_catch_Ok_inv in He; [|intros; apply handler_not_Ok].
    change (expression f s1 = Ok node s2) in He.
    destruct (Hb s1) as [Hspec Hgrow]. rewrite He in Hspec. specialize (Hgrow _ _ He).
    destruct Hspec as (a & hf & -> & _ & _ & _ & Htok & _ & Hidx).
    destruct (Hsp s1 _ _ He) as (t & Ht & Hfr).
    cbn [tokens currentTokenIndex set_index set_parens s1] in Htok, Hidx, Hgrow, Hfr.
    apply bind_Ok_inv in Hrun as (cur & s0 & Hc & Hrun).
    apply currentToken_Ok_inv in Hc as [-> Hlk2].
    destruct (is_type TokenType.RIGHT_PAREN (Token.type cur)) eqn:Hrp; cbn [negb] in Hrun.
    2:{ apply bind_Ok_inv in Hrun as (q & s0 & _ & Hrun).
        exfalso. exact (handler_not_Ok _ _ _ _ _ Hrun). }
    injection Hrun as <- <-. cbn [heap tokens currentTokenIndex set_index set_parens].
    exists t. split; [exact Ht|]. rewrite Hfr.
    rewrite <- (slice_app (tokens s) (currentTokenIndex s) (S (currentTokenIndex s))
                  (S (currentTokenIndex s2))) by lia.
    rewrite <- (slice_app (tokens s) (S (currentTokenIndex s)) (currentTokenIndex s2)
                  (S (currentTokenIndex s2))) by lia.
    rewrite Htok in Hlk2.
    rewrite (slice_one _ _ _ Hlk), (slice_one _ _ _ Hlk2), !items_app, !items_one.
    apply is_type_true in Hrp.
    unfold item_of. rewrite Hty, Hrp. cbn. now rewrite app_nil_r.
Qed.

Lemma assignmentExpression_spells f :
  builds (logicalOrExpression f) -> builds (assignmentExpression f) ->
  spells (logicalOrExpression f) -> spells (assignmentExpression f) ->
  spells (assignmentExpression (S f)).
Proof.
  intros Hbor Hbas Hsor Hsas s p s' Hrun. cbn [assignmentExpression] in Hrun.
  apply bind_Ok_inv in Hrun as (node & s1 & Hl & Hrun).
  change (logicalOrExpression f s = Ok node s1) in Hl.
  destruct (Hbor s) as [Hspec Hgrow]. rewrite Hl in Hspec. specialize (Hgrow _ _ Hl).
  destruct Hspec as (a & hf & -> & _ & _ & _ & Htok & _ & Hidx).
  destruct (Hsor s _ _ Hl) as (t & Ht & Hfr).
  apply bind_Ok_inv in Hrun as (op & s0 & Hc & Hrun).
  apply currentToken_Ok_inv in Hc as [-> Hlk].
  destruct (is_type TokenType.ASSIGN (Token.type op)) eqn:Hasg.
  2:{ injection Hrun as <- <-. eauto. }
  apply bind_Ok_inv in Hrun as (nd & s0 & Hld & Hrun).
  destruct (negb _).
  { apply bind_Ok_inv in Hrun as (q & s4 & _ & Hrun).
    exfalso. exact (teardown_not_Ok _ _ _ _ _ _ Hrun). }
  assert (s0 = s1) as ->.
  { unfold load in Hld. destruct (heap s1 !! a); [|discriminate]. now injection Hld. }
  apply bind_Ok_inv in Hrun as ([] & s2 & Hn & Hrun). injection Hn as <-.
  set (s2 := set_index _ _) in *.
  apply bind_Ok_inv in Hrun as (valueNode & s3 & Hv & Hrun).
  apply try_catch_Ok_inv in Hv; [|intros; apply teardown_not_Ok].
  change (assignmentExpression f s2 = Ok valueNode s3) in Hv.
  destruct (Hbas s2) as [Hs2 Hg2]. rewrite Hv in Hs2. specialize (Hg2 _ _ Hv).
  destruct Hs2 as (ar & hr & -> & _ & Hdr & Hhr & Htok3 & _ & Hidx3).
  destruct (Hsas s2 _ _ Hv) as (tv & Htv & Hfrv).
  cbn [heap tokens currentTokenIndex set_index s2] in Hdr, Hhr, Htok3, Hidx3, Hg2, Hfrv.
  rewrite new_binary in Hrun. injection Hrun as <- <-.
  cbn [heap tokens currentTokenIndex set_store].
  eexists. split.
  - apply (tree_at_binary (heap s3) _ _ (Some a) (Some ar)); auto.
    + apply fresh_None.
    + apply (tree_at_weaken (heap s1)); [|exact Ht].
      rewrite Hhr. now apply map_union_subseteq_r.
    + exact Htv.
  - cbn [fringe Node.type Node.children Node.value Node.name]. rewrite Hfr, Hfrv, Htok.
    rewrite <- (slice_app (tokens s) (currentTokenIndex s) (currentTokenIndex s1)
                  (currentTokenIndex s3)) by lia.
    rewrite <- (slice_app (tokens s) (currentTokenIndex s1) (S (currentTokenIndex s1))
                  (currentTokenIndex s3)) by lia.
    rewrite Htok in Hlk.
    rewrite (slice_one _ _ _ Hlk), !items_app, items_one.
    apply is_type_true in Hasg.
    unfold item_of. rewrite Hasg. reflexivity.
Qed.

Lemma expression_spells f :
  spells (assignmentExpression f) -> spells (expression (S f)).
Proof.
  intros Hsas s p s' Hrun. rewrite expression_S in Hrun.
  apply try_catch_Ok_inv in Hrun; [|intros; apply handler_not_Ok].
  now apply Hsas.
Qed.

Lemma cascade_reading : forall f, cascade_spells f.
Proof.
  induction f as [|f IH].
  - split; intros s p s' Hrun; discriminate.
  - destruct IH. destruct (cascade_sound f). split.
    + now apply expression_spells.
    + now apply assignmentExpression_spells.
    + apply (left_assoc_level_spells _ _ (logicalXorExpression f) f); auto;
        intros []; cbn; try discriminate; auto.
    + apply (left_assoc_level_spells _ _ (logicalAndExpression f) f); auto;
        intros []; cbn; try discriminate; auto.
    + apply (left_assoc_level_spells _ _ (equalityExpression f) f); auto;
        intros []; cbn; try discriminate; auto.
    + apply (left_assoc_level_spells _ _ (relationalExpression f) f); auto;
        intros []; cbn; try discriminate; auto.
    + apply (left_assoc_level_spells _ _ (additiveExpression f) f); auto;
        intros []; cbn; try discriminate; auto.
    + apply (left_assoc_level_spells _ _ (multiplicativeExpression f) f); auto;
        intros []; cbn; try discriminate; auto.
    + apply (left_assoc_level_spells _ _ (factor f) f); auto;
        intros []; cbn; try discriminate; auto.
    + now apply factor_spells.
Qed.

Lemma item_of_lexical tok :
  TokenStream.lexical (Token.type tok) = true ->
  Forall (fun i => arithmetic i = true) (item_of tok).
Proof.
  unfold item_of. destruct (Token.type tok); try discriminate; intros _; cbn;
    try destruct (stod (Token.value tok)); repeat constructor.
Qed.

Lemma items_lexical toks :
  Forall (fun tok => TokenStream.lexical (Token.type tok) = true) toks ->
  Forall (fun i => arithmetic i = true) (items toks).
Proof.
  induction 1 as [|tok toks Htok _ IH]; [constructor|].
  unfold items. cbn [flat_map]. apply Forall_app. split; [|exact IH].
  now apply item_of_lexical.
Qed.

(** ** The statements of [parse] *)

Lemma trees_snoc (h h' : gmap addr Node.t) ps ts p t :
  h ⊆ h' ->
  mapM (tree_at h) ps = Some ts -> tree_at h' p = Some t ->
  mapM (tree_at h') (ps ++ [p]) = Some (ts ++ [t]).
Proof.
  intros Hh Hps Hp. apply mapM_Some. apply mapM_Some in Hps.
  apply Forall2_app.
  - eapply Forall2_impl; [exact Hps|]. intros q u Hq. now apply (tree_at_weaken h).
  - repeat constructor. exact Hp.
Qed.

Lemma parse_loop_spells : forall fuel ps line i0 s ts ps' s',
  mapM (tree_at (heap s)) ps = Some ts ->
  flat_map fringe ts = items (slice (tokens s) i0 (currentTokenIndex s)) ->
  i0 <= currentTokenIndex s ->
  parse_loop fuel ps line s = Ok ps' s' ->
  exists ts',
    mapM (tree_at (heap s')) ps' = Some ts'
    /\ flat_map fringe ts' = items (slice (tokens s) i0 (currentTokenIndex s')).
Proof.
  induction fuel as [|fuel IH]; intros ps line i0 s ts ps' s' Hts Hfr Hi0 Hrun;
    [discriminate|].
  cbn [parse_loop] in Hrun.
  apply bind_Ok_inv in Hrun as (tok & s0 & Hc & Hrun).
  apply currentToken_Ok_inv in Hc as [-> Hlk].
  destruct (negb _).
  2:{ injection Hrun as <- <-. eauto. }
  apply bind_Ok_inv in Hrun as (stmt & s1 & He & Hrun).
  apply try_catch_Ok_inv in He; [|intros; apply parse_handler_not_Ok].
  destruct (parse_expression_builds s) as [Hspec Hgrow].
  rewrite He in Hspec. specialize (Hgrow _ _ He).
  destruct Hspec as (a & hf & -> & _ & Hd & Hh1 & Htok & _ & Hidx).
  destruct (sp_expression _ (cascade_reading (cascade_fuel s)) s _ _ He)
    as (t & Ht & Hft).
  apply bind_Ok_inv in Hrun as (cur & s0 & Hc & Hrun).
  apply currentToken_Ok_inv in Hc as [-> Hlk1].
  destruct (_ || _).
  - assert (H1 : mapM (tree_at (heap s1)) (ps ++ [Some a]) = Some (ts ++ [t])).
    { apply (trees_snoc (heap s)); auto.
      rewrite Hh1. now apply map_union_subseteq_r. }
    assert (H2 : flat_map fringe (ts ++ [t])
                 = items (slice (tokens s1) i0 (currentTokenIndex s1))).
    { rewrite flat_map_app, Hfr, Htok. cbn [flat_map]. rewrite app_nil_r, Hft.
      rewrite <- items_app. f_equal. apply slice_app; lia. }
    destruct (IH _ _ i0 s1 _ ps' s' H1 H2 ltac:(lia) Hrun) as (ts' & Hts' & Hfr').
    exists ts'. split; [exact Hts'|]. now rewrite Htok in Hfr'.
  - apply bind_Ok_inv in Hrun as (q & s2 & _ & Hrun).
    exfalso. exact (parse_handler_not_Ok _ _ _ _ _ Hrun).
Qed.

(** X19. The tree a level of the cascade returns reads, from left to
    right, as the tokens the call has read: every literal and identifier
    is a leaf with its value or its name, every operator token is the
    node of its type between its two operands, and the parentheses leave
    no node.  No token is dropped, doubled or moved. *)
Theorem level_tree_spells_tokens fuel (level : M ptr) s p s' :
  In level (expression fuel :: cascade fuel) ->
  level s = Ok p s' ->
  exists t,
    tree_at (heap s') p = Some t
    /\ fringe t = items (slice (tokens s) (currentTokenIndex s) (currentTokenIndex s')).
Proof.
  intros Hin Hok.
  assert (Hsp : spells level).
  { destruct (cascade_reading fuel). unfold cascade in Hin. cbn [In] in Hin.
    repeat (destruct Hin as [<- | Hin]; [assumption|]). destruct Hin. }
  now apply Hsp.
Qed.
(** X20. The statements [parse] returns read, one after the other and
    each from left to right, as the tokens from the one [parse] began at
    up to the UNKNOWN token it stopped at: no token of the statements is
    dropped, doubled or moved, and the parentheses leave no node. *)
Theorem parse_trees_spell_tokens s ps s' :
  parse s = Ok ps s' ->
  exists ts,
    mapM (tree_at (heap s')) ps = Some ts
    /\ flat_map fringe ts
       = items (slice (tokens s) (currentTokenIndex s) (currentTokenIndex s')).
Proof.
  intros Hrun. unfold parse in Hrun.
  apply bind_Ok_inv in Hrun as (first & s0 & Hc & Hrun).
  apply currentToken_Ok_inv in Hc as [-> Hlk].
  eapply (parse_loop_spells _ [] _ (currentTokenIndex s) s [] ps s' eq_refl);
    [now rewrite slice_nil | lia | exact Hrun].
Qed.
(** X21. Lexer and parser together only make arithmetic: the statements
    [parse] returns on the token vector of a text read, from left to
    right, as NUMBER leaves and ADD, SUBTRACT, MULTIPLY and DIVIDE nodes.
    The levels of assignment, of the logical operators, of equality and
    of the relations, and the identifier and boolean branches of
    [factor], never make a node of a text. *)
Theorem text_trees_are_arithmetic input toks lx h ps s' :
  Lexer.tokenize input = Some (toks, lx) ->
  parse (init toks h) = Ok ps s' ->
  exists ts,
    mapM (tree_at (heap s')) ps = Some ts
    /\ Forall (fun i => arithmetic i = true) (flat_map fringe ts).
Proof.
  intros Hlex Hrun. unfold parse in Hrun.
  apply bind_Ok_inv in Hrun as (first & s0 & Hc & Hrun).
  apply currentToken_Ok_inv in Hc as [-> Hlk].
  apply (parse_loop_spells _ [] _ 0 (init toks h) []) in Hrun as (ts & Hts & Hfr);
    [|reflexivity | now rewrite slice_nil | cbn; lia].
  exists ts. split; [exact Hts|]. rewrite Hfr. apply items_lexical.
  unfold slice. apply Forall_take, Forall_drop.
  exact (TokenStreamFacts.tokenize_all_lexical _ _ _ Hlex).
Qed.
End WithNumeric.

Section Witnesses.
Import InfixParser Ownership ParserFacts Reading Decimal Fringe.
Local Open Scope list_scope.
Local Open Scope nat_scope.

Lemma level_tree_spells_tokens_witness :
  exists p s',
    expression 40 (init (tokens_of "(1 + 2) * 3") ∅) = Ok p s'
    /\ exists t,
        tree_at (heap s') p = Some t
        /\ fringe t = [Leaf NodeType.NUMBER (Decimal.mk 1 0) ""; Operator NodeType.ADD;
                       Leaf NodeType.NUMBER (Decimal.mk 2 0) "";
                       Operator NodeType.MULTIPLY;
                       Leaf NodeType.NUMBER (Decimal.mk 3 0) ""].
Proof.
  eexists _, _. split; [vm_compute; reflexivity|].
  match goal with
  | |- exists t, tree_at (heap ?s') ?p = _ /\ _ =>
      destruct (@level_tree_spells_tokens Decimal.numeric Decimal.reader 40
                  (expression 40) (init (tokens_of "(1 + 2) * 3") ∅) p s')
        as (t & Ht & Hf)
  end.
  - left. reflexivity.
  - vm_compute. reflexivity.
  - exists t. split; [exact Ht|]. rewrite Hf. vm_compute. reflexivity.
Defined.
Lemma parse_trees_spell_tokens_witness :
  exists ps s',
    parse (init (tokens_of ("1 + 2" ++ String Lexer.newline "(3)")%string) ∅) = Ok ps s'
    /\ exists ts,
        mapM (tree_at (heap s')) ps = Some ts
        /\ flat_map fringe ts
           = [Leaf NodeType.NUMBER (Decimal.mk 1 0) ""; Operator NodeType.ADD;
              Leaf NodeType.NUMBER (Decimal.mk 2 0) "";
              Leaf NodeType.NUMBER (Decimal.mk 3 0) ""].
Proof.
  eexists _, _. split; [vm_compute; reflexivity|].
  match goal with
  | |- exists ts, mapM (tree_at (heap ?s')) ?ps = _ /\ _ =>
      destruct (@parse_trees_spell_tokens Decimal.numeric Decimal.reader
                  (init (tokens_of ("1 + 2" ++ String Lexer.newline "(3)")%string) ∅)
                  ps s')
        as (ts & Ht & Hf)
  end.
  - vm_compute. reflexivity.
  - exists ts. split; [exact Ht|]. rewrite Hf. vm_compute. reflexivity.
Defined.
Lemma text_trees_are_arithmetic_witness :
  exists ps s',
    parse (init (tokens_of "(1 + 2) * 3") ∅) = Ok ps s'
    /\ exists ts,
        mapM (tree_at (heap s')) ps = Some ts
        /\ Forall (fun i => arithmetic i = true) (flat_map fringe ts).
Proof.
  eexists _, _. split; [vm_compute; reflexivity|].
  eapply (@text_trees_are_arithmetic Decimal.numeric Decimal.reader "(1 + 2) * 3" _ _ ∅).
  - vm_compute. reflexivity.
  - vm_compute. reflexivity.
Defined.
End Witnesses.
End FringeFacts.

(** ** Properties of the cascade when the free store can run out *)

Module ExhaustionFacts.
Section WithNumeric.
Context {num : Numeric} {rd : Stod}.
Import InfixParser Ownership ParserFacts Exhaustion.
Local Open Scope list_scope.
Local Open Scope nat_scope.

Lemma then_Done {A B} (c : MM A) (k : A -> MM B) m a m' :
  c m = Done a m' -> then' c k m = k a m'.
Proof. unfold then'. now intros ->. Qed.

Lemma then_Thrown {A B} (c : MM A) (k : A -> MM B) m t m' :
  c m = Thrown t m' -> then' c k m = Thrown t m'.
Proof. unfold then'. now intros ->. Qed.

Lemma then_Undef {A B} (c : MM A) (k : A -> MM B) m u :
  c m = Undef u -> then' c k m = Undef u.
Proof. unfold then'. now intros ->. Qed.

Lemma then_Deep {A B} (c : MM A) (k : A -> MM B) m :
  c m = Deep -> then' c k m = Deep.
Proof. unfold then'. now intros ->. Qed.

Lemma try_Done {A} (c : MM A) handler m a m' :
  c m = Done a m' -> try_catch' c handler m = Done a m'.
Proof. unfold try_catch'. now intros ->. Qed.

Lemma try_Thrown {A} (c : MM A) handler m t m' :
  c m = Thrown t m' -> try_catch' c handler m = handler t m'.
Proof. unfold try_catch'. now intros ->. Qed.

Lemma try_Undef {A} (c : MM A) handler m u :
  c m = Undef u -> try_catch' c handler m = Undef u.
Proof. unfold try_catch'. now intros ->. Qed.

Lemma try_Deep {A} (c : MM A) handler m :
  c m = Deep -> try_catch' c handler m = Deep.
Proof. unfold try_catch'. now intros ->. Qed.

Lemma lift_Ok {A} (c : M A) s g a s' :
  c s = Ok a s' -> lift c (mkMachine s g) = Done a (mkMachine s' g).
Proof. unfold lift. cbn. now intros ->. Qed.

(** A request is granted or refused, and the parser is as it was. *)
Lemma ask_cases r s g :
  (exists g', ask r (mkMachine s g) = Done tt (mkMachine s g'))
  \/ (exists g', ask r (mkMachine s g) = Thrown (bad_alloc r) (mkMachine s g')).
Proof.
  unfold ask. cbn. destruct g as [|[|] g]; eauto.
Qed.

Lemma new_Node_cases n s g :
  (exists g', new_Node' n (mkMachine s g)
              = Done (Some (fresh (dom (heap s))))
                     (mkMachine (set_store (<[fresh (dom (heap s)) := n]> (heap s))
                                           (trace s ++ [EvNew (fresh (dom (heap s)))
                                                              (Node.type n)]) s) g'))
  \/ (exists g', new_Node' n (mkMachine s g)
                 = Thrown (bad_alloc Request_new) (mkMachine s g')).
Proof.
  unfold new_Node'.
  destruct (ask_cases Request_new s g) as [(g' & Ha) | (g' & Ha)].
  - left. exists g'. rewrite (then_Done _ _ _ _ _ Ha). reflexivity.
  - right. exists g'. now rewrite (then_Thrown _ _ _ _ _ Ha).
Qed.

Lemma push_back_cases a n child s g :
  heap s !! a = Some n ->
  (exists g', push_back' (Some a) child (mkMachine s g)
              = Done tt (mkMachine
                           (set_store (<[a := Node.mk (Node.type n) (Node.value n)
                                                      (Node.name n)
                                                      (Node.children n ++ [child])]>
                                         (heap s)) (trace s) s) g'))
  \/ (exists g', push_back' (Some a) child (mkMachine s g)
                 = Thrown (bad_alloc Request_push_back) (mkMachine s g')).
Proof.
  intros Hlk. unfold push_back'.
  destruct (ask_cases Request_push_back s g) as [(g' & Ha) | (g' & Ha)].
  - left. exists g'. rewrite (then_Done _ _ _ _ _ Ha).
    apply lift_Ok. unfold push_back. rewrite (bind_Ok _ _ _ _ _ (load_Some _ _ _ Hlk)).
    reflexivity.
  - right. exists g'. now rewrite (then_Thrown _ _ _ _ _ Ha).
Qed.

Lemma clearTree_lift hf a h0 s g :
  owns hf a -> hf ##ₘ h0 -> heap s = hf ∪ h0 ->
  exists s', lift (clearTree (Some a)) (mkMachine s g) = Done nullptr (mkMachine s' g)
             /\ heap s' = h0.
Proof.
  intros Ho Hd Hh. destruct (clearTree_owns hf a h0 s Ho Hd Hh) as (tr & Hc & _).
  eexists. split; [apply lift_Ok; exact Hc | reflexivity].
Qed.

Lemma clearTree_lift_null s g :
  lift (clearTree nullptr) (mkMachine s g) = Done nullptr (mkMachine s g).
Proof. reflexivity. Qed.

(** The handler of a level, entered while [right] is [nullptr]. *)
Lemma teardown_node {A} a hf h0 s g t :
  owns hf a -> hf ##ₘ h0 -> heap s = hf ∪ h0 ->
  exists s', @teardown' _ A nullptr (Some a) t (mkMachine s g) = Thrown t (mkMachine s' g)
             /\ heap s' = h0.
Proof.
  intros Ho Hd Hh. destruct (clearTree_lift hf a h0 s g Ho Hd Hh) as (s' & Hc & Hh').
  exists s'. split; [|exact Hh']. unfold teardown'.
  rewrite (then_Done _ _ _ _ _ (clearTree_lift_null s g)).
  now rewrite (then_Done _ _ _ _ _ Hc).
Qed.

(** The handler of a level, entered while [right] holds the tree of the
    operand: both trees are deleted. *)
Lemma teardown_both {A} a ar hf hr h0 s g t :
  owns hf a -> owns hr ar -> hf ##ₘ h0 -> hr ##ₘ hf ∪ h0 -> heap s = hr ∪ (hf ∪ h0) ->
  exists s', @teardown' _ A (Some ar) (Some a) t (mkMachine s g) = Thrown t (mkMachine s' g)
             /\ heap s' = h0.
Proof.
  intros Ho Hor Hd Hdr Hh.
  destruct (clearTree_lift hr ar (hf ∪ h0) s g Hor Hdr Hh) as (s1 & Hc1 & Hh1).
  destruct (clearTree_lift hf a h0 s1 g Ho Hd Hh1) as (s2 & Hc2 & Hh2).
  exists s2. split; [|exact Hh2]. unfold teardown'.
  rewrite (then_Done _ _ _ _ _ Hc1). now rewrite (then_Done _ _ _ _ _ Hc2).
Qed.

(** What an operand has left behind stays when the level deletes its own
    tree. *)
Lemma left_behind_frame t hf h0 h' :
  hf ##ₘ h0 -> left_behind t (hf ∪ h0) h' ->
  exists h'', hf ##ₘ h'' /\ h' = hf ∪ h'' /\ left_behind t h0 h''.
Proof.
  intros Hd Hl.
  destruct t as [e | [|]]; cbn in Hl;
    [subst h'; exists h0; repeat split; auto.. |].
  destruct Hl as (a & n & Ha & -> & Hch).
  apply lookup_union_None in Ha as [Haf Ha0].
  exists (<[a := n]> h0). split; [|split].
  - apply map_disjoint_insert_r. auto.
  - now rewrite insert_union_r.
  - exists a, n. split; [exact Ha0|]. split; [reflexivity|].
    destruct Hch as [Hch | (l & Hch & Hl)]; [now left | right].
    exists l. split; [exact Hch|].
    rewrite insert_union_r in Hl by exact Haf.
    now apply lookup_union_None in Hl as [_ Hl].
Qed.


Lemma fresh_parts (hr hf h0 : gmap addr Node.t) :
  let a := fresh (dom (hr ∪ (hf ∪ h0))) in
  hr !! a = None /\ hf !! a = None /\ h0 !! a = None.
Proof.
  intros a. pose proof (fresh_None (hr ∪ (hf ∪ h0))) as Hf. fold a in Hf.
  apply lookup_union_None in Hf as [Hfr Hf].
  apply lookup_union_None in Hf as [Hfl Hf0]. auto.
Qed.

Lemma owns_root_fresh hf a (h0 : gmap addr Node.t) :
  owns hf a -> hf ##ₘ h0 -> h0 !! a = None.
Proof.
  intros Ho Hd. destruct (owns_root hf a Ho) as (n & Hn).
  eapply map_disjoint_Some_l; [exact Hd | exact Hn].
Qed.

(** The end of a turn, from the return of the operand: the new node and
    its two children.  When [new] is refused both trees are deleted; when
    a [push_back] is refused they are deleted and the new node stays. *)
Lemma attach_sound ty a ar hf hr h0 s g (k : ptr -> MM ptr) :
  owns hf a -> owns hr ar -> hf ##ₘ h0 -> hr ##ₘ hf ∪ h0 -> heap s = hr ∪ (hf ∪ h0) ->
  (forall a' hf' s' g', owns hf' a' -> hf' ##ₘ h0 -> heap s' = hf' ∪ h0 ->
                        outcome_spec h0 (k (Some a') (mkMachine s' g'))) ->
  outcome_spec h0
    (then' (try_catch' (new_Node' (Node.new1 ty)) (teardown' (Some ar) (Some a)))
       (fun newNode =>
          then' (try_catch' (push_back' newNode (Some a)) (teardown' (Some ar) (Some a)))
            (fun _ =>
               then' (try_catch' (push_back' newNode (Some ar))
                                 (teardown' (Some ar) (Some a)))
                 (fun _ => k newNode)))
       (mkMachine s g)).
Proof.
  intros Ho Hor Hd Hdr Hh Hk.
  destruct (fresh_parts hr hf h0) as (Hfr & Hfl & Hf0).
  rewrite <- Hh in Hfr, Hfl, Hf0.
  set (a' := fresh (dom (heap s))) in *.
  pose proof Hdr as Hdr'. apply map_disjoint_union_r in Hdr' as [Hrl Hr0].
  set (n0 := Node.new1 ty).
  set (n1 := Node.mk ty (double_of_int 0) "" [Some a]).
  set (n2 := Node.mk ty (double_of_int 0) "" [Some a; Some ar]).
  destruct (new_Node_cases n0 s g) as [(g1 & Hn) | (g1 & Hn)].
  2:{ destruct (teardown_both (A := ptr) a ar hf hr h0 s g1 (bad_alloc Request_new))
        as (s' & Ht & Hh'); auto.
      rewrite (then_Thrown _ _ _ _ _ (eq_trans (try_Thrown _ _ _ _ _ Hn) Ht)).
      exact Hh'. }
  rewrite (then_Done _ _ _ _ _ (try_Done _ _ _ _ _ Hn)). fold a'.
  set (s1 := set_store (<[a' := n0]> (heap s)) _ s).
  assert (Hlk1 : heap s1 !! a' = Some n0) by apply lookup_insert_eq.
  destruct (push_back_cases a' n0 (Some a) s1 g1 Hlk1) as [(g2 & Hp) | (g2 & Hp)].
  2:{ destruct (teardown_both (A := unit) a ar hf hr (<[a' := n0]> h0) s1 g2
                  (bad_alloc Request_push_back)) as (s' & Ht & Hh'); auto.
      { apply map_disjoint_insert_r. auto. }
      { apply map_disjoint_union_r. split; [auto | apply map_disjoint_insert_r; auto]. }
      { cbn. rewrite Hh. heap_eq. }
      rewrite (then_Thrown _ _ _ _ _ (eq_trans (try_Thrown _ _ _ _ _ Hp) Ht)).
      cbn. unfold store_of. cbn [parser]. exists a', n0. rewrite Hh'. repeat split; auto. }
  rewrite (then_Done _ _ _ _ _ (try_Done _ _ _ _ _ Hp)).
  set (s2 := set_store _ _ s1).
  assert (Hlk2 : heap s2 !! a' = Some n1) by apply lookup_insert_eq.
  destruct (push_back_cases a' n1 (Some ar) s2 g2 Hlk2) as [(g3 & Hq) | (g3 & Hq)].
  2:{ destruct (teardown_both (A := unit) a ar hf hr (<[a' := n1]> h0) s2 g3
                  (bad_alloc Request_push_back)) as (s' & Ht & Hh'); auto.
      { apply map_disjoint_insert_r. auto. }
      { apply map_disjoint_union_r. split; [auto | apply map_disjoint_insert_r; auto]. }
      { cbn. rewrite Hh. heap_eq. }
      rewrite (then_Thrown _ _ _ _ _ (eq_trans (try_Thrown _ _ _ _ _ Hq) Ht)).
      cbn. unfold store_of. cbn [parser]. exists a', n1. rewrite Hh'. split; [auto|]. split; [reflexivity|].
      right. exists a. split; [reflexivity|].
      destruct (owns_root hf a Ho) as (na & Hna).
      rewrite lookup_insert_ne by (intros ->; congruence).
      eapply map_disjoint_Some_l; [exact Hd | exact Hna]. }
  rewrite (then_Done _ _ _ _ _ (try_Done _ _ _ _ _ Hq)).
  set (s3 := set_store _ _ s2).
  destruct (owns_join a' n2 a ar hf hr h0) as (Hnew & Hdn & Heq); auto.
  { unfold a'. now rewrite Hh. }
  apply (Hk a' (<[a' := n2]> (hf ∪ hr)) s3 g3 Hnew Hdn).
  cbn. rewrite Hh, <- Heq. now rewrite !insert_insert_eq.
Qed.

(** The handler of a level, entered from a throwing operand. *)
Lemma operand_thrown {A} a hf h0 s g t :
  owns hf a -> hf ##ₘ h0 -> left_behind t (hf ∪ h0) (heap s) ->
  exists s', @teardown' _ A nullptr (Some a) t (mkMachine s g) = Thrown t (mkMachine s' g)
             /\ left_behind t h0 (heap s').
Proof.
  intros Ho Hd Hl.
  destruct (left_behind_frame t hf h0 (heap s) Hd Hl) as (h'' & Hd' & Hh & Hl').
  destruct (teardown_node (A := A) a hf h'' s g t Ho Hd' Hh) as (s' & Ht & Hh').
  exists s'. split; [exact Ht | now rewrite Hh'].
Qed.

Lemma sound_at (c : MM ptr) s g : sound c -> outcome_spec (heap s) (c (mkMachine s g)).
Proof. intros Hc. exact (Hc (mkMachine s g)). Qed.

Lemma lift_currentToken_cases s g :
  (exists tok, tokens s !! currentTokenIndex s = Some tok
               /\ lift currentToken (mkMachine s g) = Done tok (mkMachine s g))
  \/ lift currentToken (mkMachine s g) = Undef OutOfRange.
Proof.
  unfold lift, currentToken. cbn. destruct (tokens s !! currentTokenIndex s); eauto.
Qed.

Lemma left_assoc_loop_sound is_op node_type operand :
  sound operand ->
  forall fuel a hf h0 s g,
    owns hf a -> hf ##ₘ h0 -> heap s = hf ∪ h0 ->
    outcome_spec h0 (left_assoc_loop' is_op node_type operand fuel (Some a)
                                      (mkMachine s g)).
Proof.
  intros Hop. induction fuel as [|fuel IH]; intros a hf h0 s g Ho Hd Hh; [exact I|].
  cbn [left_assoc_loop'].
  destruct (lift_currentToken_cases s g) as [(op & Hlk & Hc) | Hc];
    [rewrite (then_Done _ _ _ _ _ Hc) | now rewrite (then_Undef _ _ _ _ Hc)].
  destruct (is_op (Token.type op)).
  2:{ exists a, hf. repeat split; auto. }
  rewrite then_Done with (a := tt) (m' := mkMachine (set_index (S (currentTokenIndex s)) s) g)
    by reflexivity.
  set (s1 := set_index (S (currentTokenIndex s)) s).
  pose proof (sound_at operand s1 g Hop) as Hspec.
  destruct (operand (mkMachine s1 g)) as [right [s2 g2] | t [s2 g2] | u |] eqn:Hr.
  - rewrite (then_Done _ _ _ _ _ (try_Done _ _ _ _ _ Hr)).
    destruct Hspec as (ar & hr & -> & Hor & Hdr & Hhr).
    cbn in Hdr, Hhr. rewrite Hh in Hdr, Hhr.
    apply (attach_sound _ a ar hf hr h0 s2 g2); auto.
    intros a' hf' s' g' Ho' Hd' Hh'. exact (IH a' hf' h0 s' g' Ho' Hd' Hh').
  - cbn in Hspec. rewrite Hh in Hspec.
    destruct (operand_thrown (A := ptr) a hf h0 s2 g2 t Ho Hd Hspec) as (s' & Ht & Hl).
    rewrite (then_Thrown _ _ _ _ _ (eq_trans (try_Thrown _ _ _ _ _ Hr) Ht)).
    exact Hl.
  - now rewrite (then_Undef _ _ _ _ (try_Undef _ _ _ _ Hr)).
  - now rewrite (then_Deep _ _ _ (try_Deep _ _ _ Hr)).
Qed.

(** A level: a first operand, then the loop. *)
Lemma left_assoc_level_sound is_op node_type operand fuel :
  sound operand ->
  sound (then' operand (left_assoc_loop' is_op node_type operand fuel)).
Proof.
  intros Hop [s g]. pose proof (sound_at operand s g Hop) as Hs.
  destruct (operand (mkMachine s g)) as [p [s1 g1] | t [s1 g1] | u |] eqn:Hf.
  - rewrite (then_Done _ _ _ _ _ Hf).
    destruct Hs as (a & hf & -> & Ho & Hd & Hh).
    exact (left_assoc_loop_sound is_op node_type operand Hop fuel a hf (heap s) s1 g1
             Ho Hd Hh).
  - rewrite (then_Thrown _ _ _ _ _ Hf). exact Hs.
  - now rewrite (then_Undef _ _ _ _ Hf).
  - now rewrite (then_Deep _ _ _ Hf).
Qed.

Lemma sound_deep : sound deep.
Proof. intros m. exact I. Qed.


Lemma expression_unfold f :
  expression' (S f)
  = try_catch' (assignmentExpression' f)
               (fun t => then' (lift (clearTree nullptr)) (fun _ => throw' t)).
Proof. reflexivity. Qed.

Lemma expression_sound f :
  sound (assignmentExpression' f) -> sound (expression' (S f)).
Proof.
  intros Hb [s g]. rewrite expression_unfold. pose proof (sound_at _ s g Hb) as Hs.
  destruct (assignmentExpression' f (mkMachine s g)) as [p m1 | t [s1 g1] | u |] eqn:Hf.
  - rewrite (try_Done _ _ _ _ _ Hf). exact Hs.
  - rewrite (try_Thrown _ _ _ _ _ Hf). exact Hs.
  - now rewrite (try_Undef _ _ _ _ Hf).
  - now rewrite (try_Deep _ _ _ Hf).
Qed.

(** The handler of [factor] runs with [node == nullptr]. *)
Lemma factor_handler t s g :
  then' (lift (clearTree nullptr)) (fun _ : ptr => throw' (A := ptr) t) (mkMachine s g)
  = Thrown t (mkMachine s g).
Proof. reflexivity. Qed.

(** A leaf: one node, or none when [new] is refused. *)
Lemma leaf_sound (n : Node.t) s g :
  Node.children n = [] ->
  outcome_spec (heap s)
    (then' (try_catch' (new_Node' n)
                       (fun t => then' (lift (clearTree nullptr)) (fun _ => throw' t)))
           (fun node => then' (lift next_token) (fun _ => unit' node))
           (mkMachine s g)).
Proof.
  intros Hn. destruct (new_Node_cases n s g) as [(g1 & Hnew) | (g1 & Hnew)].
  - rewrite (then_Done _ _ _ _ _ (try_Done _ _ _ _ _ Hnew)). cbn.
    exists (fresh (dom (heap s))), {[fresh (dom (heap s)) := n]}.
    unfold store_of. cbn. repeat split.
    + now apply owns_leaf.
    + apply map_disjoint_singleton_l, fresh_None.
    + apply insert_union_singleton_l.
  - unfold then' at 1. unfold try_catch'. rewrite Hnew. reflexivity.
Qed.

Lemma number_sound (tok : Token.t) s g :
  outcome_spec (heap s)
    (then' (try_catch'
              (then' (ask Request_new)
                     (fun _ => match stod (Token.value tok) with
                               | None => throw' (parser_error stod_exception)
                               | Some v => lift (new_Node (Node.new2 NodeType.NUMBER v))
                               end))
              (fun t => then' (lift (clearTree nullptr)) (fun _ => throw' t)))
           (fun node => then' (lift next_token) (fun _ => unit' node))
           (mkMachine s g)).
Proof.
  unfold then' at 1. unfold try_catch'.
  destruct (ask_cases Request_new s g) as [(g1 & Ha) | (g1 & Ha)].
  - rewrite (then_Done _ _ _ _ _ Ha).
    destruct (stod (Token.value tok)) as [v|]; [|reflexivity].
    cbn. exists (fresh (dom (heap s))),
           {[fresh (dom (heap s)) := Node.new2 NodeType.NUMBER v]}.
    unfold store_of. cbn. repeat split.
    + now apply owns_leaf.
    + apply map_disjoint_singleton_l, fresh_None.
    + apply insert_union_singleton_l.
  - rewrite (then_Thrown _ _ _ _ _ Ha). reflexivity.
Qed.

Lemma factor_sound f :
  sound (expression' f) -> sound (factor' (S f)).
Proof.
  intros Hb [s g]. cbn [factor'].
  destruct (lift_currentToken_cases s g) as [(tok & Hlk & Hc) | Hc];
    [rewrite (then_Done _ _ _ _ _ Hc) | now rewrite (then_Undef _ _ _ _ Hc)].
  destruct (Token.type tok) eqn:Hty;
    try reflexivity;
    try (apply (leaf_sound _ s g); reflexivity).
  - (* NUMBER *)
    apply number_sound.
  - (* LEFT_PAREN *)
    rewrite then_Done with (a := tt)
      (m' := mkMachine (set_parens (unmatchedParentheses s + 1) s) g) by reflexivity.
    rewrite then_Done with (a := tt)
      (m' := mkMachine (set_index (S (currentTokenIndex s))
                                  (set_parens (unmatchedParentheses s + 1) s)) g)
      by reflexivity.
    set (s1 := set_index _ _).
    pose proof (sound_at _ s1 g Hb) as Hs.
    destruct (expression' f (mkMachine s1 g)) as [node [s2 g2] | t [s2 g2] | u |] eqn:He.
    + rewrite (then_Done _ _ _ _ _ (try_Done _ _ _ _ _ He)).
      destruct Hs as (a & hf & -> & Ho & Hd & Hh).
      destruct (lift_currentToken_cases s2 g2) as [(cur & Hlk2 & Hc2) | Hc2];
        [rewrite (then_Done _ _ _ _ _ Hc2) | now rewrite (then_Undef _ _ _ _ Hc2)].
      destruct (negb _).
      * destruct (clearTree_lift hf a (heap s1) s2 g2 Ho Hd Hh) as (s3 & Hct & Hh3).
        rewrite (then_Done _ _ _ _ _ Hct). rewrite factor_handler. exact Hh3.
      * exists a, hf. repeat split; auto.
    + rewrite (then_Thrown _ _ _ _ _
                 (eq_trans (try_Thrown _ (fun t => then' (lift (clearTree nullptr))
                                                        (fun _ => throw' t)) _ _ _ He)
                           (factor_handler t s2 g2))).
      exact Hs.
    + now rewrite (then_Undef _ _ _ _ (try_Undef _ _ _ _ He)).
    + now rewrite (then_Deep _ _ _ (try_Deep _ _ _ He)).
Qed.

Lemma assignmentExpression_sound f :
  sound (logicalOrExpression' f) -> sound (assignmentExpression' f) ->
  sound (assignmentExpression' (S f)).
Proof.
  intros Hor Has [s g]. cbn [assignmentExpression'].
  pose proof (sound_at _ s g Hor) as Hs.
  destruct (logicalOrExpression' f (mkMachine s g)) as [node [s1 g1] | t m1 | u |] eqn:Hl.
  2:{ rewrite (then_Thrown _ _ _ _ _ Hl). exact Hs. }
  2:{ now rewrite (then_Undef _ _ _ _ Hl). }
  2:{ now rewrite (then_Deep _ _ _ Hl). }
  rewrite (then_Done _ _ _ _ _ Hl).
  pose proof Hs as (a & hf & -> & Ho & Hd & Hh). unfold store_of in Hh. cbn in Hh.
  destruct (lift_currentToken_cases s1 g1) as [(op & Hlk & Hc) | Hc];
    [rewrite (then_Done _ _ _ _ _ Hc) | now rewrite (then_Undef _ _ _ _ Hc)].
  destruct (is_type _ _).
  2:{ exact Hs. }
  destruct (owns_root hf a Ho) as (nd & Hnd).
  assert (Hlka : heap s1 !! a = Some nd).
  { rewrite Hh. now apply lookup_union_Some_l. }
  rewrite (then_Done _ _ _ _ _ (lift_Ok _ _ g1 _ _ (load_Some _ _ _ Hlka))).
  destruct (negb _).
  - destruct (clearTree_lift hf a (heap s) s1 g1 Ho Hd Hh) as (s2 & Hct & Hh2).
    rewrite (then_Done _ _ _ _ _ Hct). unfold teardown'.
    rewrite (then_Done _ _ _ _ _ (clearTree_lift_null s2 g1)).
    rewrite (then_Done _ _ _ _ _ (clearTree_lift_null s2 g1)).
    exact Hh2.
  - rewrite then_Done with (a := tt)
      (m' := mkMachine (set_index (S (currentTokenIndex s1)) s1) g1) by reflexivity.
    set (s2 := set_index _ _).
    pose proof (sound_at _ s2 g1 Has) as Hs2.
    destruct (assignmentExpression' f (mkMachine s2 g1))
      as [valueNode [s3 g3] | t [s3 g3] | u |] eqn:Hv.
    + rewrite (then_Done _ _ _ _ _ (try_Done _ _ _ _ _ Hv)).
      destruct Hs2 as (ar & hr & -> & Hor' & Hdr & Hhr).
      unfold store_of in Hhr. cbn in Hdr, Hhr. rewrite Hh in Hdr, Hhr.
      apply (attach_sound _ a ar hf hr (heap s) s3 g3); auto.
      intros a' hf' s' g' Ho' Hd' Hh'. exists a', hf'. repeat split; auto.
    + unfold outcome_spec, store_of in Hs2. cbn in Hs2. rewrite Hh in Hs2.
      destruct (operand_thrown (A := ptr) a hf (heap s) s3 g3 t Ho Hd Hs2)
        as (s' & Ht & Hl').
      rewrite (then_Thrown _ _ _ _ _ (eq_trans (try_Thrown _ _ _ _ _ Hv) Ht)).
      exact Hl'.
    + now rewrite (then_Undef _ _ _ _ (try_Undef _ _ _ _ Hv)).
    + now rewrite (then_Deep _ _ _ (try_Deep _ _ _ Hv)).
Qed.

(** The ownership invariant of the cascade when requests can be refused. *)
Lemma cascade_sound_exhaustion : forall f, cascade_sound' f.
Proof.
  induction f as [|f IH].
  - split; apply sound_deep.
  - destruct IH. split.
    + now apply expression_sound.
    + now apply assignmentExpression_sound.
    + now apply (left_assoc_level_sound _ _ (logicalXorExpression' f) f).
    + now apply (left_assoc_level_sound _ _ (logicalAndExpression' f) f).
    + now apply (left_assoc_level_sound _ _ (equalityExpression' f) f).
    + now apply (left_assoc_level_sound _ _ (relationalExpression' f) f).
    + now apply (left_assoc_level_sound _ _ (additiveExpression' f) f).
    + now apply (left_assoc_level_sound _ _ (multiplicativeExpression' f) f).
    + now apply (left_assoc_level_sound _ _ (factor' f) f).
    + now apply factor_sound.
Qed.

Lemma levels_sound fuel (level : MM ptr) :
  In level (levels fuel) -> sound level.
Proof.
  intros Hin. destruct (cascade_sound_exhaustion fuel).
  unfold levels in Hin. cbn [In] in Hin.
  repeat (destruct Hin as [<- | Hin]; [assumption|]). destruct Hin.
Qed.


Lemma new_Node_granted n s g :
  new_Node' n (mkMachine s (true :: g))
  = Done (Some (fresh (dom (heap s))))
         (mkMachine (set_store (<[fresh (dom (heap s)) := n]> (heap s))
                               (trace s ++ [EvNew (fresh (dom (heap s))) (Node.type n)]) s)
                    g).
Proof. reflexivity. Qed.

Lemma new_Node_refused n s g :
  new_Node' n (mkMachine s (false :: g)) = Thrown (bad_alloc Request_new) (mkMachine s g).
Proof. reflexivity. Qed.

Lemma push_back_granted a n child s g :
  heap s !! a = Some n ->
  push_back' (Some a) child (mkMachine s (true :: g))
  = Done tt (mkMachine (set_store (<[a := Node.mk (Node.type n) (Node.value n) (Node.name n)
                                                  (Node.children n ++ [child])]> (heap s))
                                  (trace s) s) g).
Proof.
  intros Hlk. unfold push_back'.
  rewrite then_Done with (a := tt) (m' := mkMachine s g) by reflexivity.
  apply lift_Ok. unfold push_back. rewrite (bind_Ok _ _ _ _ _ (load_Some _ _ _ Hlk)).
  reflexivity.
Qed.

Lemma push_back_refused node child s g :
  push_back' node child (mkMachine s (false :: g))
  = Thrown (bad_alloc Request_push_back) (mkMachine s g).
Proof. reflexivity. Qed.

(** A turn of the loop in which the operand has returned and a request
    is then refused. *)
Lemma turn_refused is_op node_type operand fuel a ar hf hr h0 s g op s2 g2 :
  owns hf a -> hf ##ₘ h0 -> heap s = hf ∪ h0 ->
  tokens s !! currentTokenIndex s = Some op -> is_op (Token.type op) = true ->
  operand (mkMachine (set_index (S (currentTokenIndex s)) s) g)
  = Done (Some ar) (mkMachine s2 g2) ->
  owns hr ar -> hr ##ₘ hf ∪ h0 -> heap s2 = hr ∪ (hf ∪ h0) ->
  let run := left_assoc_loop' is_op node_type operand (S fuel) (Some a) (mkMachine s g) in
  let a' := fresh (dom (heap s2)) in
  let ty := node_type (Token.type op) in
  match g2 with
  | false :: g' =>
      exists s', run = Thrown (bad_alloc Request_new) (mkMachine s' g') /\ heap s' = h0
  | true :: false :: g' =>
      exists s', run = Thrown (bad_alloc Request_push_back) (mkMachine s' g')
                 /\ heap s' = <[a' := Node.new1 ty]> h0
  | true :: true :: false :: g' =>
      exists s', run = Thrown (bad_alloc Request_push_back) (mkMachine s' g')
                 /\ heap s' = <[a' := Node.mk ty (double_of_int 0) "" [Some a]]> h0
  | _ => True
  end.
Proof.
  intros Ho Hd Hh Hlk Hop Hr Hor Hdr Hh2 run a' ty.
  assert (Hrun : run
    = then' (try_catch' (new_Node' (Node.new1 ty)) (teardown' (Some ar) (Some a)))
       (fun newNode =>
          then' (try_catch' (push_back' newNode (Some a)) (teardown' (Some ar) (Some a)))
            (fun _ =>
               then' (try_catch' (push_back' newNode (Some ar))
                                 (teardown' (Some ar) (Some a)))
                 (fun _ => left_assoc_loop' is_op node_type operand fuel newNode)))
       (mkMachine s2 g2)).
  { unfold run. cbn [left_assoc_loop'].
    rewrite then_Done with (a := op) (m' := mkMachine s g)
      by (unfold lift, currentToken; cbn; now rewrite Hlk).
    rewrite Hop.
    rewrite then_Done with (a := tt)
      (m' := mkMachine (set_index (S (currentTokenIndex s)) s) g) by reflexivity.
    now rewrite (then_Done _ _ _ _ _ (try_Done _ _ _ _ _ Hr)). }
  destruct (fresh_parts hr hf h0) as (Hfr & Hfl & Hf0).
  rewrite <- Hh2 in Hfr, Hfl, Hf0. fold a' in Hfr, Hfl, Hf0.
  pose proof Hdr as Hdr'. apply map_disjoint_union_r in Hdr' as [Hrl Hr0].
  set (n0 := Node.new1 ty).
  set (n1 := Node.mk ty (double_of_int 0) "" [Some a]).
  destruct g2 as [|[|] g2]; [exact I| |].
  2:{ (* new is refused *)
      destruct (teardown_both (A := ptr) a ar hf hr h0 s2 g2 (bad_alloc Request_new))
        as (s' & Ht & Hh'); auto.
      exists s'. split; [|exact Hh']. rewrite Hrun.
      exact (then_Thrown _ _ _ _ _
               (eq_trans (try_Thrown _ _ _ _ _ (new_Node_refused n0 s2 g2)) Ht)). }
  rewrite (then_Done _ _ _ _ _ (try_Done _ _ _ _ _ (new_Node_granted n0 s2 g2))) in Hrun.
  fold a' in Hrun.
  set (s3 := set_store (<[a' := n0]> (heap s2)) _ s2) in Hrun.
  assert (Hlk3 : heap s3 !! a' = Some n0) by apply lookup_insert_eq.
  destruct g2 as [|[|] g2]; [exact I| |].
  2:{ (* the first push_back is refused *)
      destruct (teardown_both (A := unit) a ar hf hr (<[a' := n0]> h0) s3 g2
                  (bad_alloc Request_push_back)) as (s' & Ht & Hh'); auto.
      { apply map_disjoint_insert_r. auto. }
      { apply map_disjoint_union_r. split; [auto | apply map_disjoint_insert_r; auto]. }
      { cbn. rewrite Hh2. heap_eq. }
      exists s'. split; [|exact Hh']. rewrite Hrun.
      exact (then_Thrown _ _ _ _ _
               (eq_trans (try_Thrown _ _ _ _ _ (push_back_refused _ _ s3 g2)) Ht)). }
  rewrite (then_Done _ _ _ _ _
             (try_Done _ _ _ _ _ (push_back_granted a' n0 (Some a) s3 g2 Hlk3))) in Hrun.
  set (s4 := set_store _ _ s3) in Hrun.
  destruct g2 as [|[|] g2]; [exact I | exact I |].
  (* the second push_back is refused *)
  destruct (teardown_both (A := unit) a ar hf hr (<[a' := n1]> h0) s4 g2
              (bad_alloc Request_push_back)) as (s' & Ht & Hh'); auto.
  { apply map_disjoint_insert_r. auto. }
  { apply map_disjoint_union_r. split; [auto | apply map_disjoint_insert_r; auto]. }
  { cbn. rewrite Hh2. heap_eq. }
  exists s'. split; [|exact Hh']. rewrite Hrun.
  exact (then_Thrown _ _ _ _ _
           (eq_trans (try_Thrown _ _ _ _ _ (push_back_refused _ _ s4 g2)) Ht)).
Qed.


(** *** Without a refusal the cascade runs as [InfixParser] *)






















(** C2, on the code.  When a level of the cascade throws, the nodes it
    allocated have been deleted and the store is the one the level was
    called in, whatever the recursion bound, the tokens and the answers
    of the free store: so it is for the errors of the parser, which reach
    the handlers with [right == nullptr], and for a [new Node] that is
    refused, which reaches the handler of a level with the tree built so
    far in [node] and the operand not yet attached in [right].  It is not
    so for a [push_back] that is refused: the handler deletes [right] and
    [node], and the operator node [new] has just returned is in neither;
    it stays in the store, without children, or with one child, which is
    deleted.  The second part follows a turn of the loop of a
    left-associative level from the return of the operand, when the next,
    the second or the third request is refused. *)
Theorem levels_tear_down :
  (forall fuel (level : MM ptr) m t m',
      In level (levels fuel) ->
      level m = Thrown t m' ->
      match t with
      | bad_alloc Request_push_back =>
          exists a n,
            store_of m !! a = None /\ store_of m' = <[a := n]> (store_of m)
            /\ (Node.children n = []
                \/ exists l, Node.children n = [Some l] /\ store_of m' !! l = None)
      | _ => store_of m' = store_of m
      end)
  /\ (forall is_op node_type operand fuel a ar hf hr h0 s g op s2 g2,
      owns hf a -> hf ##ₘ h0 -> heap s = hf ∪ h0 ->
      tokens s !! currentTokenIndex s = Some op -> is_op (Token.type op) = true ->
      operand (mkMachine (set_index (S (currentTokenIndex s)) s) g)
      = Done (Some ar) (mkMachine s2 g2) ->
      owns hr ar -> hr ##ₘ hf ∪ h0 -> heap s2 = hr ∪ (hf ∪ h0) ->
      let run := left_assoc_loop' is_op node_type operand (S fuel) (Some a)
                                  (mkMachine s g) in
      let a' := fresh (dom (heap s2)) in
      let ty := node_type (Token.type op) in
      match g2 with
      | false :: g' =>
          exists s', run = Thrown (bad_alloc Request_new) (mkMachine s' g')
                     /\ heap s' = h0
      | true :: false :: g' =>
          exists s', run = Thrown (bad_alloc Request_push_back) (mkMachine s' g')
                     /\ heap s' = <[a' := Node.new1 ty]> h0
      | true :: true :: false :: g' =>
          exists s', run = Thrown (bad_alloc Request_push_back) (mkMachine s' g')
                     /\ heap s' = <[a' := Node.mk ty (double_of_int 0) "" [Some a]]> h0
      | _ => True
      end).
Proof.
  split.
  - intros fuel level m t m' Hin Hthrow.
    pose proof (levels_sound fuel level Hin m) as Hs. rewrite Hthrow in Hs. exact Hs.
  - intros is_op node_type operand fuel a ar hf hr h0 s g op s2 g2.
    apply turn_refused.
Qed.


End WithNumeric.

Section Witnesses.
Import InfixParser Ownership Reading Decimal Exhaustion.
Local Open Scope list_scope.
Local Open Scope nat_scope.

Lemma levels_tear_down_witness :
  (* an error of the parser *)
  (exists m',
      additiveExpression' 30 (mkMachine (init (tokens_of "1 + )") ∅) [])
      = Thrown (parser_error
                  (runtime_error (message "Unexpected token at line 1 column 5: )"))) m'
      /\ allocations (trace (parser m')) = [EvNew 0 NodeType.NUMBER]
      /\ store_of m' = ∅)
  (* new Node(ADD) is refused *)
  /\ (exists m',
      additiveExpression' 30 (mkMachine (init (tokens_of "1 + 2") ∅) [true; true; false])
      = Thrown (bad_alloc Request_new) m'
      /\ trace (parser m')
         = [EvNew 0 NodeType.NUMBER; EvNew 1 NodeType.NUMBER; EvDelete 1; EvDelete 0]
      /\ store_of m' = ∅)
  (* the first push_back on the ADD node is refused *)
  /\ (exists m',
      additiveExpression' 30
        (mkMachine (init (tokens_of "1 + 2") ∅) [true; true; true; false])
      = Thrown (bad_alloc Request_push_back) m'
      /\ store_of m' = {[2 := @Node.new1 Decimal.numeric NodeType.ADD]}
      /\ exists a n,
          (∅ : gmap addr Node.t) !! a = None /\ store_of m' = <[a := n]> ∅
          /\ (Node.children n = []
              \/ exists l, Node.children n = [Some l] /\ store_of m' !! l = None))
  (* the second push_back is refused, in the turn of the loop *)
  /\ (exists s',
      left_assoc_loop'
        (fun ty => is_type TokenType.ADD ty || is_type TokenType.SUBTRACT ty)
        (fun ty => if is_type TokenType.ADD ty then NodeType.ADD else NodeType.SUBTRACT)
        (multiplicativeExpression' 28) 29 (Some 0)
        (mkMachine (mkState (tokens_of "1 + 2") 1 nullptr 0
                            {[0 := @Node.new2 Decimal.numeric NodeType.NUMBER (Decimal.mk 1 0)]}
                            [EvNew 0 NodeType.NUMBER])
                   [true; true; true; false])
      = Thrown (bad_alloc Request_push_back) (mkMachine s' [])
      /\ heap s' = {[2 := @Node.mk Decimal.numeric NodeType.ADD (Decimal.mk 0 0) "" [Some 0]]}
      /\ heap s' !! 0 = None).
Proof.
  split; [|split; [|split]].
  - eexists. split; [vm_compute; reflexivity|]. split; [reflexivity|].
    apply (proj1 (@ExhaustionFacts.levels_tear_down Decimal.numeric Decimal.reader)
             30 (additiveExpression' 30) (mkMachine (init (tokens_of "1 + )") ∅) [])
             (parser_error
                (runtime_error (message "Unexpected token at line 1 column 5: )")))).
    + unfold levels; do 6 right; left; reflexivity.
    + vm_compute. reflexivity.
  - eexists. split; [vm_compute; reflexivity|]. split; [reflexivity|].
    apply (proj1 (@ExhaustionFacts.levels_tear_down Decimal.numeric Decimal.reader)
             30 (additiveExpression' 30)
             (mkMachine (init (tokens_of "1 + 2") ∅) [true; true; false])
             (bad_alloc Request_new)).
    + unfold levels; do 6 right; left; reflexivity.
    + vm_compute. reflexivity.
  - eexists. split; [vm_compute; reflexivity|]. split; [reflexivity|].
    apply (proj1 (@ExhaustionFacts.levels_tear_down Decimal.numeric Decimal.reader)
             30 (additiveExpression' 30)
             (mkMachine (init (tokens_of "1 + 2") ∅) [true; true; true; false])
             (bad_alloc Request_push_back)).
    + unfold levels; do 6 right; left; reflexivity.
    + vm_compute. reflexivity.
  - destruct (proj2 (@ExhaustionFacts.levels_tear_down Decimal.numeric Decimal.reader)
                (fun ty => is_type TokenType.ADD ty || is_type TokenType.SUBTRACT ty)
                (fun ty => if is_type TokenType.ADD ty
                           then NodeType.ADD else NodeType.SUBTRACT)
                (multiplicativeExpression' 28) 28 0 1
                {[0 := @Node.new2 Decimal.numeric NodeType.NUMBER (Decimal.mk 1 0)]}
                {[1 := @Node.new2 Decimal.numeric NodeType.NUMBER (Decimal.mk 2 0)]}
                ∅
                (mkState (tokens_of "1 + 2") 1 nullptr 0
                         {[0 := @Node.new2 Decimal.numeric NodeType.NUMBER (Decimal.mk 1 0)]}
                         [EvNew 0 NodeType.NUMBER])
                [true; true; true; false]
                (tok TokenType.ADD "+" 3)
                (mkState (tokens_of "1 + 2") 3 nullptr 0
                         {[0 := @Node.new2 Decimal.numeric NodeType.NUMBER (Decimal.mk 1 0);
                           1 := @Node.new2 Decimal.numeric NodeType.NUMBER (Decimal.mk 2 0)]}
                         [EvNew 0 NodeType.NUMBER; EvNew 1 NodeType.NUMBER])
                [true; true; false])
      as (s' & Hrun & Hh).
    + apply owns_leaf. reflexivity.
    + apply map_disjoint_empty_r.
    + reflexivity.
    + reflexivity.
    + reflexivity.
    + vm_compute. reflexivity.
    + apply owns_leaf. reflexivity.
    + apply map_disjoint_singleton_l. reflexivity.
    + reflexivity.
    + exists s'. split; [exact Hrun|]. rewrite Hh. split; reflexivity.
Defined.

End Witnesses.
End ExhaustionFacts.
